(** * lab0-c: the queue of [queue.c] over a circular doubly-linked list

    A shallow embedding of [queue.c].  Memory is a finite map from addresses
    to blocks, every C function is a computation in a small state-and-error
    monad, and loops take a fuel argument.  The abstract view of a queue is
    the list of the addresses of its nodes, in chain order. *)

From Stdlib Require Import ZArith Ascii String Lia.
From stdpp Require Import base gmap list strings sorting.

#[local] Set Warnings "-clear-no-such-hyp".

Local Open Scope Z_scope.
Local Open Scope nat_scope.

(** ** Memory *)

Abbreviation addr := nat (only parsing).

Definition NULL : addr := 0.

(** [struct list_head { struct list_head *next, *prev; }] *)
Record list_head := ListHead { next : addr; prev : addr }.

(** What a block of memory holds.  An [element_t] is
    [{ char *value; struct list_head list; }]: the element and its embedded
    [list] member share one address here, so [list_entry] and [&e->list] are
    the identity, and the string that [value] points to is kept inside the
    block ([None] is a null [value]).  A [Buffer] is a caller's [char]
    array. *)
Inductive block :=
| Sentinel (l : list_head)
| Element (value : option string) (l : list_head)
| Buffer (bytes : list ascii).

Abbreviation heap := (gmap nat block) (only parsing).

Definition links (b : block) : option list_head :=
  match b with
  | Sentinel l => Some l
  | Element _ l => Some l
  | Buffer _ => None
  end.

Definition with_links (f : list_head → list_head) (b : block) : block :=
  match b with
  | Sentinel l => Sentinel (f l)
  | Element v l => Element v (f l)
  | Buffer bs => Buffer bs
  end.

(** Reading a field through a pointer; nothing is ever mapped at [NULL]. *)
Definition get_links (m : heap) (p : addr) : option list_head :=
  if decide (p = NULL) then None else m !! p ≫= links.

Definition get_next (m : heap) (p : addr) : option addr := next <$> get_links m p.
Definition get_prev (m : heap) (p : addr) : option addr := prev <$> get_links m p.

Definition set_next (p v : addr) (m : heap) : heap :=
  alter (with_links (λ l, {| next := v; prev := prev l |})) p m.
Definition set_prev (p v : addr) (m : heap) : heap :=
  alter (with_links (λ l, {| next := next l; prev := v |})) p m.

(** The string an element's [value] points to. *)
Definition payload (m : heap) (p : addr) : option string :=
  if decide (p = NULL) then None else
  match m !! p with
  | Some (Element (Some s) _) => Some s
  | _ => None
  end.

(** ** The monad: a heap is threaded through, a bad access is a [Fault],
    and a loop that used up its fuel is [OutOfFuel]. *)

Inductive res (A : Type) :=
| Ok (a : A)
| Fault
| OutOfFuel.
Arguments Ok {A} a.
Arguments Fault {A}.
Arguments OutOfFuel {A}.

Definition M (A : Type) : Type := heap → res (A * heap).

Definition ret {A} (a : A) : M A := λ m, Ok (a, m).

Definition bind {A B} (c : M A) (k : A → M B) : M B :=
  λ m, match c m with
       | Ok (a, m') => k a m'
       | Fault => Fault
       | OutOfFuel => OutOfFuel
       end.

Definition fault {A} : M A := λ _, Fault.
Definition out_of_fuel {A} : M A := λ _, OutOfFuel.

Declare Scope monad_scope.
Delimit Scope monad_scope with M.
Notation "'let*' x := c 'in' k" := (bind c (λ x, k))
  (at level 10, x pattern, c at level 100, k at level 200) : monad_scope.
Notation "c ';;' k" := (bind c (λ _, k))
  (at level 100, k at level 200, right associativity) : monad_scope.
Local Open Scope monad_scope.

Definition load_next (p : addr) : M addr :=
  λ m, match get_next m p with Some v => Ok (v, m) | None => Fault end.
Definition load_prev (p : addr) : M addr :=
  λ m, match get_prev m p with Some v => Ok (v, m) | None => Fault end.
Definition store_next (p v : addr) : M unit :=
  λ m, match get_links m p with Some _ => Ok (tt, set_next p v m) | None => Fault end.
Definition store_prev (p v : addr) : M unit :=
  λ m, match get_links m p with Some _ => Ok (tt, set_prev p v m) | None => Fault end.

(** [e->value] read as a string, as [strcmp] and [strncpy] do: a null
    [value] faults. *)
Definition load_string (p : addr) : M string :=
  λ m, match payload m p with Some s => Ok (s, m) | None => Fault end.

(** [e->value = v] *)
Definition store_value (p : addr) (v : option string) : M unit :=
  λ m, if decide (p = NULL) then Fault else
       match m !! p with
       | Some (Element _ l) => Ok (tt, <[p := Element v l]> m)
       | _ => Fault
       end.

(** [e->value] tested against [NULL] *)
Definition value_is_null (p : addr) : M bool :=
  λ m, if decide (p = NULL) then Fault else
       match m !! p with
       | Some (Element v _) => Ok (bool_decide (v = None), m)
       | _ => Fault
       end.

(** Memory just obtained holds no meaningful links. *)
Definition junk : list_head := {| next := NULL; prev := NULL |}.

(** [malloc], and a local variable coming into scope: a block at an address
    not in use.  [harness.h] replaces [malloc] and [strdup] by versions that
    can be made to fail; whether a call succeeds is the argument [ok]. *)
Definition malloc (ok : bool) (b : block) : M addr :=
  λ m, if ok then let p := fresh ({[NULL]} ∪ dom m) in Ok (p, <[p := b]> m)
       else Ok (NULL, m).

Definition strdup (ok : bool) (s : string) : option string :=
  if ok then Some s else None.

(** [free]: of [NULL] it does nothing, of an address not in use it is a
    fault. *)
Definition free (p : addr) : M unit :=
  λ m, if decide (p = NULL) then Ok (tt, m) else
       match m !! p with
       | Some _ => Ok (tt, delete p m)
       | None => Fault
       end.

(** ** [strcmp], [strncpy] *)

(** The difference of the first two characters that differ, as unsigned
    chars; a [string] stands for the characters before the terminator. *)
Fixpoint strcmp (s1 s2 : string) : Z :=
  match s1, s2 with
  | EmptyString, EmptyString => 0%Z
  | EmptyString, String c _ => (- Z.of_nat (nat_of_ascii c) - 1)%Z
  | String c _, EmptyString => (Z.of_nat (nat_of_ascii c) + 1)%Z
  | String c1 r1, String c2 r2 =>
      if decide (c1 = c2) then strcmp r1 r2
      else (Z.of_nat (nat_of_ascii c1) - Z.of_nat (nat_of_ascii c2))%Z
  end.

Definition NUL : ascii := zero.

(** [strncpy(dest, src, n)] writes exactly [n] bytes: the characters of
    [src], then terminators. *)
Definition strncpy_bytes (src : string) (n : nat) : list ascii :=
  take n (list_ascii_of_string src ++ replicate n NUL).

(** [size_t] has 64 bits. *)
Definition SIZE_MAX : Z := (2 ^ 64 - 1)%Z.

Definition strncpy (dest : addr) (src : string) (n : Z) : M unit :=
  λ m, if decide (dest = NULL) then Fault else
       match m !! dest with
       | Some (Buffer bs) =>
           if decide (n ≤ Z.of_nat (length bs))%Z
           then Ok (tt, <[dest := Buffer (strncpy_bytes src (Z.to_nat n) ++ drop (Z.to_nat n) bs)]> m)
           else Fault
       | _ => Fault
       end.

(** [*(sp + i) = c] *)
Definition store_byte (sp : addr) (i : Z) (c : ascii) : M unit :=
  λ m, if decide (sp = NULL) then Fault else
       match m !! sp with
       | Some (Buffer bs) =>
           if decide (0 ≤ i < Z.of_nat (length bs))%Z
           then Ok (tt, <[sp := Buffer (<[Z.to_nat i := c]> bs)]> m)
           else Fault
       | _ => Fault
       end.

(** ** [list.h]

    [queue.c] includes the list primitives through [queue.h]; their text is
    not part of [queue.c], and each is given here as the design document
    describes it. *)

(** Modelled from the spec: [INIT_LIST_HEAD] of [list.h], "makes a node its
    own sentinel (self-referential, representing empty)". *)
Definition INIT_LIST_HEAD (head : addr) : M unit :=
  store_next head head;;
  store_prev head head.

(** Modelled from the spec: [list_empty] of [list.h], "an empty list is a
    node whose next and prev both reference itself"; the test reads
    [next]. *)
Definition list_empty (head : addr) : M bool :=
  let* n := load_next head in
  ret (bool_decide (n = head)).

(** Modelled from the spec: [list_is_singular] of [list.h], "exactly one
    non-sentinel node". *)
Definition list_is_singular (head : addr) : M bool :=
  let* e := list_empty head in
  if e then ret false
  else
    let* p := load_prev head in
    let* n := load_next head in
    ret (bool_decide (p = n)).

(** Modelled from the spec: [list_add] of [list.h], "splice a single
    detached node next to anchor, updating four references", here just
    after [head]. *)
Definition list_add (node head : addr) : M unit :=
  let* nx := load_next head in
  store_prev nx node;;
  store_next node nx;;
  store_prev node head;;
  store_next head node.

(** Modelled from the spec: [list_add_tail] of [list.h], the same just
    before [head]. *)
Definition list_add_tail (node head : addr) : M unit :=
  let* pv := load_prev head in
  store_next pv node;;
  store_next node head;;
  store_prev node pv;;
  store_prev head node.

(** Modelled from the spec: [list_del] of [list.h], "remove a node from its
    chain, reconnecting its former neighbors". *)
Definition list_del (node : addr) : M unit :=
  let* nx := load_next node in
  let* pv := load_prev node in
  store_prev nx pv;;
  store_next pv nx.

(** Modelled from the spec: [list_del_init] of [list.h], the unlink that
    goes on to "reinitialize the removed node to self-referential". *)
Definition list_del_init (node : addr) : M unit :=
  list_del node;;
  INIT_LIST_HEAD node.

(** Modelled from the spec: [list_splice_tail_init] of [list.h], "move an
    entire segment (all nodes currently linked from a second sentinel) to
    just before dest_anchor, leaving the source sentinel empty". *)
Definition list_splice_tail_init (list head : addr) : M unit :=
  let* head_last := load_prev head in
  let* list_first := load_next list in
  let* list_last := load_prev list in
  let* e := list_empty list in
  (if e then ret tt
   else
     store_prev head list_last;;
     store_next list_last head;;
     store_prev list_first head_last;;
     store_next head_last list_first);;
  INIT_LIST_HEAD list.

(** [list_cut_position] is used by [q_sort] alone, which takes it as an
    argument.  Two split steps follow that it can be run with. *)

(** Modelled from the spec: [list_cut_position] of [list.h], the split step
    as section 4.8 words it: "given a target node, detaches the segment from
    that node through the current tail, re-homing it under a second,
    separately-provided sentinel, leaving the original list holding only the
    prefix up through the node before the target". *)
Definition cut_before (head_to head_from node : addr) : M unit :=
  let* last := load_prev head_from in
  let* before := load_prev node in
  store_next head_to node;;
  store_prev node head_to;;
  store_prev head_to last;;
  store_next last head_to;;
  store_next before head_from;;
  store_prev head_from before.

(** The split step of the [list.h] of the Linux kernel: the entries of
    [head_from] up to and including [node] move to [head_to], and
    [head_from] keeps the entries after [node]. *)
Definition cut_through (head_to head_from node : addr) : M unit :=
  let* first := load_next head_from in
  let* after := load_next node in
  store_next head_from after;;
  store_prev after head_from;;
  store_prev head_to node;;
  store_next node head_to;;
  store_next head_to first;;
  store_prev first head_to.

(** ** [queue.c] *)

(** [q_new]; [ok] is whether [malloc] succeeds. *)
Definition q_new (ok : bool) : M addr :=
  let* q := malloc ok (Sentinel junk) in
  if decide (q = NULL) then ret NULL
  else INIT_LIST_HEAD q;; ret q.

(** [free(e->value); free(e);]: the string is kept inside the element's
    block, so the two go together. *)
Definition q_release_element (e : addr) : M unit :=
  λ m, if decide (e = NULL) then Fault else
       match m !! e with
       | Some (Element _ _) => Ok (tt, delete e m)
       | _ => Fault
       end.

(** The body of [list_for_each_entry_safe (e, s, l, list)] in [q_free]. *)
Fixpoint q_free_loop (fuel : nat) (l e s : addr) : M unit :=
  match fuel with
  | 0 => out_of_fuel
  | S fuel =>
      if decide (e = l) then ret tt
      else
        q_release_element e;;
        let* s' := load_next s in
        q_free_loop fuel l s s'
  end.

Definition q_free (fuel : nat) (l : addr) : M unit :=
  if decide (l = NULL) then ret tt
  else
    let* e := load_next l in
    let* s := load_next e in
    q_free_loop fuel l e s;;
    free l.

(** [q_insert_head]; [ok_elem] and [ok_str] are whether [malloc] and
    [strdup] succeed. *)
Definition q_insert_head (ok_elem ok_str : bool) (head : addr) (s : string) : M bool :=
  if decide (head = NULL) then ret false
  else
    let* new := malloc ok_elem (Element None junk) in
    if decide (new = NULL) then ret false
    else
      store_value new (strdup ok_str s);;
      let* null := value_is_null new in
      if null then free new;; ret false
      else list_add new head;; ret true.

Definition q_insert_tail (ok_elem ok_str : bool) (head : addr) (s : string) : M bool :=
  if decide (head = NULL) then ret false
  else
    let* new := malloc ok_elem (Element None junk) in
    if decide (new = NULL) then ret false
    else
      store_value new (strdup ok_str s);;
      let* null := value_is_null new in
      if null then free new;; ret false
      else list_add_tail new head;; ret true.

(** [bufsize] is a [size_t]: [bufsize - 1] wraps around at zero. *)
Definition size_sub1 (bufsize : Z) : Z := ((bufsize - 1) `mod` (SIZE_MAX + 1))%Z.

Definition copy_out (ele sp : addr) (bufsize : Z) : M unit :=
  if decide (sp = NULL) then ret tt
  else
    let* v := load_string ele in
    strncpy sp v (size_sub1 bufsize);;
    store_byte sp (bufsize - 1) NUL.

Definition q_remove_head (head sp : addr) (bufsize : Z) : M addr :=
  if decide (head = NULL) then ret NULL
  else
    let* e := list_empty head in
    if e then ret NULL
    else
      let* ele := load_next head in
      list_del_init ele;;
      copy_out ele sp bufsize;;
      ret ele.

Definition q_remove_tail (head sp : addr) (bufsize : Z) : M addr :=
  if decide (head = NULL) then ret NULL
  else
    let* e := list_empty head in
    if e then ret NULL
    else
      let* ele := load_prev head in
      list_del_init ele;;
      copy_out ele sp bufsize;;
      ret ele.

(** [int] has 32 bits. *)
Definition INT_MAX : Z := (2 ^ 31 - 1)%Z.

(** [list_for_each (n, head) count++;] with [count] an [int]: going past
    [INT_MAX] is undefined. *)
Fixpoint q_size_loop (fuel : nat) (head n : addr) (count : Z) : M Z :=
  match fuel with
  | 0 => out_of_fuel
  | S fuel =>
      if decide (n = head) then ret count
      else if decide (count = INT_MAX) then fault
      else
        let* n' := load_next n in
        q_size_loop fuel head n' (count + 1)%Z
  end.

Definition q_size (fuel : nat) (head : addr) : M Z :=
  if decide (head = NULL) then ret 0%Z
  else
    let* e := list_empty head in
    if e then ret 0%Z
    else
      let* n := load_next head in
      q_size_loop fuel head n 0%Z.

(** [while (forward != backward && forward->next != backward)] *)
Fixpoint q_get_mid_loop (fuel : nat) (forward backward : addr) : M addr :=
  match fuel with
  | 0 => out_of_fuel
  | S fuel =>
      if decide (forward = backward) then ret forward
      else
        let* fn := load_next forward in
        if decide (fn = backward) then ret forward
        else
          let* forward' := load_next forward in
          let* backward' := load_prev backward in
          q_get_mid_loop fuel forward' backward'
  end.

Definition q_get_mid (fuel : nat) (head : addr) : M addr :=
  let* s := list_is_singular head in
  if s then load_next head
  else
    let* forward := load_next head in
    let* backward := load_prev head in
    q_get_mid_loop fuel forward backward.

Definition q_delete_mid (fuel : nat) (head : addr) : M bool :=
  if decide (head = NULL) then ret false
  else
    let* e := list_empty head in
    if e then ret false
    else
      let* mid := q_get_mid fuel head in
      list_del mid;;
      q_release_element mid;;
      ret true.

(** [list_for_each_entry_safe (e, s, head, list)] with the body of
    [q_delete_dup]. *)
Fixpoint q_delete_dup_loop (fuel : nat) (head e s : addr) : M unit :=
  match fuel with
  | 0 => out_of_fuel
  | S fuel =>
      if decide (e = head) then ret tt
      else
        (if decide (s = head) then ret tt
         else
           let* ev := load_string e in
           let* sv := load_string s in
           if decide (strcmp ev sv = 0%Z)
           then list_del e;; q_release_element e
           else ret tt);;
        let* s' := load_next s in
        q_delete_dup_loop fuel head s s'
  end.

Definition q_delete_dup (fuel : nat) (head : addr) : M bool :=
  if decide (head = NULL) then ret false
  else
    let* e := load_next head in
    let* s := load_next e in
    q_delete_dup_loop fuel head e s;;
    ret true.

Fixpoint q_swap_loop (fuel : nat) (head node1 node2 : addr) : M unit :=
  match fuel with
  | 0 => out_of_fuel
  | S fuel =>
      if decide (node1 ≠ head ∧ node2 ≠ head) then
        let* p := load_prev node1 in
        store_next p node2;;
        let* p := load_prev node1 in
        store_prev node2 p;;
        let* n := load_next node2 in
        store_prev n node1;;
        let* n := load_next node2 in
        store_next node1 n;;
        store_next node2 node1;;
        store_prev node1 node2;;
        let* node1' := load_next node1 in
        let* node2' := load_next node1' in
        q_swap_loop fuel head node1' node2'
      else ret tt
  end.

Definition q_swap (fuel : nat) (head : addr) : M unit :=
  let* node1 := load_next head in
  let* node2 := load_next node1 in
  q_swap_loop fuel head node1 node2.

(** [list_for_each_safe (n, s, head)] with the body of [q_reverse]. *)
Fixpoint q_reverse_loop (fuel : nat) (head n s : addr) : M unit :=
  match fuel with
  | 0 => out_of_fuel
  | S fuel =>
      if decide (n = head) then ret tt
      else
        let* p := load_prev n in
        store_next n p;;
        store_prev n s;;
        let* s' := load_next s in
        q_reverse_loop fuel head s s'
  end.

Definition q_reverse (fuel : nat) (head : addr) : M unit :=
  if decide (head = NULL) then ret tt
  else
    let* e := list_empty head in
    if e then ret tt
    else
      let* n := load_next head in
      let* s := load_next n in
      q_reverse_loop fuel head n s;;
      let* tmp := load_next head in
      let* p := load_prev head in
      store_next head p;;
      store_prev head tmp.

(** The inner [while (node1 != H1)] of [merge]; it gives the new [node1]. *)
Fixpoint merge_scan (fuel : nat) (H1 node1 node2 : addr) : M addr :=
  match fuel with
  | 0 => out_of_fuel
  | S fuel =>
      if decide (node1 = H1) then ret node1
      else
        let* v1 := load_string node1 in
        let* v2 := load_string node2 in
        if decide (strcmp v1 v2 < 0)%Z
        then let* node1' := load_next node1 in merge_scan fuel H1 node1' node2
        else ret node1
  end.

(** The outer [for (; !list_empty(H2); node2 = next_node)]. *)
Fixpoint merge_loop (fuel : nat) (H1 H2 node1 node2 next_node : addr) : M unit :=
  match fuel with
  | 0 => out_of_fuel
  | S fuel =>
      let* e := list_empty H2 in
      if e then ret tt
      else
        let* node1 := merge_scan (S fuel) H1 node1 node2 in
        if decide (node1 = H1) then
          list_splice_tail_init H2 H1;;
          merge_loop fuel H1 H2 node1 next_node next_node
        else
          let* next_node := load_next node2 in
          list_del_init node2;;
          list_add_tail node2 node1;;
          merge_loop fuel H1 H2 node1 next_node next_node
  end.

(** [next_node] is not initialised at its declaration; it stands as [NULL]
    until the first assignment. *)
Definition merge (fuel : nat) (H1 H2 : addr) : M unit :=
  let* node1 := load_next H1 in
  let* node2 := load_next H2 in
  merge_loop fuel H1 H2 node1 node2 NULL.

(** [LIST_HEAD(head2)]: a local [struct list_head] initialised to point to
    itself; it goes out of scope when the function returns. *)
Definition LIST_HEAD : M addr :=
  let* h := malloc true (Sentinel junk) in
  INIT_LIST_HEAD h;;
  ret h.

(** [list.h] is not part of the sources: [list_cut_position] is an
    argument of [q_sort]. *)
Fixpoint q_sort (list_cut_position : addr → addr → addr → M unit)
    (fuel : nat) (head : addr) : M unit :=
  match fuel with
  | 0 => out_of_fuel
  | S fuel =>
      if decide (head = NULL) then ret tt
      else
        let* e := list_empty head in
        if e then ret tt
        else
          let* s := list_is_singular head in
          if s then ret tt
          else
            let* head2 := LIST_HEAD in
            let* mid := q_get_mid (S fuel) head in
            list_cut_position head2 head mid;;
            q_sort list_cut_position fuel head;;
            q_sort list_cut_position fuel head2;;
            merge (S fuel) head head2;;
            free head2 (* [head2] goes out of scope *)
  end.

(** * The abstract view

    What the proofs say about a heap: the chain of nodes at a sentinel, the
    queue of elements with their strings, the frame of the primitives, and
    the list functions the operations are compared with. *)

(** [a->next] is [b] and [b->prev] is [a]. *)
Definition edge (m : gmap nat block) (a b : nat) : Prop :=
  get_next m a = Some b ∧ get_prev m b = Some a.

(** A path: each node is linked both ways to the node after it. *)
Fixpoint linked (m : gmap nat block) (xs : list nat) : Prop :=
  match xs with
  | [] => True
  | a :: tl => match tl with
               | [] => True
               | b :: _ => edge m a b ∧ linked m tl
               end
  end.

(** A cycle of distinct nodes: the path through [r] and back to its first
    node. *)
Definition ring (m : gmap nat block) (r : list nat) : Prop :=
  NoDup r ∧ linked m (r ++ take 1 r).

(** The list at the sentinel [h] holds the nodes [l], from [h->next] to
    [h->prev]. *)
Definition chain (m : gmap nat block) (h : nat) (l : list nat) : Prop :=
  ring m (h :: l).

(** The queue at [h] holds the elements [vs]: the address of each and the
    string its [value] points to. *)
Definition queue (m : gmap nat block) (h : nat) (vs : list (nat * string)) : Prop :=
  chain m h vs.*1 ∧ Forall (λ xv, payload m xv.1 = Some xv.2) vs.

(** There is a [struct list_head] at [p]. *)
Definition live (m : gmap nat block) (p : nat) : Prop := is_Some (get_links m p).

(** A block with its links blanked, and two heaps that differ in the links
    of the nodes of [S] at most. *)
Definition strip (b : block) : block := with_links (λ _, junk) b.

Definition relinked (S : list nat) (m m' : gmap nat block) : Prop :=
  (∀ q, q ∉ S → m' !! q = m !! q) ∧ (∀ q, strip <$> m' !! q = strip <$> m !! q).

(** What a split step does with the list at [head], the node [x] in it and
    the empty list at [head2]: as section 4.8 has it, [head2] takes the
    nodes from [x] on and [head] keeps those before [x]. *)
Definition cuts_before (cut : nat → nat → nat → M unit) : Prop :=
  ∀ m head head2 A x B,
    chain m head (A ++ x :: B) → chain m head2 [] → head2 ∉ head :: A ++ x :: B →
    ∃ m', cut head2 head x m = Ok (tt, m') ∧
          chain m' head A ∧ chain m' head2 (x :: B) ∧
          relinked (head2 :: head :: A ++ x :: B) m m'.

(** As the kernel's [list.h] has it, [head2] takes the nodes up to and
    including [x] and [head] keeps those after [x]. *)
Definition cuts_through (cut : nat → nat → nat → M unit) : Prop :=
  ∀ m head head2 A x B,
    chain m head (A ++ x :: B) → chain m head2 [] → head2 ∉ head :: A ++ x :: B →
    ∃ m', cut head2 head x m = Ok (tt, m') ∧
          chain m' head2 (A ++ [x]) ∧ chain m' head B ∧
          relinked (head2 :: head :: A ++ x :: B) m m'.

(** What the loop of [q_delete_dup] leaves: a node goes when the node after
    it holds an equal string. *)
Fixpoint dedup (vs : list (nat * string)) : list (nat * string) :=
  match vs with
  | [] => []
  | x :: rest =>
      match rest with
      | [] => [x]
      | y :: _ => if decide (strcmp x.2 y.2 = 0%Z) then dedup rest else x :: dedup rest
      end
  end.

(** Section 4.6 on lists: first with second, third with fourth, and an odd
    last one stays. *)
Fixpoint swap_pairs {A} (l : list A) : list A :=
  match l with
  | a :: b :: rest => b :: a :: swap_pairs rest
  | _ => l
  end.

(** [m] is [m0] with [next] and [prev] exchanged in the nodes of [D]. *)
Definition flipped (D : list nat) (m0 m : gmap nat block) : Prop :=
  (∀ x, x ∈ D → get_next m x = get_prev m0 x ∧ get_prev m x = get_next m0 x) ∧
  relinked D m0 m.

(** The inner scan of [merge] against the string [w] of the second list's
    current node: the nodes of the first list it passes, and those left. *)
Fixpoint scan (w : string) (l1 : list (nat * string)) :
    list (nat * string) * list (nat * string) :=
  match l1 with
  | [] => ([], [])
  | a :: l1' =>
      if decide (strcmp a.2 w < 0)%Z
      then let '(passed, rest) := scan w l1' in (a :: passed, rest)
      else ([], l1)
  end.

(** Section 4.9 on lists: scan the first list while its nodes compare
    strictly less than the head of the second; at the end of the first list
    splice what is left of the second, otherwise put the head of the second
    before the node the scan stopped at and go on from there. *)
Fixpoint merge_lists (l1 l2 : list (nat * string)) {struct l2} : list (nat * string) :=
  match l2 with
  | [] => l1
  | b :: l2' =>
      let '(passed, rest) := scan b.2 l1 in
      match rest with
      | [] => passed ++ l2
      | _ :: _ => passed ++ b :: merge_lists rest l2'
      end
  end.

(** The buffer after [strncpy (sp, v, bufsize - 1)] and
    [sp[bufsize - 1] = 0]. *)
Definition copied (v : string) (bufsize : Z) (bs : list ascii) : list ascii :=
  <[Z.to_nat (bufsize - 1) := NUL]>
    (strncpy_bytes v (Z.to_nat (bufsize - 1)) ++ drop (Z.to_nat (bufsize - 1)) bs).

(** [s1] is not after [s2], and the same on the strings of two elements. *)
Definition le_str (s1 s2 : string) : Prop := (strcmp s1 s2 ≤ 0)%Z.

Definition le_elem (a b : nat * string) : Prop := le_str a.2 b.2.

(** Every result of [c] is a result of [c']. *)
Definition le_res {A} (c c' : M A) : Prop := ∀ m r, c m = Ok r → c' m = Ok r.

(** The calls a driver makes on one queue; each carries the arguments the
    call takes besides the handle, and the fuel of its loops. *)
Inductive op :=
| InsertHead (ok_elem ok_str : bool) (s : string)
| InsertTail (ok_elem ok_str : bool) (s : string)
| RemoveHead (sp : nat) (bufsize : Z)
| RemoveTail (sp : nat) (bufsize : Z)
| DeleteMid (fuel : nat)
| DeleteDup (fuel : nat)
| Swap (fuel : nat)
| Reverse (fuel : nat)
| Sort (fuel : nat).

(** One call, its result dropped; [cut] is the [list_cut_position] that
    [q_sort] is run with. *)
Definition exec (cut : nat → nat → nat → M unit) (head : nat) (o : op) : M unit :=
  match o with
  | InsertHead ok_elem ok_str s => q_insert_head ok_elem ok_str head s;; ret tt
  | InsertTail ok_elem ok_str s => q_insert_tail ok_elem ok_str head s;; ret tt
  | RemoveHead sp bufsize => q_remove_head head sp bufsize;; ret tt
  | RemoveTail sp bufsize => q_remove_tail head sp bufsize;; ret tt
  | DeleteMid fuel => q_delete_mid fuel head;; ret tt
  | DeleteDup fuel => q_delete_dup fuel head;; ret tt
  | Swap fuel => q_swap fuel head
  | Reverse fuel => q_reverse fuel head
  | Sort fuel => q_sort cut fuel head
  end.

Fixpoint run (cut : nat → nat → nat → M unit) (head : nat) (ops : list op) : M unit :=
  match ops with
  | [] => ret tt
  | o :: ops => exec cut head o;; run cut head ops
  end.

(** [k] steps along a link. *)
Fixpoint follow (link : nat → option nat) (k : nat) (p : nat) : option nat :=
  match k with
  | 0 => Some p
  | S k => link p ≫= follow link k
  end.

(** The maximal runs of adjacent nodes whose strings compare equal. *)
Fixpoint runs (vs : list (nat * string)) : list (list (nat * string)) :=
  match vs with
  | [] => []
  | x :: rest =>
      match runs rest with
      | (y :: run) :: others =>
          if decide (strcmp x.2 y.2 = 0%Z) then (x :: y :: run) :: others
          else [x] :: (y :: run) :: others
      | _ => [[x]]
      end
  end.

(** The queue at 1 holds "b" then "a" in the nodes 2 and 3; 4 is an empty
    list of its own. *)
Definition heap_ba : gmap nat block :=
  list_to_map
    [(1, Sentinel {| next := 2; prev := 3 |});
     (2, Element (Some "b"%string) {| next := 3; prev := 1 |});
     (3, Element (Some "a"%string) {| next := 1; prev := 2 |});
     (4, Sentinel {| next := 4; prev := 4 |})].

(** The queue at 1 holds "c", "a", "b" in the nodes 2, 3, 4. *)
Definition heap_cab : gmap nat block :=
  list_to_map
    [(1, Sentinel {| next := 2; prev := 4 |});
     (2, Element (Some "c"%string) {| next := 3; prev := 1 |});
     (3, Element (Some "a"%string) {| next := 4; prev := 2 |});
     (4, Element (Some "b"%string) {| next := 1; prev := 3 |})].

(** The queue at 1 holds "a", "b", "c" in the nodes 2, 3, 4; 5 is an empty
    list of its own. *)
Definition heap_abc : gmap nat block :=
  list_to_map
    [(1, Sentinel {| next := 2; prev := 4 |});
     (2, Element (Some "a"%string) {| next := 3; prev := 1 |});
     (3, Element (Some "b"%string) {| next := 4; prev := 2 |});
     (4, Element (Some "c"%string) {| next := 1; prev := 3 |});
     (5, Sentinel {| next := 5; prev := 5 |})].

(** The queue at 1 holds "a", "a", "b" in the nodes 2, 3, 4. *)
Definition heap_aab : gmap nat block :=
  list_to_map
    [(1, Sentinel {| next := 2; prev := 4 |});
     (2, Element (Some "a"%string) {| next := 3; prev := 1 |});
     (3, Element (Some "a"%string) {| next := 4; prev := 2 |});
     (4, Element (Some "b"%string) {| next := 1; prev := 3 |})].

(** The queue at 1 holds "a", "c" in the nodes 2, 3 and the queue at 4
    holds "b", "c" in the nodes 5, 6. *)
Definition heap_two_queues : gmap nat block :=
  list_to_map
    [(1, Sentinel {| next := 2; prev := 3 |});
     (2, Element (Some "a"%string) {| next := 3; prev := 1 |});
     (3, Element (Some "c"%string) {| next := 1; prev := 2 |});
     (4, Sentinel {| next := 5; prev := 6 |});
     (5, Element (Some "b"%string) {| next := 6; prev := 4 |});
     (6, Element (Some "c"%string) {| next := 4; prev := 5 |})].

(** The queue at 1 holds "hello" then "b" in the nodes 2 and 3, and 4 is a
    buffer of four bytes. *)
Definition heap_buffer : gmap nat block :=
  list_to_map
    [(1, Sentinel {| next := 2; prev := 3 |});
     (2, Element (Some "hello"%string) {| next := 3; prev := 1 |});
     (3, Element (Some "b"%string) {| next := 1; prev := 2 |});
     (4, Buffer ["x"; "x"; "x"; "x"]%char)].

(** The caller's buffer: none, or [bufsize] bytes or more at [sp], with
    [bufsize] a [size_t] of at least one (the terminator has to fit). *)
Definition buffer_for (m : gmap nat block) (sp : nat) (bufsize : Z) : Prop :=
  sp = NULL ∨
  sp ≠ NULL ∧
  ∃ bs, m !! sp = Some (Buffer bs) ∧ (1 ≤ bufsize ≤ SIZE_MAX)%Z ∧
        (bufsize ≤ Z.of_nat (length bs))%Z.


(** The queue at 1 holds "b", "a", "b" in the nodes 2, 3, 4. *)
Definition heap_bab : gmap nat block :=
  list_to_map
    [(1, Sentinel {| next := 2; prev := 4 |});
     (2, Element (Some "b"%string) {| next := 3; prev := 1 |});
     (3, Element (Some "a"%string) {| next := 4; prev := 2 |});
     (4, Element (Some "b"%string) {| next := 1; prev := 3 |})].

(** The list [q_sort] leaves: a list of two or more elements is split after
    index [(n - 1) / 2], the part after it and the part up to it are sorted,
    and the second is merged into the first by [merge]. *)
Fixpoint sort_list (fuel : nat) (vs : list (nat * string)) : list (nat * string) :=
  match fuel with
  | 0 => vs
  | S fuel =>
      if decide (length vs ≤ 1) then vs
      else
        let k := (length vs - 1) / 2 in
        merge_lists (sort_list fuel (drop (S k) vs)) (sort_list fuel (take (S k) vs))
  end.

(** The string of [a] is strictly before the string of [b]. *)
Definition lt_str (s1 s2 : string) : Prop := (strcmp s1 s2 < 0)%Z.



(** What a call needs: loops are given fuel [F] or more, and a removal is
    given no buffer, or one of the heap [m0] that has [bufsize] bytes. *)
Definition op_ok (F : nat) (m0 : gmap nat block) (o : op) : Prop :=
  match o with
  | InsertHead _ _ _ | InsertTail _ _ _ => True
  | RemoveHead sp bufsize | RemoveTail sp bufsize => buffer_for m0 sp bufsize
  | DeleteMid fuel | DeleteDup fuel | Swap fuel | Reverse fuel | Sort fuel => F ≤ fuel
  end.

(** Every buffer of [m0] is a buffer of [m], of the same length. *)
Definition buffers_kept (m0 m : gmap nat block) : Prop :=
  ∀ sp bs, m0 !! sp = Some (Buffer bs) →
           ∃ bs', m !! sp = Some (Buffer bs') ∧ length bs' = length bs.

(** * Lemmas *)

(** ** Fields after a store *)

Lemma get_links_set_next (m : gmap nat block) p v q :
  get_links (set_next p v m) q =
  if decide (q = p) then (λ l, {| next := v; prev := prev l |}) <$> get_links m q
  else get_links m q.
Proof.
  unfold get_links, set_next. destruct (decide (q = NULL)) as [->|Hq].
  - by case_decide.
  - case_decide as Hp.
    + subst. rewrite lookup_alter_eq. by destruct (m !! p) as [[]|].
    + by rewrite lookup_alter_ne.
Qed.

Lemma get_links_set_prev (m : gmap nat block) p v q :
  get_links (set_prev p v m) q =
  if decide (q = p) then (λ l, {| next := next l; prev := v |}) <$> get_links m q
  else get_links m q.
Proof.
  unfold get_links, set_prev. destruct (decide (q = NULL)) as [->|Hq].
  - by case_decide.
  - case_decide as Hp.
    + subst. rewrite lookup_alter_eq. by destruct (m !! p) as [[]|].
    + by rewrite lookup_alter_ne.
Qed.

Lemma get_next_set_next (m : gmap nat block) p v q :
  get_next (set_next p v m) q =
  if decide (q = p) then (λ _, v) <$> get_next m q else get_next m q.
Proof.
  unfold get_next. rewrite get_links_set_next. case_decide; [|done].
  by destruct (get_links m q).
Qed.

Lemma get_prev_set_next (m : gmap nat block) p v q :
  get_prev (set_next p v m) q = get_prev m q.
Proof.
  unfold get_prev. rewrite get_links_set_next. case_decide; [|done].
  by destruct (get_links m q).
Qed.

Lemma get_prev_set_prev (m : gmap nat block) p v q :
  get_prev (set_prev p v m) q =
  if decide (q = p) then (λ _, v) <$> get_prev m q else get_prev m q.
Proof.
  unfold get_prev. rewrite get_links_set_prev. case_decide; [|done].
  by destruct (get_links m q).
Qed.

Lemma get_next_set_prev (m : gmap nat block) p v q :
  get_next (set_prev p v m) q = get_next m q.
Proof.
  unfold get_next. rewrite get_links_set_prev. case_decide; [|done].
  by destruct (get_links m q).
Qed.

Lemma payload_set_next (m : gmap nat block) p v q :
  payload (set_next p v m) q = payload m q.
Proof.
  unfold payload, set_next. case_decide; [done|].
  destruct (decide (q = p)) as [->|].
  - rewrite lookup_alter_eq. by destruct (m !! p) as [[? | [] ? | ?]|].
  - by rewrite lookup_alter_ne.
Qed.

Lemma payload_set_prev (m : gmap nat block) p v q :
  payload (set_prev p v m) q = payload m q.
Proof.
  unfold payload, set_prev. case_decide; [done|].
  destruct (decide (q = p)) as [->|].
  - rewrite lookup_alter_eq. by destruct (m !! p) as [[? | [] ? | ?]|].
  - by rewrite lookup_alter_ne.
Qed.

(** ** Chains *)

Lemma linked_app m xs y ys :
  linked m (xs ++ y :: ys) ↔ linked m (xs ++ [y]) ∧ linked m (y :: ys).
Proof.
  induction xs as [|a xs IH]; simpl.
  - tauto.
  - destruct xs as [|b xs]; simpl in *.
    + destruct ys; tauto.
    + tauto.
Qed.

Lemma linked_lookup m xs i a b :
  linked m xs → xs !! i = Some a → xs !! S i = Some b → edge m a b.
Proof.
  revert i. induction xs as [|x xs IH]; intros i Hl Ha Hb; [done|].
  destruct xs as [|y xs]; [done|]. destruct Hl as [He Hl].
  destruct i as [|i]; simpl in *.
  - by simplify_eq.
  - eauto.
Qed.

Lemma linked_intro m xs :
  (∀ i a b, xs !! i = Some a → xs !! S i = Some b → edge m a b) → linked m xs.
Proof.
  induction xs as [|x xs IH]; intros H; [done|].
  destruct xs as [|y xs]; [done|]. split.
  - by apply (H 0).
  - apply IH. intros i a b Ha Hb. by apply (H (S i)).
Qed.

(** A path only reads [next] of its nodes but the last and [prev] of its
    nodes but the first. *)
Lemma linked_frame m m' xs :
  linked m xs →
  (∀ a, a ∈ removelast xs → get_next m' a = get_next m a) →
  (∀ b, b ∈ tail xs → get_prev m' b = get_prev m b) →
  linked m' xs.
Proof.
  induction xs as [|x xs IH]; intros Hl Hn Hp; [done|].
  destruct xs as [|y xs]; [done|]. destruct Hl as [[He1 He2] Hl]. split.
  - split.
    + rewrite Hn; [done|]. simpl. left.
    + rewrite Hp; [done|]. simpl. left.
  - apply IH; [done| |].
    + intros a Ha. apply Hn. simpl. right. done.
    + intros b Hb. apply Hp. simpl in *. by right.
Qed.

(** ** Running the primitives *)

Lemma bind_ok {A B} (c : M A) (k : A → M B) m a m' :
  c m = Ok (a, m') → bind c k m = k a m'.
Proof. unfold bind. by intros ->. Qed.

Lemma load_next_ok m p v : get_next m p = Some v → load_next p m = Ok (v, m).
Proof. unfold load_next. by intros ->. Qed.
Lemma load_prev_ok m p v : get_prev m p = Some v → load_prev p m = Ok (v, m).
Proof. unfold load_prev. by intros ->. Qed.
Lemma store_next_ok m p v : live m p → store_next p v m = Ok (tt, set_next p v m).
Proof. unfold store_next. by intros [l ->]. Qed.
Lemma store_prev_ok m p v : live m p → store_prev p v m = Ok (tt, set_prev p v m).
Proof. unfold store_prev. by intros [l ->]. Qed.

Lemma live_next m p v : get_next m p = Some v → live m p.
Proof. unfold get_next, live. destruct (get_links m p); naive_solver. Qed.
Lemma live_prev m p v : get_prev m p = Some v → live m p.
Proof. unfold get_prev, live. destruct (get_links m p); naive_solver. Qed.
Lemma live_set_next m p v q : live (set_next p v m) q ↔ live m q.
Proof.
  unfold live. rewrite get_links_set_next. case_decide; [|done].
  rewrite fmap_is_Some. done.
Qed.
Lemma live_set_prev m p v q : live (set_prev p v m) q ↔ live m q.
Proof.
  unfold live. rewrite get_links_set_prev. case_decide; [|done].
  rewrite fmap_is_Some. done.
Qed.
Lemma live_get_next m p : live m p → is_Some (get_next m p).
Proof. unfold live, get_next. intros [l ->]. by eexists. Qed.
Lemma live_get_prev m p : live m p → is_Some (get_prev m p).
Proof. unfold live, get_prev. intros [l ->]. by eexists. Qed.

Lemma get_next_set_next_eq m p v : live m p → get_next (set_next p v m) p = Some v.
Proof.
  intros [w Hw]%live_get_next. rewrite get_next_set_next, decide_True by done.
  by rewrite Hw.
Qed.
Lemma get_next_set_next_ne m p v q : q ≠ p → get_next (set_next p v m) q = get_next m q.
Proof. intros. by rewrite get_next_set_next, decide_False. Qed.
Lemma get_prev_set_prev_eq m p v : live m p → get_prev (set_prev p v m) p = Some v.
Proof.
  intros [w Hw]%live_get_prev. rewrite get_prev_set_prev, decide_True by done.
  by rewrite Hw.
Qed.
Lemma get_prev_set_prev_ne m p v q : q ≠ p → get_prev (set_prev p v m) q = get_prev m q.
Proof. intros. by rewrite get_prev_set_prev, decide_False. Qed.

(** ** The frame of the list primitives: they rewrite link fields only *)

Lemma strip_with_links f b : strip (with_links f b) = strip b.
Proof. by destruct b. Qed.

Lemma relinked_refl S m : relinked S m m.
Proof. by split. Qed.

Lemma relinked_trans S m1 m2 m3 :
  relinked S m1 m2 → relinked S m2 m3 → relinked S m1 m3.
Proof.
  intros [H1 H2] [H3 H4]. split; intros q.
  - intros Hq. by rewrite H3, H1.
  - by rewrite H4, H2.
Qed.

Lemma relinked_weaken S S' m m' : S ⊆ S' → relinked S m m' → relinked S' m m'.
Proof. intros HS [H1 H2]. split; [|done]. intros q Hq. apply H1. set_solver. Qed.

Lemma relinked_set_next S m p v : p ∈ S → relinked S m (set_next p v m).
Proof.
  intros Hp. split; intros q; unfold set_next.
  - intros Hq. rewrite lookup_alter_ne; [done|]. set_solver.
  - destruct (decide (q = p)) as [->|]; [|by rewrite lookup_alter_ne].
    rewrite lookup_alter_eq. destruct (m !! p); [|done]. simpl.
    by rewrite strip_with_links.
Qed.

Lemma relinked_set_prev S m p v : p ∈ S → relinked S m (set_prev p v m).
Proof.
  intros Hp. split; intros q; unfold set_prev.
  - intros Hq. rewrite lookup_alter_ne; [done|]. set_solver.
  - destruct (decide (q = p)) as [->|]; [|by rewrite lookup_alter_ne].
    rewrite lookup_alter_eq. destruct (m !! p); [|done]. simpl.
    by rewrite strip_with_links.
Qed.

Lemma payload_strip m q :
  payload m q = if decide (q = NULL) then None else
    match strip <$> m !! q with Some (Element (Some s) _) => Some s | _ => None end.
Proof. unfold payload. case_decide; [done|]. by destruct (m !! q) as [[? | [] ? | ?]|]. Qed.

Lemma relinked_payload S m m' q : relinked S m m' → payload m' q = payload m q.
Proof. intros [_ H]. by rewrite !payload_strip, H. Qed.

Lemma live_strip m q :
  live m q ↔ q ≠ NULL ∧ match strip <$> m !! q with Some (Buffer _) | None => False | _ => True end.
Proof.
  unfold live, get_links. case_decide.
  - split; [by intros []|]. by intros [].
  - destruct (m !! q) as [[]|]; simpl; split; try done; try (by intros [? ?]); try (by intros [_ []]); by eexists.
Qed.

Lemma relinked_live S m m' q : relinked S m m' → live m' q ↔ live m q.
Proof. intros [_ H]. by rewrite !live_strip, H. Qed.

Lemma relinked_dom S m m' : relinked S m m' → dom m' = dom m.
Proof.
  intros [_ H]. apply set_eq. intros q. rewrite !elem_of_dom.
  specialize (H q). destruct (m' !! q), (m !! q); naive_solver.
Qed.

Lemma relinked_get_next S m m' q : relinked S m m' → q ∉ S → get_next m' q = get_next m q.
Proof. intros [H _] Hq. unfold get_next, get_links. by rewrite H. Qed.
Lemma relinked_get_prev S m m' q : relinked S m m' → q ∉ S → get_prev m' q = get_prev m q.
Proof. intros [H _] Hq. unfold get_prev, get_links. by rewrite H. Qed.

Lemma elem_of_removelast (a : nat) xs : a ∈ removelast xs → a ∈ xs.
Proof.
  induction xs as [|x xs IH]; [done|]. destruct xs as [|y xs]; simpl in *.
  - by intros ?%elem_of_nil.
  - intros [->|?]%elem_of_cons; [left|right; auto].
Qed.

Lemma elem_of_tail (a : nat) xs : a ∈ tail xs → a ∈ xs.
Proof. destruct xs; simpl; [done|]. by right. Qed.

Lemma relinked_linked S m m' xs :
  relinked S m m' → (∀ x, x ∈ xs → x ∉ S) → linked m xs → linked m' xs.
Proof.
  intros Hr Hd Hl. apply (linked_frame m); [done| |].
  - intros a Ha%elem_of_removelast. eapply relinked_get_next; eauto.
  - intros a Ha%elem_of_tail. eapply relinked_get_prev; eauto.
Qed.

Lemma relinked_ring S m m' r :
  relinked S m m' → (∀ x, x ∈ r → x ∉ S) → ring m r → ring m' r.
Proof.
  intros Hr Hd [Hn Hl]. split; [done|]. eapply relinked_linked; [done| |done].
  intros x [?|(i & Hx & _)%elem_of_take]%elem_of_app; [auto|].
  apply Hd. by eapply list_elem_of_lookup_2.
Qed.

(** A ring is a path through its nodes closed by the edge from the last
    node back to the first. *)
Lemma last_cons (b a : nat) ys : List.last (b :: ys) a = List.last ys b.
Proof.
  revert a b. induction ys as [|c ys IH]; intros a b; [done|].
  change (List.last (b :: c :: ys) a) with (List.last (c :: ys) a).
  by rewrite !IH.
Qed.

Lemma linked_cons2 m a b xs : linked m (a :: b :: xs) ↔ edge m a b ∧ linked m (b :: xs).
Proof. done. Qed.

Lemma linked_snoc m ys z :
  linked m (ys ++ [z]) ↔
  linked m ys ∧ match ys with [] => True | y :: ys' => edge m (List.last ys' y) z end.
Proof.
  induction ys as [|a ys IH]; [simpl; tauto|].
  destruct ys as [|b ys]; [simpl; tauto|].
  change ((a :: b :: ys) ++ [z]) with (a :: b :: (ys ++ [z])).
  rewrite !linked_cons2. change (b :: ys ++ [z]) with ((b :: ys) ++ [z]).
  rewrite IH, last_cons. tauto.
Qed.

Lemma ring_iff m x r :
  ring m (x :: r) ↔ NoDup (x :: r) ∧ linked m (x :: r) ∧ edge m (List.last r x) x.
Proof.
  unfold ring. change (take 1 (x :: r)) with [x]. by rewrite linked_snoc.
Qed.

Lemma ring_rotate m A B : ring m (A ++ B) → ring m (B ++ A).
Proof.
  intros [Hn Hl]. split.
  { by rewrite (Permutation_app_comm B A). }
  destruct A as [|a A]; [by rewrite app_nil_r in *|].
  destruct B as [|b B]; [by rewrite app_nil_r in *|].
  change (take 1 ((a :: A) ++ b :: B)) with [a] in Hl.
  change (take 1 ((b :: B) ++ a :: A)) with [b].
  rewrite <-app_assoc in *.
  change ((b :: B) ++ [a]) with (b :: (B ++ [a])) in Hl.
  apply linked_app in Hl as [H1 H2].
  change ((a :: A) ++ [b]) with (a :: (A ++ [b])).
  apply linked_app. done.
Qed.

Lemma bind_load_next {B} m p v (k : nat → M B) :
  get_next m p = Some v → bind (load_next p) k m = k v m.
Proof. intros. by apply bind_ok, load_next_ok. Qed.
Lemma bind_load_prev {B} m p v (k : nat → M B) :
  get_prev m p = Some v → bind (load_prev p) k m = k v m.
Proof. intros. by apply bind_ok, load_prev_ok. Qed.
Lemma bind_store_next {B} m p v (k : unit → M B) :
  live m p → bind (store_next p v) k m = k tt (set_next p v m).
Proof. intros. by apply bind_ok, store_next_ok. Qed.
Lemma bind_store_prev {B} m p v (k : unit → M B) :
  live m p → bind (store_prev p v) k m = k tt (set_prev p v m).
Proof. intros. by apply bind_ok, store_prev_ok. Qed.

(** Fields of a heap reached by stores, read back. *)
Ltac fields :=
  repeat match goal with
         | H : live ?m ?p |- _ =>
             let H1 := fresh in let H2 := fresh in
             destruct (live_get_next _ _ H) as [? H1];
             destruct (live_get_prev _ _ H) as [? H2]; clear H
         end;
  repeat first
    [ rewrite get_next_set_next | rewrite get_prev_set_next
    | rewrite get_next_set_prev | rewrite get_prev_set_prev
    | rewrite live_set_next | rewrite live_set_prev ];
  repeat case_decide; simplify_eq; try done;
  repeat match goal with
         | H : get_next _ _ = Some _ |- _ => rewrite H
         | H : get_prev _ _ = Some _ |- _ => rewrite H
         end;
  try done; eauto using live_next, live_prev.

Lemma last_elem_of (x : nat) r : List.last r x ∈ x :: r.
Proof.
  revert x. induction r as [|y r IH]; intros x; [left|].
  right. rewrite last_cons. apply IH.
Qed.

Lemma removelast_not_last (x a : nat) r :
  NoDup (x :: r) → a ∈ removelast (x :: r) → a ≠ List.last r x.
Proof.
  revert x. induction r as [|y r IH]; intros x Hn Ha.
  - by apply elem_of_nil in Ha.
  - change (removelast (x :: y :: r)) with (x :: removelast (y :: r)) in Ha.
    rewrite last_cons. apply NoDup_cons in Hn as [Hx Hn].
    apply elem_of_cons in Ha as [->|Ha]; [|by apply IH].
    intros Heq. apply Hx. rewrite Heq. apply last_elem_of.
Qed.

Lemma list_add_tail_ring m x r new :
  ring m (x :: r) → new ∉ x :: r → live m new →
  ∃ m', list_add_tail new x m = Ok (tt, m') ∧ ring m' (x :: r ++ [new]) ∧
        relinked [new; x; List.last r x] m m'.
Proof.
  intros (Hn & Hl & [Hpx Hxp])%ring_iff Hnew Hlive.
  set (pv := List.last r x) in *.
  assert (new ≠ x) by (intros ->; apply Hnew; left).
  assert (new ≠ pv) by (intros ->; apply Hnew, last_elem_of).
  eexists. split; [|split].
  - unfold list_add_tail.
    rewrite (bind_load_prev _ _ pv) by done.
    rewrite bind_store_next by fields.
    rewrite bind_store_next by fields.
    rewrite bind_store_prev by fields.
    apply store_prev_ok. fields.
  - apply ring_iff. split; [|split].
    + rewrite app_comm_cons. apply NoDup_app. split; [done|]. split; [|apply NoDup_singleton].
      intros a Ha ->%list_elem_of_singleton. done.
    + rewrite app_comm_cons. apply linked_snoc. split.
      * apply (linked_frame m); [done| |].
        -- intros a Ha. assert (a ≠ pv) by (by apply removelast_not_last).
           assert (a ≠ new) by (intros ->; by apply Hnew, elem_of_removelast).
           fields.
        -- intros a Ha. assert (a ≠ new) by (intros ->; apply Hnew; by right).
           assert (a ≠ x) by (intros ->; by apply NoDup_cons in Hn as [? _]).
           fields.
      * split; fields.
    + rewrite last_last. split; fields.
  - eapply relinked_trans; [|apply relinked_set_prev; set_solver].
    eapply relinked_trans; [|apply relinked_set_prev; set_solver].
    eapply relinked_trans; [|apply relinked_set_next; set_solver].
    apply relinked_set_next. set_solver.
Qed.

Lemma ring_first m h r : ring m (h :: r) → edge m h (hd h r).
Proof.
  intros (Hn & Hl & He)%ring_iff. destruct r as [|nx r]; [done|]. by destruct Hl.
Qed.

Lemma last_elem_of_ne (d : nat) r : r ≠ [] → List.last r d ∈ r.
Proof. destruct r as [|y r]; [done|]. intros _. rewrite last_cons. apply last_elem_of. Qed.

Lemma last_default (d d' : nat) r : r ≠ [] → List.last r d = List.last r d'.
Proof. destruct r as [|y r]; [done|]. intros _. by rewrite !last_cons. Qed.

Lemma list_add_ring m h r new :
  ring m (h :: r) → new ∉ h :: r → live m new →
  ∃ m', list_add new h m = Ok (tt, m') ∧ ring m' (h :: new :: r) ∧
        relinked [new; h; hd h r] m m'.
Proof.
  intros Hring Hnew Hlive. pose proof (ring_first _ _ _ Hring) as [Hhn Hnh].
  apply ring_iff in Hring as (Hn & Hl & [Hph Hhp]).
  set (nx := hd h r) in *.
  assert (new ≠ h) by (intros ->; apply Hnew; left).
  assert (new ≠ nx).
  { intros ->. apply Hnew. subst nx. destruct r; [left|right; left]. }
  eexists. split; [|split].
  - unfold list_add.
    rewrite (bind_load_next _ _ nx) by done.
    rewrite bind_store_prev by fields.
    rewrite bind_store_next by fields.
    rewrite bind_store_prev by fields.
    apply store_next_ok. fields.
  - apply ring_iff. split; [|split].
    + apply NoDup_cons in Hn as [? ?]. apply NoDup_cons. split; [|apply NoDup_cons; split; [|done]].
      * intros [->|?]%elem_of_cons; done.
      * intros ?. apply Hnew. by right.
    + apply linked_cons2. split; [split; fields|].
      destruct r as [|n r]; [done|]. subst nx. simpl in *.
      apply linked_cons2. split; [split; fields|].
      destruct Hl as [_ Hl]. apply (linked_frame m); [done| |].
      * intros a Ha%elem_of_removelast.
        assert (a ≠ new) by (intros ->; apply Hnew; by right).
        assert (a ≠ h) by (intros ->; by apply NoDup_cons in Hn as [? _]).
        fields.
      * intros a Ha. simpl in Ha.
        assert (a ≠ new) by (intros ->; apply Hnew; by do 2 right).
        assert (a ≠ n).
        { intros ->. apply NoDup_cons in Hn as [_ Hn]. by apply NoDup_cons in Hn as [? _]. }
        fields.
    + rewrite last_cons. destruct r as [|n r].
      * subst nx. simpl in *. split; fields.
      * rewrite (last_default new h) by done.
        assert (List.last (n :: r) h ≠ new).
        { intros Heq. apply Hnew. rewrite <-Heq. apply last_elem_of. }
        assert (List.last (n :: r) h ≠ h).
        { intros Heq. apply NoDup_cons in Hn as [Hn _]. apply Hn. rewrite <-Heq at 1.
          by apply last_elem_of_ne. }
        subst nx. simpl in *.
        assert (h ≠ n) by (intros ->; apply NoDup_cons in Hn as [Hn _]; apply Hn; left).
        split; fields.
  - eapply relinked_trans; [|apply relinked_set_next; set_solver].
    eapply relinked_trans; [|apply relinked_set_prev; set_solver].
    eapply relinked_trans; [|apply relinked_set_next; set_solver].
    apply relinked_set_prev. set_solver.
Qed.

Lemma list_del_ring m x r :
  ring m (x :: r) → r ≠ [] →
  ∃ m', list_del x m = Ok (tt, m') ∧ ring m' r ∧ relinked r m m'.
Proof.
  intros Hring Hr. pose proof (ring_first _ _ _ Hring) as [Hxn Hnx].
  apply ring_iff in Hring as (Hn & Hl & [Hpx Hxp]).
  destruct r as [|nx r]; [done|]. simpl in Hxn, Hnx. rewrite last_cons in Hpx, Hxp.
  set (pv := List.last r nx) in *. destruct Hl as [_ Hl].
  apply NoDup_cons in Hn as [Hx Hn].
  eexists. split; [|split].
  - unfold list_del.
    rewrite (bind_load_next _ _ nx) by done.
    rewrite (bind_load_prev _ _ pv) by done.
    rewrite bind_store_prev by fields.
    apply store_next_ok. fields.
  - apply ring_iff. split; [done|]. split.
    + apply (linked_frame m); [done| |].
      * intros a Ha. assert (a ≠ pv) by (by apply removelast_not_last). fields.
      * intros a Ha. simpl in Ha.
        assert (a ≠ nx) by (intros ->; by apply NoDup_cons in Hn as [? _]). fields.
    + fold pv. split; fields.
  - eapply relinked_trans; [|apply relinked_set_next; apply last_elem_of].
    apply relinked_set_prev. left.
Qed.

Lemma INIT_LIST_HEAD_ring m x :
  live m x →
  ∃ m', INIT_LIST_HEAD x m = Ok (tt, m') ∧ ring m' [x] ∧ relinked [x] m m'.
Proof.
  intros Hlive. eexists. split; [|split].
  - unfold INIT_LIST_HEAD. rewrite bind_store_next by done.
    apply store_prev_ok. fields.
  - apply ring_iff. split; [apply NoDup_singleton|]. split; [done|]. simpl. split; fields.
  - eapply relinked_trans; [|apply relinked_set_prev; left].
    apply relinked_set_next. left.
Qed.

Lemma ring_live m r x : ring m r → x ∈ r → live m x.
Proof.
  intros [_ Hl] (i & Hi)%list_elem_of_lookup.
  assert (is_Some ((r ++ take 1 r) !! S i)) as [b Hb].
  { apply lookup_lt_is_Some. apply lookup_lt_Some in Hi. rewrite length_app.
    destruct r; simpl in *; lia. }
  eapply linked_lookup in Hl as [He _]; [by eapply live_next| |done].
  by apply lookup_app_l_Some.
Qed.

Lemma list_del_init_ring m x r :
  ring m (x :: r) → r ≠ [] →
  ∃ m', list_del_init x m = Ok (tt, m') ∧ ring m' r ∧ ring m' [x] ∧ relinked (x :: r) m m'.
Proof.
  intros Hring Hr. pose proof (ring_live _ _ x Hring ltac:(left)) as Hlive.
  destruct (list_del_ring _ _ _ Hring Hr) as (m1 & Hrun1 & Hring1 & Hrel1).
  destruct (INIT_LIST_HEAD_ring m1 x) as (m2 & Hrun2 & Hring2 & Hrel2).
  { by eapply relinked_live. }
  exists m2. split; [|split; [|split]].
  - unfold list_del_init. by rewrite (bind_ok _ _ _ _ _ Hrun1).
  - eapply relinked_ring; [done| |done].
    intros a Ha ->%list_elem_of_singleton. destruct Hring as [Hn _].
    by apply NoDup_cons in Hn as [? _].
  - done.
  - eapply relinked_trans; eapply relinked_weaken; [|done| |done]; set_solver.
Qed.

(** ** Chains: the local view at a node *)

Lemma last_app_cons (d h : nat) B A : List.last (B ++ h :: A) d = List.last A h.
Proof.
  revert d. induction B as [|b B IH]; intros d.
  - apply last_cons.
  - change ((b :: B) ++ h :: A) with (b :: (B ++ h :: A)). by rewrite last_cons.
Qed.

Lemma hd_app_cons (d h : nat) B A : hd d (B ++ h :: A) = hd h B.
Proof. by destruct B. Qed.

Lemma chain_head m h l :
  chain m h l → get_next m h = Some (hd h l) ∧ get_prev m h = Some (List.last l h).
Proof.
  intros Hc. pose proof (ring_first _ _ _ Hc) as [H1 _].
  apply ring_iff in Hc as (_ & _ & [_ H2]). done.
Qed.

Lemma chain_rotate m h A x B :
  chain m h (A ++ x :: B) ↔ ring m (x :: B ++ h :: A).
Proof.
  unfold chain. split; intros H.
  - rewrite app_comm_cons in H. by apply ring_rotate in H.
  - rewrite app_comm_cons. by apply (ring_rotate _ (x :: B) (h :: A)).
Qed.

Lemma chain_at m h A x B :
  chain m h (A ++ x :: B) →
  get_next m x = Some (hd h B) ∧ get_prev m x = Some (List.last A h).
Proof.
  intros Hc%chain_rotate.
  pose proof (ring_first _ _ _ Hc) as [H1 _].
  apply ring_iff in Hc as (_ & _ & [_ H2]).
  by rewrite hd_app_cons in H1; rewrite last_app_cons in H2.
Qed.

Lemma chain_NoDup m h l : chain m h l → NoDup (h :: l).
Proof. by intros [? _]. Qed.

Lemma chain_ne m h l x : chain m h l → x ∈ l → x ≠ h.
Proof. intros [[Hn _]%NoDup_cons _] Hx ->. done. Qed.

Lemma chain_live m h l x : chain m h l → x ∈ h :: l → live m x.
Proof. apply ring_live. Qed.

Lemma chain_nil_iff m h l : chain m h l → (hd h l = h ↔ l = []).
Proof.
  intros Hc. destruct l as [|x l]; [done|]. simpl. split; [|done].
  intros ->. exfalso. eapply chain_ne; [done| |done]. left.
Qed.

(** Unlinking and inserting anywhere in a chain. *)
Lemma chain_insert_before m h A x B new :
  chain m h (A ++ x :: B) → new ∉ h :: A ++ x :: B → live m new →
  ∃ m', list_add_tail new x m = Ok (tt, m') ∧ chain m' h (A ++ new :: x :: B) ∧
        relinked (new :: h :: A ++ x :: B) m m'.
Proof.
  intros Hc%chain_rotate Hnew Hlive.
  destruct (list_add_tail_ring m x (B ++ h :: A) new) as (m' & Hrun & Hring & Hrel);
    [done| |done|].
  { intros Hin. apply Hnew. set_solver. }
  exists m'. split; [done|]. split.
  - rewrite <-app_assoc in Hring.
    change (x :: B ++ (h :: A) ++ [new]) with ((x :: B) ++ (h :: A ++ [new])) in Hring.
    apply ring_rotate in Hring. unfold chain.
    by rewrite <-app_comm_cons, <-app_assoc in Hring.
  - eapply relinked_weaken; [|done].
    intros a. pose proof (last_elem_of x (B ++ h :: A)). set_solver.
Qed.

Lemma chain_push_back m h l new :
  chain m h l → new ∉ h :: l → live m new →
  ∃ m', list_add_tail new h m = Ok (tt, m') ∧ chain m' h (l ++ [new]) ∧
        relinked (new :: h :: l) m m'.
Proof.
  intros Hc Hnew Hlive.
  destruct (list_add_tail_ring m h l new) as (m' & Hrun & Hring & Hrel); [done..|].
  exists m'. split; [done|]. split; [done|].
  eapply relinked_weaken; [|done].
  intros a. pose proof (last_elem_of h l). set_solver.
Qed.

Lemma chain_push_front m h l new :
  chain m h l → new ∉ h :: l → live m new →
  ∃ m', list_add new h m = Ok (tt, m') ∧ chain m' h (new :: l) ∧
        relinked (new :: h :: l) m m'.
Proof.
  intros Hc Hnew Hlive.
  destruct (list_add_ring m h l new) as (m' & Hrun & Hring & Hrel); [done..|].
  exists m'. split; [done|]. split; [done|].
  eapply relinked_weaken; [|done].
  intros a. destruct l; set_solver.
Qed.

Lemma chain_unlink m h A x B :
  chain m h (A ++ x :: B) →
  ∃ m', list_del x m = Ok (tt, m') ∧ chain m' h (A ++ B) ∧
        relinked (h :: A ++ B) m m'.
Proof.
  intros Hc%chain_rotate.
  destruct (list_del_ring m x (B ++ h :: A)) as (m' & Hrun & Hring & Hrel);
    [done|by destruct B|].
  exists m'. split; [done|]. split.
  - apply (ring_rotate _ B (h :: A)) in Hring. done.
  - eapply relinked_weaken; [|done]. set_solver.
Qed.

Lemma chain_unlink_init m h A x B :
  chain m h (A ++ x :: B) →
  ∃ m', list_del_init x m = Ok (tt, m') ∧ chain m' h (A ++ B) ∧ ring m' [x] ∧
        relinked (h :: A ++ x :: B) m m'.
Proof.
  intros Hc%chain_rotate.
  destruct (list_del_init_ring m x (B ++ h :: A)) as (m' & Hrun & Hring & Hx & Hrel);
    [done|by destruct B|].
  exists m'. split; [done|]. split; [|split; [done|]].
  - apply (ring_rotate _ B (h :: A)) in Hring. done.
  - eapply relinked_weaken; [|done]. set_solver.
Qed.

(** ** [list_empty], [list_is_singular] *)

Lemma chain_lookup m h l i a b :
  chain m h l → (h :: l ++ [h]) !! i = Some a → (h :: l ++ [h]) !! S i = Some b →
  edge m a b.
Proof. intros [_ Hl]. by apply linked_lookup. Qed.

Lemma chain_lookup_next m h l i a :
  chain m h l → l !! i = Some a → get_next m a = Some (default h (l !! S i)).
Proof.
  intros Hc Ha. eapply (chain_lookup _ _ _ (S i) a (default h (l !! S i))) in Hc as [? _]; [done| |].
  - simpl. by apply lookup_app_l_Some.
  - simpl. destruct (l !! S i) as [b|] eqn:Hb; simpl.
    + by apply lookup_app_l_Some.
    + apply lookup_ge_None in Hb. apply lookup_lt_Some in Ha as Hlt.
      rewrite lookup_app_r by done. by replace (S i - length l) with 0 by lia.
Qed.

Lemma chain_lookup_prev m h l i a :
  chain m h l → l !! S i = Some a → get_prev m a = l !! i.
Proof.
  intros Hc Ha.
  assert (is_Some (l !! i)) as [b Hb].
  { apply lookup_lt_is_Some. apply lookup_lt_Some in Ha. lia. }
  eapply (chain_lookup _ _ _ (S i) b a) in Hc as [_ ?].
  - by rewrite Hb.
  - simpl. by apply lookup_app_l_Some.
  - simpl. by apply lookup_app_l_Some.
Qed.

Lemma chain_lookup_inj m h l i j a :
  chain m h l → l !! i = Some a → l !! j = Some a → i = j.
Proof. intros [[_ Hn]%NoDup_cons _]. by apply NoDup_lookup. Qed.

Lemma list_empty_chain {B} m h l (k : bool → M B) :
  chain m h l → bind (list_empty h) k m = k (bool_decide (l = [])) m.
Proof.
  intros Hc. unfold list_empty. destruct (chain_head _ _ _ Hc) as [Hn _].
  unfold bind at 1. rewrite (bind_load_next _ _ _ _ Hn). unfold ret. f_equal.
  apply bool_decide_ext. by eapply chain_nil_iff.
Qed.

Lemma last_hd_single (h : nat) l : NoDup (h :: l) → List.last l h = hd h l → length l ≤ 1.
Proof.
  destruct l as [|a [|b l]]; simpl; [lia..|]. intros Hn Heq. exfalso.
  apply NoDup_cons in Hn as [_ Hn]. apply NoDup_cons in Hn as [Hn _]. apply Hn.
  rewrite <-Heq. change (List.last (b :: l) h ∈ b :: l). by apply last_elem_of_ne.
Qed.

Lemma list_is_singular_chain {B} m h l (k : bool → M B) :
  chain m h l → bind (list_is_singular h) k m = k (bool_decide (length l = 1)) m.
Proof.
  intros Hc. unfold list_is_singular. destruct (chain_head _ _ _ Hc) as [Hn Hp].
  unfold bind at 1. rewrite (list_empty_chain _ _ _ _ Hc).
  case_bool_decide as Hl.
  - subst. done.
  - rewrite (bind_load_prev _ _ _ _ Hp), (bind_load_next _ _ _ _ Hn). unfold ret. f_equal.
    apply bool_decide_ext. split.
    + intros Heq. apply last_hd_single in Heq; [|by apply chain_NoDup in Hc].
      destruct l; simpl in *; [done|lia].
    + destruct l as [|a [|]]; simpl; done.
Qed.

(** ** [q_get_mid] *)

Lemma q_get_mid_loop_spec m h l fuel i j f b x :
  chain m h l → l !! i = Some f → l !! j = Some b →
  i ≤ j → i + j = length l - 1 → l !! ((length l - 1) / 2) = Some x →
  (q_get_mid_loop fuel f b m = OutOfFuel ∨ q_get_mid_loop fuel f b m = Ok (x, m)) ∧
  (j - i < 2 * fuel → q_get_mid_loop fuel f b m = Ok (x, m)).
Proof.
  intros Hc. revert i j f b. induction fuel as [|fuel IH]; intros i j f b Hf Hb Hij Hsum Hx.
  { split; [by left|lia]. }
  simpl. case_decide as Hfb.
  { subst b. assert (i = j) by (by eapply chain_lookup_inj). subst j.
    replace ((length l - 1) / 2) with i in Hx.
    - assert (x = f) by congruence. subst. split; [by right|done].
    - rewrite <-Hsum. replace (i + i) with (i * 2) by lia. by rewrite Nat.div_mul. }
  assert (i < j) as Hlt.
  { destruct (decide (i = j)); [|lia]. subst. congruence. }
  pose proof (chain_lookup_next _ _ _ _ _ Hc Hf) as Hn.
  assert (is_Some (l !! S i)) as [f' Hf'].
  { apply lookup_lt_is_Some. apply lookup_lt_Some in Hb. lia. }
  rewrite Hf' in Hn. simpl in Hn. rewrite (bind_load_next _ _ _ _ Hn).
  case_decide as Hfb'.
  { subst f'. assert (S i = j) by (by eapply chain_lookup_inj). subst j.
    replace ((length l - 1) / 2) with i in Hx.
    - assert (x = f) by congruence. subst. split; [by right|done].
    - rewrite <-Hsum. replace (i + S i) with (1 + i * 2) by lia.
      rewrite Nat.div_add by lia. done. }
  rewrite (bind_load_next _ _ _ _ Hn).
  destruct j as [|j]; [lia|].
  pose proof (chain_lookup_prev _ _ _ _ _ Hc Hb) as Hp.
  assert (is_Some (l !! j)) as [b' Hb'].
  { apply lookup_lt_is_Some. apply lookup_lt_Some in Hb. lia. }
  rewrite Hb' in Hp. rewrite (bind_load_prev _ _ _ _ Hp).
  assert (S i ≠ S j) by (intros Heq; rewrite Heq in Hf'; congruence).
  destruct (IH (S i) j f' b') as [H1 H2]; [done|done|lia|lia|done|].
  split; [done|]. intros. apply H2. lia.
Qed.

Lemma q_get_mid_spec m h l fuel x :
  chain m h l → l !! ((length l - 1) / 2) = Some x →
  (q_get_mid fuel h m = OutOfFuel ∨ q_get_mid fuel h m = Ok (x, m)) ∧
  (length l ≤ 2 * fuel → q_get_mid fuel h m = Ok (x, m)).
Proof.
  intros Hc Hx. unfold q_get_mid. rewrite (list_is_singular_chain _ _ _ _ Hc).
  destruct (chain_head _ _ _ Hc) as [Hn Hp].
  case_bool_decide as Hl.
  - destruct l as [|a [|]]; try done. simpl in *.
    assert (x = a) by congruence. subst.
    unfold load_next. rewrite Hn. split; [by right|done].
  - rewrite (bind_load_next _ _ _ _ Hn), (bind_load_prev _ _ _ _ Hp).
    assert (l ≠ []) as Hne by (intros ->; done).
    destruct (q_get_mid_loop_spec m h l fuel 0 (length l - 1) (hd h l) (List.last l h) x)
      as [H1 H2]; try done.
    + destruct l; [done|]. done.
    + destruct l as [|a l]; [done|]. rewrite last_cons.
      clear. revert a. induction l as [|b l IH]; intros a; [done|].
      rewrite last_cons. simpl. specialize (IH b). simpl in IH.
      by rewrite Nat.sub_0_r in IH.
    + lia.
    + split; [done|]. intros. apply H2. destruct l; simpl in *; [done|lia].
Qed.

(** ** [list_cut_position] *)

Lemma NoDup_app_ne (xs ys : list nat) a b :
  NoDup (xs ++ ys) → a ∈ xs → b ∈ ys → a ≠ b.
Proof. intros (_ & H & _)%NoDup_app Ha Hb ->. by eapply H. Qed.

Lemma cut_before_chain m h A x B h2 :
  chain m h (A ++ x :: B) → live m h2 → h2 ∉ h :: A ++ x :: B →
  ∃ m', cut_before h2 h x m = Ok (tt, m') ∧
        chain m' h A ∧ chain m' h2 (x :: B) ∧
        relinked (h2 :: h :: A ++ x :: B) m m'.
Proof.
  intros Hc Hlive Hh2.
  destruct (chain_head _ _ _ Hc) as [_ Hlast]. rewrite last_app_cons in Hlast.
  destruct (chain_at _ _ _ _ _ Hc) as [_ Hbefore].
  set (last := List.last B x) in *. set (before := List.last A h) in *.
  assert (last ∈ x :: B) as Hlast_in by apply last_elem_of.
  assert (before ∈ h :: A) as Hbefore_in by apply last_elem_of.
  assert (live m last) by (eapply chain_live; [done|set_solver]).
  assert (live m before) by (eapply chain_live; [done|set_solver]).
  assert (live m h) by (by eapply live_prev).
  assert (live m x) by (by eapply live_prev).
  apply ring_iff in Hc as (Hn & Hl & _).
  rewrite app_comm_cons in Hl, Hn.
  apply linked_app in Hl as [[HlA _]%linked_snoc HlB].
  pose proof (NoDup_app_ne _ _ _ _ Hn Hbefore_in Hlast_in) as Hbl.
  assert (h ∈ h :: A) as Hh_in by left. assert (x ∈ x :: B) as Hx_in by left.
  pose proof (NoDup_app_ne _ _ _ _ Hn Hh_in Hx_in).
  pose proof (NoDup_app_ne _ _ _ _ Hn Hh_in Hlast_in).
  pose proof (NoDup_app_ne _ _ _ _ Hn Hbefore_in Hx_in).
  assert (∀ a, a ∈ (h :: A) ++ x :: B → a ≠ h2) as Hne2 by (intros a ? ->; done).
  assert (h ≠ h2) by (apply Hne2; set_solver).
  assert (x ≠ h2) by (apply Hne2; set_solver).
  assert (last ≠ h2) by (apply Hne2; set_solver).
  assert (before ≠ h2) by (apply Hne2; set_solver).
  apply NoDup_app in Hn as (HnA & Hdisj & HnB).
  eexists. split; [|split; [|split]].
  - unfold cut_before.
    rewrite (bind_load_prev _ _ last) by done.
    rewrite (bind_load_prev _ _ before) by done.
    rewrite bind_store_next by fields.
    rewrite bind_store_prev by fields.
    rewrite bind_store_prev by fields.
    rewrite bind_store_next by fields.
    rewrite bind_store_next by fields.
    apply store_prev_ok. fields.
  - apply ring_iff. split; [done|]. split.
    + apply (linked_frame m); [done| |].
      * intros a Ha. assert (a ≠ before) by (by apply removelast_not_last).
        apply elem_of_removelast in Ha.
        assert (a ≠ last) by (intros Heq; eapply (Hdisj a); [done|by rewrite Heq]).
        assert (a ≠ h2) by (apply Hne2; set_solver).
        fields.
      * intros a Ha. simpl in Ha.
        assert (a ≠ x) by (intros ->; eapply Hdisj; [by right|left]).
        assert (a ≠ h2) by (apply Hne2; set_solver).
        assert (a ≠ h) by (intros ->; by apply NoDup_cons in HnA as [? _]).
        fields.
    + fold before. split; fields.
  - apply ring_iff. split; [|split].
    + apply NoDup_cons. split; [|done]. intros Hin. apply Hh2. set_solver.
    + apply linked_cons2. split; [split; fields|].
      apply (linked_frame m); [done| |].
      * intros a Ha. assert (a ≠ last) by (by apply removelast_not_last).
        apply elem_of_removelast in Ha.
        assert (a ≠ before) by (intros Heq; eapply (Hdisj before); [done|by rewrite <-Heq]).
        assert (a ≠ h2) by (apply Hne2; set_solver).
        fields.
      * intros a Ha. simpl in Ha.
        assert (a ≠ x) by (intros ->; by apply NoDup_cons in HnB as [? _]).
        assert (a ≠ h2) by (apply Hne2; set_solver).
        assert (a ≠ h) by (intros ->; eapply Hdisj; [left|by right]).
        fields.
    + rewrite last_cons. fold last. split; fields.
  - repeat (eapply relinked_trans;
      [|first [apply relinked_set_prev|apply relinked_set_next]; set_solver]).
    apply relinked_refl.
Qed.

Lemma cut_before_cuts : cuts_before cut_before.
Proof.
  intros m head head2 A x B Hc Hc2 Hh2. apply cut_before_chain; [done| |done].
  eapply (ring_live _ [head2]); [done|left].
Qed.

Lemma linked_tail m a xs : linked m (a :: xs) → linked m xs.
Proof. destruct xs; [done|]. by intros [_ ?]%linked_cons2. Qed.

Lemma linked_cons_hd m a d xs :
  xs ≠ [] → linked m (a :: xs) ↔ edge m a (hd d xs) ∧ linked m xs.
Proof. destruct xs; [done|]. intros _. apply linked_cons2. Qed.

Lemma tail_not_hd (d a : nat) xs : NoDup xs → a ∈ tail xs → a ≠ hd d xs.
Proof. destruct xs; [by intros _ ?%elem_of_nil|]. simpl. by intros [? _]%NoDup_cons ? ->. Qed.

Lemma cut_through_cuts : cuts_through cut_through.
Proof.
  intros m h h2 A x B Hc Hc2 Hh2.
  assert (live m h2) as Hlive by (eapply (ring_live _ [h2]); [done|left]).
  destruct (chain_head _ _ _ Hc) as [Hfst Hlast].
  rewrite last_app_cons in Hlast. rewrite (hd_app_cons h x A B) in Hfst.
  destruct (chain_at _ _ _ _ _ Hc) as [Hafter _].
  set (fst0 := hd x A) in *. set (after := hd h B) in *.
  assert (fst0 ∈ A ++ [x]) as Hfst_in by (unfold fst0; destruct A; set_solver).
  assert (after ∈ h :: B) as Hafter_in by (unfold after; destruct B; set_solver).
  assert (∀ a, a ∈ h :: A ++ x :: B → live m a) as Hlv by (intros a Ha; exact (chain_live _ _ _ _ Hc Ha)).
  assert (∀ a, a ∈ h :: A ++ x :: B → a ≠ h2) as Hne2 by (intros a ? ->; done).
  assert (live m h) by (apply Hlv; set_solver).
  assert (live m x) by (apply Hlv; set_solver).
  assert (live m fst0) by (apply Hlv; set_solver).
  assert (live m after) by (apply Hlv; set_solver).
  apply ring_iff in Hc as (Hn & Hl & Hclose). rewrite last_app_cons in Hclose.
  assert (NoDup ((A ++ [x]) ++ h :: B)) as Hn'.
  { rewrite <-(assoc_L (++)). simpl.
    assert (A ++ x :: h :: B ≡ₚ h :: A ++ x :: B) as ->; [|done].
    rewrite (Permutation_middle A (x :: B) h). f_equiv. apply Permutation_swap. }
  pose proof (λ a b, NoDup_app_ne _ _ a b Hn') as Hsep.
  apply NoDup_app in Hn' as (HnA & _ & HnB).
  rewrite app_comm_cons in Hl.
  apply linked_app in Hl as [HlA%linked_tail HlB%linked_tail].
  assert (h ≠ h2) by (apply Hne2; set_solver).
  assert (x ≠ h2) by (apply Hne2; set_solver).
  assert (fst0 ≠ h2) by (apply Hne2; set_solver).
  assert (after ≠ h2) by (apply Hne2; set_solver).
  assert (x ≠ h) by (apply Hsep; set_solver).
  assert (x ≠ after) by (apply Hsep; set_solver).
  assert (fst0 ≠ h) by (apply Hsep; set_solver).
  assert (fst0 ≠ after) by (apply Hsep; set_solver).
  eexists. split; [|split; [|split]].
  - unfold cut_through.
    rewrite (bind_load_next _ _ fst0) by done.
    rewrite (bind_load_next _ _ after) by done.
    rewrite bind_store_next by fields.
    rewrite bind_store_prev by fields.
    rewrite bind_store_prev by fields.
    rewrite bind_store_next by fields.
    rewrite bind_store_next by fields.
    apply store_prev_ok. fields.
  - apply ring_iff. split; [|split].
    + apply NoDup_cons. split; [|done]. intros Hin. apply Hh2. set_solver.
    + apply (linked_cons_hd _ _ x); [by destruct A|].
      rewrite (hd_app_cons x x A []). fold fst0. split; [split; fields|].
      apply (linked_frame m); [done| |].
      * intros a Ha. assert (a ≠ x).
        { intros ->. rewrite removelast_last in Ha. apply NoDup_app in HnA as (_ & Hd & _).
          eapply Hd; [done|left]. }
        apply elem_of_removelast in Ha.
        assert (a ≠ h) by (apply Hsep; set_solver).
        assert (a ≠ h2) by (apply Hne2; set_solver).
        fields.
      * intros a Ha. assert (a ≠ fst0).
        { unfold fst0. rewrite <-(hd_app_cons x x A []). by apply tail_not_hd. }
        apply elem_of_tail in Ha.
        assert (a ≠ after) by (apply Hsep; set_solver).
        assert (a ≠ h2) by (apply Hne2; set_solver).
        fields.
    + rewrite (last_app_cons h2 x A []). simpl. split; fields.
  - apply ring_iff. split; [done|]. destruct B as [|b B]; simpl in after.
    + split; [done|]. simpl. split; fields.
    + rewrite last_cons in Hclose, Hlast. rewrite last_cons.
      assert (List.last B b ∈ b :: B) as Hlast_in by apply last_elem_of.
      assert (h ≠ after) by (intros Heq; apply NoDup_cons in HnB as [Hh _]; apply Hh; rewrite Heq; left).
      split.
      * apply linked_cons2. split; [split; fields|].
        apply (linked_frame m); [done| |].
        -- intros a Ha%elem_of_removelast.
           assert (a ≠ x) by (intros ->; eapply (Hsep x x); set_solver).
           assert (a ≠ h) by (intros ->; by apply NoDup_cons in HnB as [? _]).
           assert (a ≠ h2) by (apply Hne2; set_solver).
           fields.
        -- intros a Ha. assert (a ≠ after) by (by apply (tail_not_hd b a (b :: B)); [apply NoDup_cons in HnB as [_ ?]|]).
           apply elem_of_tail in Ha.
           assert (a ≠ fst0) by (intros ->; eapply (Hsep fst0 fst0); set_solver).
           assert (a ≠ h2) by (apply Hne2; set_solver).
           fields.
      * destruct Hclose as [Hc1 Hc3].
        assert (List.last B b ≠ x) by (intros Heq; eapply (Hsep x x); set_solver).
        assert (List.last B b ≠ h) by (intros Heq; apply NoDup_cons in HnB as [Hh _]; apply Hh; by rewrite <-Heq).
        assert (List.last B b ≠ h2) by (apply Hne2; set_solver).
        split; fields.
  - repeat (eapply relinked_trans;
      [|first [apply relinked_set_prev|apply relinked_set_next]; set_solver]).
    apply relinked_refl.
Qed.

(** ** Heaps that agree on a set of addresses *)

Lemma get_next_agree (m m' : gmap nat block) x : m' !! x = m !! x → get_next m' x = get_next m x.
Proof. unfold get_next, get_links. by intros ->. Qed.
Lemma get_prev_agree (m m' : gmap nat block) x : m' !! x = m !! x → get_prev m' x = get_prev m x.
Proof. unfold get_prev, get_links. by intros ->. Qed.
Lemma payload_agree (m m' : gmap nat block) x : m' !! x = m !! x → payload m' x = payload m x.
Proof. unfold payload. by intros ->. Qed.
Lemma live_agree (m m' : gmap nat block) x : m' !! x = m !! x → live m' x ↔ live m x.
Proof. unfold live, get_links. by intros ->. Qed.

Lemma ring_agree (m m' : gmap nat block) r :
  (∀ x, x ∈ r → m' !! x = m !! x) → ring m r → ring m' r.
Proof.
  intros Hag [Hn Hl]. split; [done|].
  assert (∀ x, x ∈ r ++ take 1 r → m' !! x = m !! x) as Hag'.
  { intros x [?|(i & Hx & _)%elem_of_take]%elem_of_app; [auto|].
    apply Hag. by eapply list_elem_of_lookup_2. }
  apply (linked_frame m); [done| |].
  - intros a Ha%elem_of_removelast. apply get_next_agree. auto.
  - intros a Ha%elem_of_tail. apply get_prev_agree. auto.
Qed.

Lemma live_not_null m p : live m p → p ≠ NULL.
Proof. unfold live, get_links. case_decide; [by intros []|done]. Qed.

Lemma live_lookup m p : live m p → is_Some (m !! p).
Proof.
  unfold live, get_links. case_decide; [by intros []|].
  destruct (m !! p); [by eexists|by intros []].
Qed.

Lemma chain_not_null m h l x : chain m h l → x ∈ h :: l → x ≠ NULL.
Proof. intros. eapply live_not_null, chain_live; eauto. Qed.

(** ** [malloc] *)

Lemma malloc_fresh (m : gmap nat block) :
  let p := fresh ({[NULL]} ∪ dom m) in p ≠ NULL ∧ m !! p = None.
Proof.
  intros p. pose proof (is_fresh ({[NULL]} ∪ dom m)) as Hf. fold p in Hf.
  split.
  - intros Heq. apply Hf. rewrite Heq. set_solver.
  - apply not_elem_of_dom. set_solver.
Qed.

Lemma LIST_HEAD_spec (m : gmap nat block) :
  ∃ h2 m', LIST_HEAD m = Ok (h2, m') ∧ m !! h2 = None ∧ ring m' [h2] ∧
           (∀ q, q ≠ h2 → m' !! q = m !! q).
Proof.
  destruct (malloc_fresh m) as [Hnull Hnone]. set (p := fresh ({[NULL]} ∪ dom m)) in *.
  destruct (INIT_LIST_HEAD_ring (<[p := Sentinel junk]> m) p) as (m' & Hrun & Hring & [Hrel _]).
  { unfold live, get_links. rewrite decide_False by done. rewrite lookup_insert_eq. by eexists. }
  exists p, m'. split; [|split; [done|split; [done|]]].
  - unfold LIST_HEAD, malloc. unfold bind at 1. fold p. unfold bind. by rewrite Hrun.
  - intros q Hq. rewrite Hrel by set_solver. by rewrite lookup_insert_ne.
Qed.

(** ** [q_sort] over the split of section 4.8 *)

Lemma mid_split {T} (l : list T) :
  2 ≤ length l →
  ∃ A x B, l = A ++ x :: B ∧ l !! ((length l - 1) / 2) = Some x ∧
           length A = (length l - 1) / 2 ∧ 2 ≤ length (x :: B).
Proof.
  intros Hlen. set (k := (length l - 1) / 2).
  assert (k < length l) as Hk.
  { subst k. apply (Nat.le_lt_trans _ (length l - 1)); [|lia]. apply Nat.Div0.div_le_upper_bound. lia. }
  destruct (lookup_lt_is_Some_2 l k Hk) as [x Hx].
  exists (take k l), x, (drop (S k) l). split; [|split; [done|split]].
  - by rewrite take_drop_middle.
  - rewrite length_take. lia.
  - simpl. rewrite length_drop.
    assert (2 * k ≤ length l - 1); [|lia].
    subst k. apply Nat.Div0.mul_div_le.
Qed.

Lemma q_sort_cut_before cut fuel : cuts_before cut → ∀ m h l,
  chain m h l →
  (length l ≤ 1 → fuel ≠ 0 → q_sort cut fuel h m = Ok (tt, m)) ∧
  (2 ≤ length l → q_sort cut fuel h m = OutOfFuel).
Proof.
  intros Hcuts. induction fuel as [|fuel IH]; intros m h l Hc; [split; [done|by intros]|].
  assert (h ≠ NULL) as Hh by (eapply chain_not_null; [done|left]).
  simpl. rewrite decide_False by done.
  rewrite (list_empty_chain _ _ _ _ Hc).
  case_bool_decide as Hnil; [subst; split; [done|simpl; lia]|].
  rewrite (list_is_singular_chain _ _ _ _ Hc).
  case_bool_decide as Hone; [split; [done|lia]|].
  split; [destruct l as [|? [|]]; simpl in *; try done; lia|]. intros Hlen.
  destruct (LIST_HEAD_spec m) as (h2 & m1 & Hrun1 & Hfresh & Hring2 & Hag).
  rewrite (bind_ok _ _ _ _ _ Hrun1).
  assert (h2 ∉ h :: l) as Hh2.
  { intros Hin. eapply chain_live, live_lookup in Hin as [? ?]; [|done]. congruence. }
  assert (chain m1 h l) as Hc1.
  { eapply ring_agree; [|done]. intros x Hx. apply Hag. by intros ->. }
  destruct (mid_split l Hlen) as (A & x & B & -> & Hx & HA & HB).
  destruct (q_get_mid_spec m1 h _ (S fuel) x Hc1 Hx) as [[Hmid|Hmid] _].
  { unfold bind at 1. by rewrite Hmid. }
  rewrite (bind_ok _ _ _ _ _ Hmid).
  destruct (Hcuts m1 h h2 A x B Hc1 Hring2 Hh2) as (m2 & Hcut & HcA & HcB & _).
  rewrite (bind_ok _ _ _ _ _ Hcut).
  destruct (IH m2 h A HcA) as [IH1 IH2].
  destruct fuel as [|fuel]; [done|].
  destruct (decide (length A ≤ 1)) as [HlA|HlA].
  - rewrite (bind_ok _ _ _ _ _ (IH1 HlA ltac:(done))).
    destruct (IH m2 h2 (x :: B) HcB) as [_ IH3].
    unfold bind at 1. by rewrite IH3.
  - unfold bind at 1. rewrite IH2 by lia. done.
Qed.

(** ** Queues: chains of elements with their strings *)

Lemma queue_chain m h vs : queue m h vs → chain m h vs.*1.
Proof. by intros [? _]. Qed.

Lemma queue_payload m h vs x v : queue m h vs → (x, v) ∈ vs → payload m x = Some v.
Proof. intros [_ Hp] Hin. rewrite Forall_forall in Hp. by apply (Hp (x, v)). Qed.

Lemma payloads_relinked S m m' (vs : list (nat * string)) :
  relinked S m m' → Forall (λ xv, payload m xv.1 = Some xv.2) vs →
  Forall (λ xv, payload m' xv.1 = Some xv.2) vs.
Proof.
  intros Hrel Hp. eapply Forall_impl; [exact Hp|]. intros [x v] Hx. simpl in *.
  by rewrite (relinked_payload _ _ _ _ Hrel).
Qed.

Lemma queue_agree (m m' : gmap nat block) h vs :
  (∀ x, x ∈ h :: vs.*1 → m' !! x = m !! x) → queue m h vs → queue m' h vs.
Proof.
  intros Hag [Hc Hp]. split.
  - by apply (ring_agree m).
  - rewrite Forall_forall in *. intros [x v] Hin. simpl.
    rewrite (payload_agree m); [by apply (Hp (x, v))|].
    apply Hag. right. apply list_elem_of_fmap. by exists (x, v).
Qed.

Lemma payload_element m x v : payload m x = Some v → ∃ l, m !! x = Some (Element (Some v) l).
Proof.
  unfold payload. case_decide; [done|].
  destruct (m !! x) as [[? | [?|] ? | ?]|]; try done. intros [= ->]. by eexists.
Qed.

Lemma q_release_element_ok m x v :
  payload m x = Some v → q_release_element x m = Ok (tt, delete x m).
Proof.
  intros Hp. pose proof Hp as [l Hl]%payload_element.
  unfold q_release_element. rewrite Hl.
  case_decide as Hn; [|done]. subst. unfold payload in Hp. by rewrite decide_True in Hp.
Qed.

Lemma load_string_ok {B} m x v (k : string → M B) :
  payload m x = Some v → bind (load_string x) k m = k v m.
Proof. intros Hp. unfold bind, load_string. by rewrite Hp. Qed.

(** ** [q_delete_dup] *)

Lemma dedup_subset vs x : x ∈ dedup vs → x ∈ vs.
Proof.
  induction vs as [|a vs IH]; [done|]. destruct vs as [|b vs]; [done|].
  change (dedup (a :: b :: vs)) with
    (if decide (strcmp a.2 b.2 = 0%Z) then dedup (b :: vs) else a :: dedup (b :: vs)).
  case_decide.
  - intros ?. right. auto.
  - intros [->|?]%elem_of_cons; [left|right; auto].
Qed.

Lemma q_delete_dup_loop_spec h todo : ∀ kept m fuel e s,
  queue m h (kept ++ todo) → e = hd h todo.*1 → get_next m e = Some s →
  length todo < fuel →
  ∃ m', q_delete_dup_loop fuel h e s m = Ok (tt, m') ∧
        queue m' h (kept ++ dedup todo) ∧
        (∀ x, x ∈ todo → x ∉ dedup todo → m' !! x.1 = None) ∧
        (∀ q, q ∉ h :: (kept ++ todo).*1 → m' !! q = m !! q).
Proof.
  induction todo as [|[x v] todo IH]; intros kept m fuel e s Hq -> Hs Hfuel;
    (destruct fuel as [|fuel]; [simpl in Hfuel; lia|]).
  { simpl. rewrite decide_True by done. exists m. rewrite app_nil_r in *. done. }
  pose proof (queue_chain _ _ _ Hq) as Hc. rewrite fmap_app, fmap_cons in Hc. simpl in Hc.
  assert (x ≠ h) as Hxh by (eapply chain_ne; [done|set_solver]).
  simpl hd in *. simpl q_delete_dup_loop. rewrite decide_False by done.
  destruct (chain_at _ _ _ _ _ Hc) as [Hxn _]. rewrite Hxn in Hs. injection Hs as <-.
  destruct todo as [|[y w] todo].
  - simpl hd. rewrite decide_True by done. unfold bind at 1, ret at 1.
    destruct (chain_head _ _ _ Hc) as [Hhn _].
    rewrite (bind_load_next _ _ _ _ Hhn). destruct fuel as [|fuel]; [simpl in Hfuel; lia|].
    simpl. rewrite decide_True by done. exists m. split; [done|]. split; [done|].
    split; [|done]. intros a ->%list_elem_of_singleton Hn. exfalso. apply Hn. left.
  - simpl hd in *. rewrite fmap_cons in Hc. simpl in Hc.
    assert (y ≠ h) as Hyh by (eapply chain_ne; [done|set_solver]).
    rewrite decide_False by done.
    assert (payload m x = Some v) as Hpx by (eapply queue_payload; [done|set_solver]).
    assert (payload m y = Some w) as Hpy by (eapply queue_payload; [done|set_solver]).
    unfold bind at 1. rewrite (load_string_ok _ _ _ _ Hpx), (load_string_ok _ _ _ _ Hpy).
    change (dedup ((x, v) :: (y, w) :: todo)) with
      (if decide (strcmp v w = 0%Z) then dedup ((y, w) :: todo)
       else (x, v) :: dedup ((y, w) :: todo)).
    case_decide as Hcmp.
    + destruct (chain_unlink _ _ _ _ _ Hc) as (m1 & Hdel & Hc1 & Hrel).
      rewrite (bind_ok _ _ _ _ _ Hdel).
      assert (payload m1 x = Some v) as Hpx1 by (by rewrite (relinked_payload _ _ _ _ Hrel)).
      rewrite (q_release_element_ok _ _ _ Hpx1).
      assert (x ∉ h :: kept.*1 ++ y :: todo.*1) as Hxout.
      { apply chain_NoDup in Hc. rewrite app_comm_cons in Hc.
        apply NoDup_app in Hc as (_ & Hd & Hn). apply NoDup_cons in Hn as [Hn _].
        intros [Hin|Hin]%(elem_of_app (h :: kept.*1) (y :: todo.*1) x); [|done].
        eapply Hd; [done|left]. }
      assert (queue (delete x m1) h (kept ++ (y, w) :: todo)) as Hq2.
      { apply (queue_agree m1).
        - intros a Ha. rewrite lookup_delete_ne; [done|]. intros ->. apply Hxout.
          by rewrite fmap_app, fmap_cons in Ha.
        - split; [by rewrite fmap_app, fmap_cons|].
          destruct Hq as [_ Hp]. eapply payloads_relinked; [done|].
          apply Forall_app in Hp as [Hp1 Hp2]. apply Forall_cons in Hp2 as [_ Hp2].
          apply Forall_app. done. }
      pose proof (queue_chain _ _ _ Hq2) as Hc2. rewrite fmap_app, fmap_cons in Hc2. simpl in Hc2.
      destruct (chain_at _ _ _ _ _ Hc2) as [Hyn _].
      rewrite (bind_load_next _ _ _ _ Hyn).
      destruct (IH kept (delete x m1) fuel y (hd h todo.*1)) as (m' & Hrun & Hq' & Hfree & Hfr);
        [done|done|done|simpl in *; lia|].
      exists m'. split; [done|]. split; [done|]. split.
      * intros a [->|Ha]%elem_of_cons Hn.
        -- simpl. rewrite Hfr; [apply lookup_delete_eq|].
           by rewrite fmap_app, fmap_cons.
        -- by apply Hfree.
      * intros q Hq0. rewrite Hfr.
        -- rewrite lookup_delete_ne.
           ++ destruct Hrel as [Hrel _]. apply Hrel. intros Hin. apply Hq0.
              rewrite fmap_app, !fmap_cons. simpl. set_solver.
           ++ intros ->. apply Hq0. rewrite fmap_app, fmap_cons. set_solver.
        -- intros Hin. apply Hq0. rewrite fmap_app, !fmap_cons in *. simpl. set_solver.
    + unfold ret at 1. destruct (chain_at m h (kept.*1 ++ [x]) y todo.*1) as [Hyn _].
      { by rewrite <-app_assoc. }
      rewrite (bind_load_next _ _ _ _ Hyn).
      destruct (IH (kept ++ [(x, v)]) m fuel y (hd h todo.*1)) as (m' & Hrun & Hq' & Hfree & Hfr);
        [by rewrite <-app_assoc|done|done|simpl in *; lia|].
      exists m'. split; [done|]. rewrite <-app_assoc in Hq'. split; [done|]. split.
      * intros a [->|Ha]%elem_of_cons Hn; [exfalso; apply Hn; left|].
        apply Hfree; [done|]. intros Hin. apply Hn. by right.
      * intros q Hq0. apply Hfr. by rewrite <-app_assoc.
Qed.

(** ** [q_swap] *)

Lemma swap_step {B} m a b r (k : M B) :
  ring m (a :: b :: r) → r ≠ [] →
  ∃ m',
    (let* p := load_prev a in
     store_next p b;;
     let* p := load_prev a in
     store_prev b p;;
     let* n := load_next b in
     store_prev n a;;
     let* n := load_next b in
     store_next a n;;
     store_next b a;;
     store_prev a b;;
     k) m = k m' ∧
    ring m' (b :: a :: r) ∧ relinked (a :: b :: r) m m'.
Proof.
  intros Hring Hr.
  assert (live m a) by (eapply ring_live; [done|set_solver]).
  assert (live m b) by (eapply ring_live; [done|set_solver]).
  assert (edge m b (hd a r)) as [Hbn Hnb].
  { apply (ring_rotate _ [a] (b :: r)) in Hring.
    apply ring_first in Hring. by destruct r. }
  apply ring_iff in Hring as (Hn & Hl & [Hpa Hap]).
  rewrite last_cons in Hpa, Hap.
  destruct r as [|n r]; [done|]. simpl in Hbn, Hnb. rewrite last_cons in Hpa, Hap.
  set (p := List.last r n) in *.
  assert (p ∈ n :: r) as Hp_in by apply last_elem_of.
  apply NoDup_cons in Hn as [Ha Hn]. apply NoDup_cons in Hn as [Hb Hn].
  assert (a ≠ b) by (intros ->; apply Ha; left).
  assert (p ≠ a) by (intros Heq; apply Ha; rewrite <-Heq; by right).
  assert (p ≠ b) by (intros Heq; apply Hb; by rewrite <-Heq).
  assert (n ≠ a) by (intros ->; apply Ha; set_solver).
  assert (n ≠ b) by (intros ->; apply Hb; left).
  destruct Hl as [_ [_ Hl]].
  eexists. split; [|split].
  - rewrite (bind_load_prev _ _ p) by done.
    rewrite bind_store_next by fields.
    rewrite (bind_load_prev _ _ p) by fields.
    rewrite bind_store_prev by fields.
    rewrite (bind_load_next _ _ n) by fields.
    rewrite bind_store_prev by fields.
    rewrite (bind_load_next _ _ n) by fields.
    rewrite bind_store_next by fields.
    rewrite bind_store_next by fields.
    rewrite bind_store_prev by fields.
    reflexivity.
  - apply ring_iff. split; [|split].
    + apply NoDup_cons. split; [set_solver|]. apply NoDup_cons. split; [set_solver|done].
    + apply linked_cons2. split; [split; fields|].
      apply linked_cons2. split; [split; fields|].
      apply (linked_frame m); [done| |].
      * intros x Hx. assert (x ≠ p) by (by apply removelast_not_last).
        apply elem_of_removelast in Hx.
        assert (x ≠ a) by (intros ->; apply Ha; by right).
        assert (x ≠ b) by (intros ->; by apply Hb).
        fields.
      * intros x Hx. simpl in Hx.
        assert (x ≠ a) by (intros ->; apply Ha; by do 2 right).
        assert (x ≠ b) by (intros ->; apply Hb; by right).
        assert (x ≠ n) by (intros ->; by apply NoDup_cons in Hn as [? _]).
        fields.
    + rewrite !last_cons. fold p. split; fields.
  - repeat (eapply relinked_trans;
      [|first [apply relinked_set_prev|apply relinked_set_next]; set_solver]).
    apply relinked_refl.
Qed.

Lemma q_swap_loop_spec h fuel : ∀ todo done m node1 node2,
  chain m h (done ++ todo) → node1 = hd h todo → get_next m node1 = Some node2 →
  length todo < 2 * fuel →
  ∃ m', q_swap_loop fuel h node1 node2 m = Ok (tt, m') ∧
        chain m' h (done ++ swap_pairs todo) ∧
        relinked (h :: done ++ todo) m m'.
Proof.
  induction fuel as [|fuel IH]; intros todo done m node1 node2 Hc -> Hn Hfuel; [lia|].
  simpl q_swap_loop.
  destruct todo as [|a [|b todo]].
  - simpl. rewrite decide_False by naive_solver.
    exists m. split; [done|]. split; [done|apply relinked_refl].
  - simpl hd in *. destruct (chain_at _ _ _ _ _ Hc) as [Hn' _]. simpl in Hn'.
    assert (node2 = h) by congruence. subst.
    rewrite decide_False by naive_solver.
    exists m. split; [done|]. split; [done|apply relinked_refl].
  - simpl hd in *. destruct (chain_at _ _ _ _ _ Hc) as [Hn' _]. simpl in Hn'.
    assert (node2 = b) by congruence. subst.
    assert (a ≠ h) by (eapply chain_ne; [done|set_solver]).
    assert (b ≠ h) by (eapply chain_ne; [done|set_solver]).
    rewrite decide_True by done.
    pose proof Hc as Hring%chain_rotate.
    edestruct (swap_step (B:=unit) m a b (todo ++ h :: done)) as (m1 & Hrun & Hring1 & Hrel1);
      [done|by destruct todo|].
    rewrite Hrun. clear Hrun.
    assert (chain m1 h ((done ++ [b; a]) ++ todo)) as Hc1.
    { apply (ring_rotate _ [b] (a :: todo ++ h :: done)) in Hring1. simpl in Hring1.
      rewrite <-app_assoc in Hring1.
      apply (chain_rotate m1 h (done ++ [b]) a todo) in Hring1.
      by rewrite <-!app_assoc in *. }
    destruct (chain_at m1 h (done ++ [b]) a todo) as [Han _].
    { by rewrite <-!app_assoc in *. }
    rewrite (bind_load_next _ _ _ _ Han).
    assert (is_Some (get_next m1 (hd h todo))) as [n2 Hn2].
    { apply live_get_next. eapply chain_live; [done|]. destruct todo; set_solver. }
    rewrite (bind_load_next _ _ _ _ Hn2).
    destruct (IH todo (done ++ [b; a]) m1 (hd h todo) n2) as (m' & Hrun & Hc' & Hrel');
      [done|done|done|simpl in *; lia|].
    exists m'. split; [done|]. split.
    + by rewrite <-app_assoc in Hc'.
    + eapply relinked_trans; eapply relinked_weaken; [|done| |done]; set_solver.
Qed.

(** ** [q_reverse] *)

Lemma linked_flip m0 m xs :
  linked m0 xs →
  (∀ x, x ∈ xs → get_next m x = get_prev m0 x ∧ get_prev m x = get_next m0 x) →
  linked m (reverse xs).
Proof.
  induction xs as [|a xs IH]; intros Hl Hf; [done|].
  destruct xs as [|b xs]; [done|]. destruct Hl as [[Hab Hba] Hl].
  rewrite !reverse_cons, <-app_assoc. apply linked_app. split.
  - rewrite <-reverse_cons. apply IH; [done|]. intros x Hx. apply Hf. by right.
  - split; [split|done].
    + destruct (Hf b) as [-> _]; [set_solver|done].
    + destruct (Hf a) as [_ ->]; [set_solver|done].
Qed.

Lemma flipped_chain m0 m h l :
  chain m0 h l → flipped (h :: l) m0 m → chain m h (reverse l).
Proof.
  intros [Hn Hl] [Hf _]. split.
  - apply NoDup_cons in Hn as [Hh Hn]. apply NoDup_cons. split.
    + by rewrite elem_of_reverse.
    + by rewrite reverse_Permutation.
  - change (take 1 (h :: reverse l)) with [h]. change (take 1 (h :: l)) with [h] in Hl.
    replace ((h :: reverse l) ++ [h]) with (reverse ((h :: l) ++ [h])).
    + apply (linked_flip m0); [done|]. intros x Hx. apply Hf. set_solver.
    + by rewrite reverse_snoc, reverse_cons.
Qed.

Lemma q_reverse_loop_spec m0 h todo : ∀ done m fuel n s,
  chain m0 h (done ++ todo) → flipped done m0 m →
  n = hd h todo → get_next m0 n = Some s → length todo < fuel →
  ∃ m', q_reverse_loop fuel h n s m = Ok (tt, m') ∧ flipped (done ++ todo) m0 m'.
Proof.
  induction todo as [|x todo IH]; intros done m fuel n s Hc Hfl -> Hs Hfuel;
    (destruct fuel as [|fuel]; [simpl in Hfuel; lia|]); simpl q_reverse_loop.
  { simpl. rewrite decide_True by done. exists m. by rewrite app_nil_r. }
  simpl hd in *.
  assert (x ≠ h) by (eapply chain_ne; [done|set_solver]).
  rewrite decide_False by done.
  destruct (chain_at _ _ _ _ _ Hc) as [Hxn Hxp].
  assert (s = hd h todo) by congruence. subst s.
  destruct Hfl as [Hf Hrel].
  assert (x ∉ done) as Hxd.
  { apply chain_NoDup, NoDup_cons in Hc as [_ Hc].
    apply NoDup_app in Hc as (_ & Hd & _). intros Hin. eapply Hd; [done|left]. }
  assert (get_prev m x = Some (List.last done h)) as Hp.
  { by rewrite (relinked_get_prev _ _ _ _ Hrel Hxd). }
  assert (live m x) by (by eapply live_prev).
  rewrite (bind_load_prev _ _ _ _ Hp).
  rewrite bind_store_next by done.
  rewrite bind_store_prev by fields.
  set (m1 := set_prev x (hd h todo) (set_next x (List.last done h) m)).
  assert (flipped (done ++ [x]) m0 m1) as Hfl1.
  { split.
    - intros y [Hy| ->%list_elem_of_singleton]%elem_of_app.
      + assert (y ≠ x) by (by intros ->). destruct (Hf y Hy) as [<- <-].
        subst m1. split; fields.
      + subst m1. rewrite Hxn, Hxp. split; fields.
    - eapply relinked_trans; [eapply relinked_weaken; [|done]; set_solver|].
      eapply relinked_trans; [apply relinked_set_next|apply relinked_set_prev]; set_solver. }
  assert (hd h todo ∉ done ++ [x]) as Hsout.
  { apply chain_NoDup in Hc. destruct todo as [|y todo]; simpl.
    - apply NoDup_cons in Hc as [Hc _]. intros Hin. apply Hc. set_solver.
    - apply NoDup_cons in Hc as [_ Hc]. rewrite cons_middle, app_assoc in Hc.
      apply NoDup_app in Hc as (_ & Hd & _). intros Hin. eapply Hd; [done|left]. }
  assert (is_Some (get_next m0 (hd h todo))) as [s' Hs'].
  { apply live_get_next. eapply chain_live; [done|]. destruct todo; set_solver. }
  assert (get_next m1 (hd h todo) = Some s') as Hs1.
  { destruct Hfl1 as [_ Hrel1]. by rewrite (relinked_get_next _ _ _ _ Hrel1 Hsout). }
  rewrite (bind_load_next _ _ _ _ Hs1).
  destruct (IH (done ++ [x]) m1 fuel (hd h todo) s') as (m' & Hrun & Hfl');
    [by rewrite <-app_assoc|done|done|done|simpl in *; lia|].
  exists m'. split; [done|]. by rewrite <-app_assoc in Hfl'.
Qed.

Lemma q_reverse_spec m h l fuel :
  chain m h l → length l < fuel →
  ∃ m', q_reverse fuel h m = Ok (tt, m') ∧ chain m' h (reverse l) ∧ relinked (h :: l) m m'.
Proof.
  intros Hc Hfuel. unfold q_reverse.
  assert (h ≠ NULL) by (eapply chain_not_null; [done|left]).
  rewrite decide_False by done.
  rewrite (list_empty_chain _ _ _ _ Hc). case_bool_decide as Hnil.
  { subst. exists m. split; [done|]. split; [done|apply relinked_refl]. }
  destruct (chain_head _ _ _ Hc) as [Hhn Hhp].
  rewrite (bind_load_next _ _ _ _ Hhn).
  assert (is_Some (get_next m (hd h l))) as [s Hs].
  { apply live_get_next. eapply chain_live; [done|]. destruct l; set_solver. }
  rewrite (bind_load_next _ _ _ _ Hs).
  destruct (q_reverse_loop_spec m h l [] m fuel (hd h l) s) as (m1 & Hrun & Hf & Hrel);
    [done|split; [by intros ? ?%elem_of_nil|apply relinked_refl]|done|done|done|].
  rewrite (bind_ok _ _ _ _ _ Hrun). simpl in Hf, Hrel.
  assert (h ∉ l) as Hhl by (by apply chain_NoDup, NoDup_cons in Hc as [? _]).
  rewrite <-(relinked_get_next _ _ _ _ Hrel Hhl) in Hhn.
  rewrite <-(relinked_get_prev _ _ _ _ Hrel Hhl) in Hhp.
  rewrite (bind_load_next _ _ _ _ Hhn), (bind_load_prev _ _ _ _ Hhp).
  assert (live m1 h) by (by eapply live_next).
  rewrite bind_store_next by done.
  eexists. split; [apply store_prev_ok; fields|].
  assert (flipped (h :: l) m (set_prev h (hd h l) (set_next h (List.last l h) m1))) as Hfl.
  { split.
    - intros y [->|Hy]%elem_of_cons.
      + rewrite (relinked_get_next _ _ _ _ Hrel Hhl) in Hhn.
        rewrite (relinked_get_prev _ _ _ _ Hrel Hhl) in Hhp.
        rewrite Hhn, Hhp. split; fields.
      + assert (y ≠ h) by (by intros ->). destruct (Hf y Hy) as [<- <-]. split; fields.
    - eapply relinked_trans; [eapply relinked_weaken; [|done]; set_solver|].
      eapply relinked_trans; [apply relinked_set_next|apply relinked_set_prev]; set_solver. }
  split; [by eapply flipped_chain|]. by destruct Hfl.
Qed.

(** ** [list_splice_tail_init] *)

Lemma bind_assoc {A B C} (c : M A) (k1 : A → M B) (k2 : B → M C) m :
  bind (bind c k1) k2 m = bind c (λ x, bind (k1 x) k2) m.
Proof. unfold bind. by destruct (c m) as [[]| |]. Qed.

Lemma list_splice_tail_init_ring m h1 l1 h2 l2 :
  ring m (h1 :: l1) → ring m (h2 :: l2) → NoDup ((h1 :: l1) ++ h2 :: l2) →
  ∃ m', list_splice_tail_init h2 h1 m = Ok (tt, m') ∧
        ring m' (h1 :: l1 ++ l2) ∧ ring m' [h2] ∧
        relinked ((h1 :: l1) ++ h2 :: l2) m m'.
Proof.
  intros Hr1 Hr2 Hn.
  destruct (chain_head _ _ _ Hr1) as [_ Hpv]. destruct (chain_head _ _ _ Hr2) as [Hf Hlt].
  assert (h1 ≠ h2) as Hh12 by (eapply NoDup_app_ne; [done|left|left]).
  assert (live m h2) as Hlive2 by (by eapply live_next).
  unfold list_splice_tail_init.
  destruct l2 as [|f l2].
  { rewrite (bind_load_prev _ _ _ _ Hpv), (bind_load_next _ _ _ _ Hf), (bind_load_prev _ _ _ _ Hlt).
    rewrite (list_empty_chain _ _ _ _ Hr2).
    rewrite bool_decide_eq_true_2 by done. unfold bind at 1, ret at 1.
    destruct (INIT_LIST_HEAD_ring m h2 Hlive2) as (m' & Hrun & Hring & Hrel).
    exists m'. split; [done|]. split; [|split; [done|]].
    - rewrite app_nil_r. eapply relinked_ring; [done| |done].
      intros x Hx ->%list_elem_of_singleton. eapply NoDup_app_ne; [done|done|left|done].
    - eapply relinked_weaken; [|done]. set_solver. }
  simpl hd in *. rewrite last_cons in Hlt.
  rewrite (bind_load_prev _ _ _ _ Hpv), (bind_load_next _ _ _ _ Hf), (bind_load_prev _ _ _ _ Hlt).
  rewrite (list_empty_chain _ _ _ _ Hr2).
  rewrite bool_decide_eq_false_2 by done.
  set (pv := List.last l1 h1) in *. set (lt := List.last l2 f) in *.
  assert (pv ∈ h1 :: l1) as Hpv_in by apply last_elem_of.
  assert (lt ∈ f :: l2) as Hlt_in by apply last_elem_of.
  assert (live m h1) by (by eapply live_prev).
  assert (live m lt) by (eapply (ring_live _ (h2 :: f :: l2)); [done|by right]).
  assert (live m pv) by (by eapply (ring_live _ (h1 :: l1))).
  assert (live m f) by (eapply (ring_live _ (h2 :: f :: l2)); [done|set_solver]).
  assert (∀ a b, a ∈ h1 :: l1 → b ∈ h2 :: f :: l2 → a ≠ b) as Hdisj.
  { intros a b Ha Hb. by eapply NoDup_app_ne. }
  assert (pv ≠ lt) by (apply Hdisj; [done|by right]).
  assert (h1 ≠ f) by (apply Hdisj; [left|set_solver]).
  assert (h1 ≠ lt) by (apply Hdisj; [left|by right]).
  assert (pv ≠ f) by (apply Hdisj; [done|set_solver]).
  assert (pv ≠ h2) by (apply Hdisj; [done|left]).
  apply ring_iff in Hr1 as (Hn1 & Hl1 & _). apply ring_iff in Hr2 as (Hn2 & Hl2 & _).
  destruct Hl2 as [_ Hl2]. apply NoDup_cons in Hn2 as [Hh2 Hn2].
  assert (lt ≠ h2) by (intros Heq; apply Hh2; by rewrite <-Heq).
  assert (f ≠ h2) by (intros ->; apply Hh2; left).
  rewrite bind_assoc, bind_store_prev by fields.
  rewrite bind_assoc, bind_store_next by fields.
  rewrite bind_assoc, bind_store_prev by fields.
  rewrite bind_store_next by fields.
  set (m1 := set_next pv f (set_prev f pv (set_next lt h1 (set_prev h1 lt m)))).
  assert (relinked ((h1 :: l1) ++ h2 :: f :: l2) m m1) as Hrel1.
  { subst m1. repeat (eapply relinked_trans;
      [|first [apply relinked_set_prev|apply relinked_set_next]; set_solver]).
    apply relinked_refl. }
  assert (ring m1 (h1 :: l1 ++ f :: l2)) as Hring1.
  { apply ring_iff. split; [|split].
    - rewrite app_comm_cons. apply NoDup_app. split; [done|]. split; [|done].
      intros a Ha Hb. eapply Hdisj; [done| |done]. by right.
    - rewrite app_comm_cons. apply linked_app. split.
      + apply linked_snoc. split; [|subst m1; split; fields].
        apply (linked_frame m); [done| |].
        * intros a Ha. assert (a ≠ pv) by (by apply removelast_not_last).
          apply elem_of_removelast in Ha.
          assert (a ≠ lt) by (apply Hdisj; [done|by right]).
          subst m1. fields.
        * intros a Ha. simpl in Ha.
          assert (a ≠ h1) by (intros ->; by apply NoDup_cons in Hn1 as [? _]).
          assert (a ≠ f) by (apply Hdisj; [by right|set_solver]).
          subst m1. fields.
      + apply (linked_frame m); [done| |].
        * intros a Ha. assert (a ≠ lt) by (by apply removelast_not_last).
          apply elem_of_removelast in Ha.
          assert (a ≠ pv) by (intros Heq; eapply (Hdisj pv a); [done|by right|done]).
          subst m1. fields.
        * intros a Ha. simpl in Ha.
          assert (a ≠ h1) by (intros Heq; eapply (Hdisj h1 a); [left|set_solver|done]).
          assert (a ≠ f) by (intros ->; by apply NoDup_cons in Hn2 as [? _]).
          subst m1. fields.
    - rewrite last_app_cons. fold lt. subst m1. split; fields. }
  destruct (INIT_LIST_HEAD_ring m1 h2) as (m' & Hrun & Hring & Hrel).
  { by eapply relinked_live. }
  exists m'. split; [done|]. split; [|split; [done|]].
  - eapply relinked_ring; [done| |done].
    intros x Hx ->%list_elem_of_singleton.
    rewrite app_comm_cons in Hx. apply elem_of_app in Hx as [Hx|Hx].
    + by eapply Hdisj; [done|left|].
    + by apply Hh2.
  - eapply relinked_trans; [done|]. eapply relinked_weaken; [|done]. set_solver.
Qed.

(** ** [merge] *)

Lemma merge_lists_cons l1 b l2 :
  merge_lists l1 (b :: l2) =
  (scan b.2 l1).1 ++
  match (scan b.2 l1).2 with
  | [] => b :: l2
  | _ :: _ => b :: merge_lists (scan b.2 l1).2 l2
  end.
Proof. simpl. by destruct (scan b.2 l1) as [p [|]]. Qed.

Lemma scan_app w l1 : (scan w l1).1 ++ (scan w l1).2 = l1.
Proof.
  induction l1 as [|a l1 IH]; [done|]. simpl. case_decide; [|done].
  destruct (scan w l1) as [p r]. simpl in *. by rewrite IH.
Qed.

Lemma merge_scan_spec m H1 w node2 rest1 : ∀ done fuel,
  queue m H1 (done ++ rest1) → payload m node2 = Some w → length rest1 < fuel →
  merge_scan fuel H1 (hd H1 rest1.*1) node2 m = Ok (hd H1 (scan w rest1).2.*1, m).
Proof.
  induction rest1 as [|[x v] rest1 IH]; intros done fuel Hq Hw Hfuel;
    (destruct fuel as [|fuel]; [simpl in Hfuel; lia|]); simpl merge_scan.
  { simpl. by rewrite decide_True. }
  pose proof (queue_chain _ _ _ Hq) as Hc. rewrite fmap_app, fmap_cons in Hc. simpl in Hc.
  assert (x ≠ H1) by (eapply chain_ne; [done|set_solver]).
  simpl hd. rewrite decide_False by done.
  assert (payload m x = Some v) as Hv by (eapply queue_payload; [done|set_solver]).
  rewrite (load_string_ok _ _ _ _ Hv), (load_string_ok _ _ _ _ Hw).
  simpl scan. case_decide; [|done].
  destruct (chain_at _ _ _ _ _ Hc) as [Hn _]. rewrite (bind_load_next _ _ _ _ Hn).
  rewrite (IH (done ++ [(x, v)]) fuel); [|by rewrite <-app_assoc|done|simpl in *; lia].
  by destruct (scan w rest1).
Qed.

Lemma merge_loop_done m H1 H2 fuel node1 node2 next_node :
  chain m H2 [] → merge_loop (S fuel) H1 H2 node1 node2 next_node m = Ok (tt, m).
Proof.
  intros Hc. simpl. rewrite (list_empty_chain _ _ _ _ Hc). done.
Qed.

Lemma queue_nil m h : ring m [h] → queue m h [].
Proof. by split. Qed.

Lemma merge_loop_spec H1 H2 rest2 : ∀ done rest1 m fuel next_node,
  queue m H1 (done ++ rest1) → queue m H2 rest2 →
  NoDup ((H1 :: (done ++ rest1).*1) ++ H2 :: rest2.*1) →
  length rest1 + length rest2 < fuel →
  ∃ m', merge_loop fuel H1 H2 (hd H1 rest1.*1) (hd H2 rest2.*1) next_node m = Ok (tt, m') ∧
        queue m' H1 (done ++ merge_lists rest1 rest2) ∧ queue m' H2 [] ∧
        relinked ((H1 :: (done ++ rest1).*1) ++ H2 :: rest2.*1) m m'.
Proof.
  induction rest2 as [|[y w] rest2 IH]; intros done rest1 m fuel next_node Hq1 Hq2 Hn Hfuel;
    (destruct fuel as [|fuel]; [simpl in Hfuel; lia|]).
  { rewrite merge_loop_done by apply Hq2. exists m. split; [done|].
    split; [done|]. split; [done|apply relinked_refl]. }
  simpl merge_loop. pose proof (queue_chain _ _ _ Hq2) as Hc2. rewrite fmap_cons in Hc2.
  simpl in Hc2. rewrite (list_empty_chain _ _ _ _ Hc2), bool_decide_eq_false_2 by done.
  simpl hd. assert (payload m y = Some w) as Hw by (eapply queue_payload; [done|left]).
  change (match fuel with 0 => out_of_fuel | S fuel0 => _ end) with
    (merge_scan (S fuel) H1 (hd H1 rest1.*1) y).
  rewrite (bind_ok _ _ _ _ _ (merge_scan_spec m H1 w y rest1 done (S fuel) Hq1 Hw ltac:(lia))).
  pose proof (scan_app w rest1) as Happ. rewrite merge_lists_cons.
  cbn [fst snd] in *. destruct (scan w rest1) as [passed rest].
  cbn [fst snd] in *. subst rest1.
  pose proof (queue_chain _ _ _ Hq1) as Hc1.
  destruct rest as [|[x v] rest].
  - rewrite fmap_nil. cbn [hd]. rewrite decide_True by done. rewrite app_nil_r in *.
    destruct (list_splice_tail_init_ring m H1 (done ++ passed).*1 H2 ((y, w) :: rest2).*1)
      as (m1 & Hrun & Hr1 & Hr2 & Hrel); [done..|].
    rewrite (bind_ok _ _ _ _ _ Hrun).
    destruct fuel as [|fuel]; [simpl in Hfuel; lia|].
    rewrite merge_loop_done by done.
    exists m1. split; [done|]. split; [|split; [by apply queue_nil|done]].
    split.
    + unfold chain. by rewrite app_assoc, (fmap_app _ (done ++ passed)).
    + destruct Hq1 as [_ Hp1]. destruct Hq2 as [_ Hp2].
      rewrite app_assoc. apply Forall_app. split; by eapply payloads_relinked.
  - assert ((done ++ passed ++ (x, v) :: rest).*1 = (done.*1 ++ passed.*1) ++ x :: rest.*1)
      as HL1 by (by rewrite !fmap_app, fmap_cons, app_assoc).
    rewrite (fmap_cons _ _ rest). cbn [hd fst].
    rewrite HL1 in Hc1, Hn |- *. rewrite (fmap_cons _ _ rest2) in Hn |- *. cbn [fst] in Hn |- *.
    set (A := done.*1 ++ passed.*1) in *.
    assert (x ≠ H1) by (eapply chain_ne; [done|set_solver]).
    rewrite decide_False by done.
    destruct (chain_at m H2 [] y rest2.*1 Hc2) as [Hyn _].
    rewrite (bind_load_next _ _ _ _ Hyn).
    destruct (chain_unlink_init m H2 [] y rest2.*1 Hc2) as (m1 & Hdel & Hc2' & Hry & Hrel1).
    rewrite (bind_ok _ _ _ _ _ Hdel).
    change ([] ++ rest2.*1) with rest2.*1 in Hc2'.
    change ([] ++ y :: rest2.*1) with (y :: rest2.*1) in Hrel1.
    assert (∀ a b, a ∈ H1 :: A ++ x :: rest.*1 → b ∈ H2 :: y :: rest2.*1 → a ≠ b) as Hdisj.
    { intros a b Ha Hb. by eapply NoDup_app_ne. }
    assert (chain m1 H1 (A ++ x :: rest.*1)) as Hc1'.
    { eapply relinked_ring; [done| |done]. intros a Ha Hb. by eapply Hdisj. }
    destruct (chain_insert_before m1 H1 A x rest.*1 y Hc1') as (m2 & Hadd & Hc1'' & Hrel2).
    { intros Hin. eapply Hdisj; [done| |done]. set_solver. }
    { eapply (ring_live _ [y]); [done|left]. }
    rewrite (bind_ok _ _ _ _ _ Hadd).
    assert (NoDup (H2 :: y :: rest2.*1)) as Hn2 by (by apply NoDup_app in Hn as (_ & _ & ?)).
    apply NoDup_cons in Hn2 as [HH2 Hn2]. apply NoDup_cons in Hn2 as [Hy Hn2].
    assert (chain m2 H2 rest2.*1) as Hc2''.
    { eapply relinked_ring; [done| |done].
      intros a Ha [->|Hb]%elem_of_cons.
      - apply elem_of_cons in Ha as [->|Ha]; [apply HH2; left|done].
      - eapply Hdisj; [done| |done]. apply elem_of_cons in Ha as [->|Ha]; [left|set_solver]. }
    assert (relinked ((H1 :: A ++ x :: rest.*1) ++ H2 :: y :: rest2.*1) m m2) as Hrel.
    { eapply relinked_trans; eapply relinked_weaken; [|done| |done]; set_solver. }
    destruct Hq1 as [_ Hp1]. destruct Hq2 as [_ Hp2].
    assert ((done ++ passed ++ [(y, w)]) ++ (x, v) :: rest
            = done ++ passed ++ (y, w) :: (x, v) :: rest) as Hcat by (by rewrite <-!app_assoc).
    assert (((done ++ passed ++ [(y, w)]) ++ (x, v) :: rest).*1 = A ++ y :: x :: rest.*1) as HL2.
    { rewrite Hcat. subst A. by rewrite !fmap_app, !fmap_cons, <-app_assoc. }
    destruct (IH (done ++ passed ++ [(y, w)]) ((x, v) :: rest) m2 fuel (hd H2 rest2.*1))
      as (m' & Hrun & Hq1' & Hq2' & Hrel').
    { split; [by rewrite HL2|]. rewrite Hcat. eapply payloads_relinked; [done|].
      apply Forall_app in Hp1 as [Hd Hp1]. apply Forall_app in Hp1 as [Hpa Hr].
      apply Forall_cons in Hp2 as [Hyw _].
      repeat (apply Forall_app; split; try done). by apply Forall_cons. }
    { split; [done|]. eapply payloads_relinked; [done|]. by apply Forall_cons in Hp2 as [_ ?]. }
    { rewrite HL2. apply chain_NoDup in Hc1''. apply NoDup_app. split; [done|split].
      - intros a Ha Hb.
        apply elem_of_cons in Hb as [Heq|Hb].
        + subst a. assert (H2 ∈ H1 :: A ++ x :: rest.*1) as Hin.
          { assert (H2 ≠ y) by (intros Heq; apply HH2; rewrite Heq; left). set_solver. }
          by eapply (Hdisj H2 H2); [done|left|].
        + assert (a ≠ y) by (by intros ->).
          eapply (Hdisj a a); [|by do 2 right|done]. set_solver.
      - apply NoDup_cons. split; [|done]. intros Hin. apply HH2. by right. }
    { rewrite length_app in Hfuel. simpl in *. lia. }
    rewrite fmap_cons in Hrun. simpl hd in Hrun. simpl fst in Hrun.
    exists m'. split; [done|]. split; [by rewrite <-!app_assoc in Hq1'|]. split; [done|].
    eapply relinked_trans; [done|]. eapply relinked_weaken; [|done].
    rewrite HL2. set_solver.
Qed.

(** ** [q_new], [q_insert_head], [q_insert_tail] *)

Lemma q_new_spec (m : gmap nat block) :
  ∃ h m', q_new true m = Ok (h, m') ∧ h ≠ NULL ∧ m !! h = None ∧ queue m' h [] ∧
          (∀ q, q ≠ h → m' !! q = m !! q).
Proof.
  destruct (malloc_fresh m) as [Hnull Hnone]. set (p := fresh ({[NULL]} ∪ dom m)) in *.
  destruct (INIT_LIST_HEAD_ring (<[p := Sentinel junk]> m) p) as (m' & Hrun & Hring & [Hrel _]).
  { unfold live, get_links. rewrite decide_False by done. rewrite lookup_insert_eq. by eexists. }
  exists p, m'. split; [|split; [done|split; [done|split; [by apply queue_nil|]]]].
  - unfold q_new, malloc. unfold bind at 1. fold p. rewrite decide_False by done.
    unfold bind. by rewrite Hrun.
  - intros q Hq. rewrite Hrel by set_solver. by rewrite lookup_insert_ne.
Qed.

Lemma q_new_fail (m : gmap nat block) : q_new false m = Ok (NULL, m).
Proof. done. Qed.

(** The new element, allocated, its string copied, before it is linked. *)
Lemma new_element_spec (m : gmap nat block) s h vs (k : nat → M bool) :
  queue m h vs →
  let p := fresh ({[NULL]} ∪ dom m) in
  let m1 := <[p := Element (Some s) junk]> m in
  (p ∉ h :: vs.*1) ∧ live m1 p ∧ payload m1 p = Some s ∧ queue m1 h vs ∧ m !! p = None ∧
  (let* new := malloc true (Element None junk) in
   if decide (new = NULL) then ret false
   else
     store_value new (strdup true s);;
     let* null := value_is_null new in
     if null then free new;; ret false
     else k new) m = k p m1.
Proof.
  intros Hq p m1. destruct (malloc_fresh m) as [Hnull Hnone]. fold p in Hnull, Hnone.
  assert (p ∉ h :: vs.*1) as Hout.
  { intros Hin. eapply chain_live, live_lookup in Hin as [? ?]; [|apply Hq]. congruence. }
  split; [done|]. split; [|split; [|split; [|split; [done|]]]].
  - unfold live, get_links, m1. rewrite decide_False by done. rewrite lookup_insert_eq. by eexists.
  - unfold payload, m1. rewrite decide_False by done. by rewrite lookup_insert_eq.
  - apply (queue_agree m); [|done]. intros x Hx. unfold m1. rewrite lookup_insert_ne; [done|].
    by intros ->.
  - unfold bind at 1, malloc. fold p. rewrite decide_False by done.
    unfold bind at 1, store_value. rewrite decide_False by done. rewrite lookup_insert_eq.
    rewrite insert_insert_eq. fold m1.
    unfold bind at 1, value_is_null. rewrite decide_False by done.
    unfold m1 at 1. rewrite lookup_insert_eq. simpl. done.
Qed.

Lemma q_insert_tail_ok m h vs s :
  queue m h vs →
  ∃ p m', q_insert_tail true true h s m = Ok (true, m') ∧ queue m' h (vs ++ [(p, s)]) ∧
          m !! p = None ∧ (∀ q, q ∉ p :: h :: vs.*1 → m' !! q = m !! q).
Proof.
  intros Hq. assert (h ≠ NULL) by (eapply chain_not_null; [apply Hq|left]).
  unfold q_insert_tail. rewrite decide_False by done.
  edestruct (new_element_spec m s h vs) as (Hout & Hlive & Hpay & Hq1 & Hnone & Hrun);
    [done|]. rewrite Hrun. clear Hrun.
  set (p := fresh ({[NULL]} ∪ dom m)) in *. set (m1 := <[p := Element (Some s) junk]> m) in *.
  destruct (chain_push_back m1 h vs.*1 p) as (m2 & Hadd & Hc2 & Hrel); [apply Hq1|done..|].
  rewrite (bind_ok _ _ _ _ _ Hadd). exists p, m2. split; [done|]. split; [|split; [done|]].
  - split; [by rewrite fmap_app|]. eapply payloads_relinked; [done|].
    apply Forall_app. split; [apply Hq1|]. by apply Forall_singleton.
  - intros q Hq0. destruct Hrel as [Hrel _]. rewrite Hrel by done.
    unfold m1. rewrite lookup_insert_ne; [done|]. set_solver.
Qed.

Lemma q_insert_head_ok m h vs s :
  queue m h vs →
  ∃ p m', q_insert_head true true h s m = Ok (true, m') ∧ queue m' h ((p, s) :: vs) ∧
          m !! p = None ∧ (∀ q, q ∉ p :: h :: vs.*1 → m' !! q = m !! q).
Proof.
  intros Hq. assert (h ≠ NULL) by (eapply chain_not_null; [apply Hq|left]).
  unfold q_insert_head. rewrite decide_False by done.
  edestruct (new_element_spec m s h vs) as (Hout & Hlive & Hpay & Hq1 & Hnone & Hrun);
    [done|]. rewrite Hrun. clear Hrun.
  set (p := fresh ({[NULL]} ∪ dom m)) in *. set (m1 := <[p := Element (Some s) junk]> m) in *.
  destruct (chain_push_front m1 h vs.*1 p) as (m2 & Hadd & Hc2 & Hrel); [apply Hq1|done..|].
  rewrite (bind_ok _ _ _ _ _ Hadd). exists p, m2. split; [done|]. split; [|split; [done|]].
  - split; [done|]. eapply payloads_relinked; [done|].
    apply Forall_cons. split; [done|apply Hq1].
  - intros q Hq0. destruct Hrel as [Hrel _]. rewrite Hrel by done.
    unfold m1. rewrite lookup_insert_ne; [done|]. set_solver.
Qed.

(** A failed insertion: the heap that comes back is the heap that went in. *)
Lemma q_insert_fail ok_elem ok_str h s (m : gmap nat block) :
  h = NULL ∨ ok_elem = false ∨ ok_str = false →
  q_insert_head ok_elem ok_str h s m = Ok (false, m) ∧
  q_insert_tail ok_elem ok_str h s m = Ok (false, m).
Proof.
  intros Hfail. unfold q_insert_head, q_insert_tail.
  destruct (decide (h = NULL)) as [|Hh]; [done|].
  destruct ok_elem; [|done].
  destruct Hfail as [?|[?| ->]]; [done..|].
  destruct (malloc_fresh m) as [Hnull Hnone]. set (p := fresh ({[NULL]} ∪ dom m)) in *.
  assert (∀ k : M bool,
    (let* new := malloc true (Element None junk) in
     if decide (new = NULL) then ret false
     else
       store_value new (strdup false s);;
       let* null := value_is_null new in
       if null then free new;; ret false
       else k) m = Ok (false, m)) as Hrun.
  { intros k. unfold bind at 1, malloc. fold p. rewrite decide_False by done.
    unfold bind at 1, store_value. rewrite decide_False by done. rewrite lookup_insert_eq.
    rewrite insert_insert_eq.
    unfold bind at 1, value_is_null. rewrite decide_False by done.
    rewrite lookup_insert_eq. simpl.
    unfold bind, free. rewrite decide_False by done. rewrite lookup_insert_eq.
    unfold ret. by rewrite delete_insert_id. }
  split; apply Hrun.
Qed.

(** ** [q_remove_head], [q_remove_tail] *)

Lemma size_sub1_pos bufsize : (1 ≤ bufsize ≤ SIZE_MAX)%Z → size_sub1 bufsize = (bufsize - 1)%Z.
Proof. intros ?. unfold size_sub1. apply Z.mod_small. unfold SIZE_MAX in *. lia. Qed.

Lemma length_strncpy_bytes v n : length (strncpy_bytes v n) = n.
Proof. unfold strncpy_bytes. rewrite length_take, length_app, length_replicate. lia. Qed.

Lemma copy_out_null e bufsize (m : gmap nat block) : copy_out e NULL bufsize m = Ok (tt, m).
Proof. done. Qed.

Lemma copy_out_ok (m : gmap nat block) e v sp bufsize bs :
  sp ≠ NULL → payload m e = Some v → m !! sp = Some (Buffer bs) →
  (1 ≤ bufsize ≤ SIZE_MAX)%Z → (bufsize ≤ Z.of_nat (length bs))%Z →
  copy_out e sp bufsize m = Ok (tt, <[sp := Buffer (copied v bufsize bs)]> m).
Proof.
  intros Hsp Hv Hbs Hb1 Hb2. unfold copy_out. rewrite decide_False by done.
  rewrite (load_string_ok _ _ _ _ Hv). rewrite size_sub1_pos by done.
  unfold bind at 1, strncpy. rewrite decide_False by done. rewrite Hbs.
  rewrite decide_True by lia.
  unfold store_byte. rewrite decide_False by done. rewrite lookup_insert_eq.
  rewrite decide_True.
  - by rewrite insert_insert_eq.
  - rewrite length_app, length_strncpy_bytes, length_drop. lia.
Qed.

(** Whatever [copy_out] is given, it writes to a buffer and nowhere else. *)
Lemma copy_out_frame (m m' : gmap nat block) e sp bufsize :
  copy_out e sp bufsize m = Ok (tt, m') →
  ∀ q, m' !! q = m !! q ∨ ∃ bs bs', m !! q = Some (Buffer bs) ∧ m' !! q = Some (Buffer bs').
Proof.
  unfold copy_out. case_decide; [by intros [= <-]; left|].
  unfold bind at 1, load_string. destruct (payload m e); [|done].
  unfold bind at 1, strncpy. rewrite decide_False by done.
  destruct (m !! sp) as [[| |bs]|] eqn:Hsp; try done. case_decide; [|done].
  unfold store_byte. rewrite decide_False by done. rewrite lookup_insert_eq.
  case_decide; [|done]. intros [= <-] q. rewrite insert_insert_eq.
  destruct (decide (q = sp)) as [->|].
  - right. rewrite lookup_insert_eq. eauto.
  - left. by rewrite lookup_insert_ne.
Qed.

Lemma live_not_buffer (m : gmap nat block) q bs : live m q → m !! q ≠ Some (Buffer bs).
Proof. unfold live, get_links. case_decide; [by intros []|]. intros [? H1] H2. by rewrite H2 in H1. Qed.


Lemma queue_buffers (m m' : gmap nat block) h vs :
  (∀ q, m' !! q = m !! q ∨ ∃ bs bs', m !! q = Some (Buffer bs) ∧ m' !! q = Some (Buffer bs')) →
  queue m h vs → queue m' h vs.
Proof.
  intros Hfr Hq. apply (queue_agree m); [|done]. intros x Hx.
  destruct (Hfr x) as [?|(bs & bs' & Hb & _)]; [done|].
  exfalso. eapply live_not_buffer; [|done]. by eapply chain_live; [apply Hq|].
Qed.

Lemma q_remove_head_unlink m h x v vs sp bufsize :
  queue m h ((x, v) :: vs) →
  ∃ m1, q_remove_head h sp bufsize m = (copy_out x sp bufsize;; ret x) m1 ∧
        queue m1 h vs ∧ payload m1 x = Some v ∧ ring m1 [x] ∧
        relinked (h :: x :: vs.*1) m m1.
Proof.
  intros Hq. pose proof (queue_chain _ _ _ Hq) as Hc. rewrite fmap_cons in Hc. cbn [fst] in Hc.
  assert (h ≠ NULL) by (eapply chain_not_null; [done|left]).
  unfold q_remove_head. rewrite decide_False by done.
  rewrite (list_empty_chain _ _ _ _ Hc), bool_decide_eq_false_2 by done.
  destruct (chain_head _ _ _ Hc) as [Hn _]. rewrite (bind_load_next _ _ _ _ Hn). cbn [hd].
  destruct (chain_unlink_init m h [] x vs.*1 Hc) as (m1 & Hdel & Hc1 & Hrx & Hrel).
  rewrite (bind_ok _ _ _ _ _ Hdel). exists m1. split; [done|].
  destruct Hq as [_ Hp]. apply Forall_cons in Hp as [Hpx Hp].
  split; [split; [done|by eapply payloads_relinked]|].
  split; [by rewrite (relinked_payload _ _ _ _ Hrel)|]. done.
Qed.

Lemma last_snoc (d x : nat) l : List.last (l ++ [x]) d = x.
Proof. apply last_last. Qed.

Lemma q_remove_tail_unlink m h x v vs sp bufsize :
  queue m h (vs ++ [(x, v)]) →
  ∃ m1, q_remove_tail h sp bufsize m = (copy_out x sp bufsize;; ret x) m1 ∧
        queue m1 h vs ∧ payload m1 x = Some v ∧ ring m1 [x] ∧
        relinked (h :: vs.*1 ++ [x]) m m1.
Proof.
  intros Hq. pose proof (queue_chain _ _ _ Hq) as Hc. rewrite fmap_app in Hc.
  change ([(x, v)].*1) with [x] in Hc.
  assert (h ≠ NULL) by (eapply chain_not_null; [done|left]).
  unfold q_remove_tail. rewrite decide_False by done.
  rewrite (list_empty_chain _ _ _ _ Hc), bool_decide_eq_false_2 by (by destruct (vs.*1)).
  destruct (chain_head _ _ _ Hc) as [_ Hp]. rewrite last_snoc in Hp.
  rewrite (bind_load_prev _ _ _ _ Hp).
  destruct (chain_unlink_init m h vs.*1 x [] Hc) as (m1 & Hdel & Hc1 & Hrx & Hrel).
  rewrite (bind_ok _ _ _ _ _ Hdel). exists m1. split; [done|].
  rewrite app_nil_r in Hc1.
  destruct Hq as [_ Hpl]. apply Forall_app in Hpl as [Hpl Hpx]. rewrite Forall_singleton in Hpx.
  split; [split; [done|by eapply payloads_relinked]|].
  split; [by rewrite (relinked_payload _ _ _ _ Hrel)|]. done.
Qed.

Lemma q_remove_empty m h sp bufsize :
  queue m h [] →
  q_remove_head h sp bufsize m = Ok (NULL, m) ∧ q_remove_tail h sp bufsize m = Ok (NULL, m).
Proof.
  intros [Hc _]. assert (h ≠ NULL) by (eapply chain_not_null; [done|left]).
  unfold q_remove_head, q_remove_tail. rewrite !decide_False by done.
  by rewrite !(list_empty_chain _ _ _ _ Hc).
Qed.

Lemma copied_content v bufsize bs :
  (1 ≤ bufsize ≤ Z.of_nat (length bs))%Z →
  let k := length (list_ascii_of_string v) `min` Z.to_nat (bufsize - 1) in
  take k (copied v bufsize bs) = take k (list_ascii_of_string v) ∧
  copied v bufsize bs !! k = Some NUL ∧
  length (copied v bufsize bs) = length bs.
Proof.
  intros Hb k. unfold copied. set (n := Z.to_nat (bufsize - 1)) in *.
  assert (n < length bs) by lia.
  assert (length (strncpy_bytes v n ++ drop n bs) = length bs) as Hlen.
  { rewrite length_app, length_strncpy_bytes, length_drop. lia. }
  split; [|split].
  - rewrite take_insert_ge by lia. rewrite take_app_le by (rewrite length_strncpy_bytes; lia).
    unfold strncpy_bytes. rewrite take_take. replace (k `min` n) with k by lia.
    rewrite take_app_le by lia. done.
  - destruct (decide (k = n)) as [->|Hne].
    + apply list_lookup_insert_eq. lia.
    + rewrite list_lookup_insert_ne by done.
      rewrite lookup_app_l by (rewrite length_strncpy_bytes; lia).
      unfold strncpy_bytes. rewrite lookup_take_lt by lia.
      rewrite lookup_app_r by lia. apply lookup_replicate_2. lia.
  - by rewrite length_insert.
Qed.

(** ** [q_size] *)

Lemma q_size_loop_spec m h todo : ∀ done fuel count,
  chain m h (done ++ todo) → length todo < fuel →
  (count + Z.of_nat (length todo) ≤ INT_MAX)%Z →
  q_size_loop fuel h (hd h todo) count m = Ok ((count + Z.of_nat (length todo))%Z, m).
Proof.
  induction todo as [|x todo IH]; intros done fuel count Hc Hfuel Hmax;
    (destruct fuel as [|fuel]; [simpl in Hfuel; lia|]); simpl q_size_loop.
  { rewrite decide_True by done. unfold ret. do 2 f_equal. simpl. lia. }
  cbn [hd]. assert (x ≠ h) by (eapply chain_ne; [done|set_solver]).
  rewrite decide_False by done. rewrite decide_False by (simpl in Hmax; lia).
  destruct (chain_at _ _ _ _ _ Hc) as [Hn _]. rewrite (bind_load_next _ _ _ _ Hn).
  rewrite (IH (done ++ [x])); [|by rewrite <-app_assoc|simpl in *; lia|simpl in *; lia].
  do 2 f_equal. simpl. lia.
Qed.

Lemma q_size_spec m h l fuel :
  chain m h l → length l < fuel → (Z.of_nat (length l) ≤ INT_MAX)%Z →
  q_size fuel h m = Ok (Z.of_nat (length l), m).
Proof.
  intros Hc Hfuel Hmax. assert (h ≠ NULL) by (eapply chain_not_null; [done|left]).
  unfold q_size. rewrite decide_False by done.
  rewrite (list_empty_chain _ _ _ _ Hc). case_bool_decide; [by subst|].
  destruct (chain_head _ _ _ Hc) as [Hn _]. rewrite (bind_load_next _ _ _ _ Hn).
  by rewrite (q_size_loop_spec m h l [] fuel 0).
Qed.

(** ** [q_delete_mid] *)

Lemma mid_lt n : n ≠ 0 → (n - 1) / 2 < n.
Proof. intros. apply Nat.Div0.div_lt_upper_bound. lia. Qed.

Lemma mid_split_ne (l : list nat) :
  l ≠ [] →
  ∃ A x B, l = A ++ x :: B ∧ l !! ((length l - 1) / 2) = Some x ∧
           length A = (length l - 1) / 2.
Proof.
  intros Hne. set (k := (length l - 1) / 2).
  assert (k < length l) as Hk.
  { subst k. apply mid_lt. by destruct l. }
  destruct (lookup_lt_is_Some_2 l k Hk) as [x Hx].
  exists (take k l), x, (drop (S k) l). split; [|split; [done|]].
  - by rewrite take_drop_middle.
  - rewrite length_take. lia.
Qed.

Lemma q_delete_mid_spec m h vs fuel :
  queue m h vs → vs ≠ [] →
  (q_delete_mid fuel h m = OutOfFuel ∨
   ∃ m', q_delete_mid fuel h m = Ok (true, m') ∧
         queue m' h (delete ((length vs - 1) / 2) vs) ∧
         (∀ x, vs.*1 !! ((length vs - 1) / 2) = Some x → m' !! x = None) ∧
         (∀ q, q ∉ h :: vs.*1 → m' !! q = m !! q)) ∧
  (length vs ≤ 2 * fuel → q_delete_mid fuel h m ≠ OutOfFuel).
Proof.
  intros Hq Hne. pose proof (queue_chain _ _ _ Hq) as Hc.
  assert (h ≠ NULL) by (eapply chain_not_null; [done|left]).
  unfold q_delete_mid. rewrite decide_False by done.
  rewrite (list_empty_chain _ _ _ _ Hc).
  rewrite bool_decide_eq_false_2 by (by destruct vs).
  set (k := (length vs - 1) / 2).
  assert (k < length vs) as Hk.
  { subst k. apply mid_lt. by destruct vs. }
  destruct (lookup_lt_is_Some_2 vs k Hk) as [[x v] Hx].
  assert (vs.*1 !! ((length vs.*1 - 1) / 2) = Some x) as Hx1.
  { rewrite length_fmap. fold k. by rewrite list_lookup_fmap, Hx. }
  destruct (q_get_mid_spec m h vs.*1 fuel x Hc Hx1) as [Hmid Hmid'].
  rewrite length_fmap in Hmid'.
  assert (q_get_mid fuel h m = Ok (x, m) →
    ∃ m', (let* mid := q_get_mid fuel h in list_del mid;; q_release_element mid;; ret true) m
          = Ok (true, m') ∧
          queue m' h (delete k vs) ∧ (∀ y, vs.*1 !! k = Some y → m' !! y = None) ∧
          (∀ q, q ∉ h :: vs.*1 → m' !! q = m !! q)) as Hstep.
  { intros Hrun. rewrite (bind_ok _ _ _ _ _ Hrun).
    pose proof (take_drop_middle _ _ _ Hx) as Hsplit.
    rewrite <-Hsplit in Hq, Hc. rewrite fmap_app, fmap_cons in Hc. cbn [fst] in Hc.
    destruct (chain_unlink _ _ _ _ _ Hc) as (m1 & Hdel & Hc1 & Hrel).
    rewrite (bind_ok _ _ _ _ _ Hdel).
    assert (payload m x = Some v) as Hv by (eapply queue_payload; [done|set_solver]).
    assert (payload m1 x = Some v) as Hv1 by (by rewrite (relinked_payload _ _ _ _ Hrel)).
    unfold bind at 1. rewrite (q_release_element_ok _ _ _ Hv1).
    assert (x ∉ h :: (take k vs).*1 ++ (drop (S k) vs).*1) as Hxout.
    { apply chain_NoDup in Hc. rewrite app_comm_cons in Hc.
      apply NoDup_app in Hc as (_ & Hd & Hn). apply NoDup_cons in Hn as [Hn _].
      rewrite app_comm_cons. intros [Hin|Hin]%elem_of_app; [|done].
      eapply Hd; [done|left]. }
    exists (delete x m1). split; [done|]. rewrite delete_take_drop.
    split; [|split].
    - apply (queue_agree m1).
      + intros a Ha. rewrite lookup_delete_ne; [done|]. intros ->. apply Hxout.
        by rewrite fmap_app in Ha.
      + split; [by rewrite fmap_app|].
        destruct Hq as [_ Hp]. eapply payloads_relinked; [done|].
        apply Forall_app in Hp as [Hp1 Hp2]. apply Forall_cons in Hp2 as [_ Hp2].
        apply Forall_app. done.
    - intros y Hy. rewrite list_lookup_fmap, Hx in Hy. injection Hy as <-.
      apply lookup_delete_eq.
    - intros q Hq0. rewrite <-Hsplit in Hq0. rewrite fmap_app, fmap_cons in Hq0. cbn [fst] in Hq0.
      rewrite lookup_delete_ne by set_solver.
      destruct Hrel as [Hrel _]. apply Hrel. set_solver. }
  split.
  - destruct Hmid as [Hmid|Hmid].
    + left. unfold bind at 1. by rewrite Hmid.
    + right. destruct (Hstep Hmid) as (m' & ? & ? & ? & ?). eauto.
  - intros Hfuel. destruct (Hstep (Hmid' Hfuel)) as (m' & -> & _). done.
Qed.

(** ** [q_delete_dup], [q_swap], [merge] from their entry points *)

Lemma q_delete_dup_spec m h vs fuel :
  queue m h vs → length vs < fuel →
  ∃ m', q_delete_dup fuel h m = Ok (true, m') ∧ queue m' h (dedup vs) ∧
        (∀ x, x ∈ vs → x ∉ dedup vs → m' !! x.1 = None) ∧
        (∀ q, q ∉ h :: vs.*1 → m' !! q = m !! q).
Proof.
  intros Hq Hfuel. pose proof (queue_chain _ _ _ Hq) as Hc.
  assert (h ≠ NULL) by (eapply chain_not_null; [done|left]).
  unfold q_delete_dup. rewrite decide_False by done.
  destruct (chain_head _ _ _ Hc) as [Hn _]. rewrite (bind_load_next _ _ _ _ Hn).
  assert (is_Some (get_next m (hd h vs.*1))) as [s Hs].
  { apply live_get_next. eapply chain_live; [done|]. destruct (vs.*1); set_solver. }
  rewrite (bind_load_next _ _ _ _ Hs).
  destruct (q_delete_dup_loop_spec h vs [] m fuel (hd h vs.*1) s) as (m' & Hrun & ?); [done..|].
  rewrite (bind_ok _ _ _ _ _ Hrun). by exists m'.
Qed.

Lemma q_swap_spec m h l fuel :
  chain m h l → length l < 2 * fuel →
  ∃ m', q_swap fuel h m = Ok (tt, m') ∧ chain m' h (swap_pairs l) ∧ relinked (h :: l) m m'.
Proof.
  intros Hc Hfuel. unfold q_swap.
  destruct (chain_head _ _ _ Hc) as [Hn _]. rewrite (bind_load_next _ _ _ _ Hn).
  assert (is_Some (get_next m (hd h l))) as [s Hs].
  { apply live_get_next. eapply chain_live; [done|]. destruct l; set_solver. }
  rewrite (bind_load_next _ _ _ _ Hs).
  by apply (q_swap_loop_spec h fuel l []).
Qed.

Lemma merge_spec m H1 H2 l1 l2 fuel :
  queue m H1 l1 → queue m H2 l2 → NoDup ((H1 :: l1.*1) ++ H2 :: l2.*1) →
  length l1 + length l2 < fuel →
  ∃ m', merge fuel H1 H2 m = Ok (tt, m') ∧
        queue m' H1 (merge_lists l1 l2) ∧ queue m' H2 [] ∧
        relinked ((H1 :: l1.*1) ++ H2 :: l2.*1) m m'.
Proof.
  intros Hq1 Hq2 Hn Hfuel. unfold merge.
  destruct (chain_head _ _ _ (queue_chain _ _ _ Hq1)) as [Hn1 _].
  destruct (chain_head _ _ _ (queue_chain _ _ _ Hq2)) as [Hn2 _].
  rewrite (bind_load_next _ _ _ _ Hn1), (bind_load_next _ _ _ _ Hn2).
  by apply (merge_loop_spec H1 H2 l2 [] l1).
Qed.

(** ** The order of [strcmp], and [merge] on sorted lists *)

Lemma nat_of_ascii_inj c1 c2 : nat_of_ascii c1 = nat_of_ascii c2 → c1 = c2.
Proof.
  intros H. rewrite <-(ascii_nat_embedding c1), <-(ascii_nat_embedding c2). by rewrite H.
Qed.

Lemma strcmp_flip s1 s2 : strcmp s2 s1 = (- strcmp s1 s2)%Z.
Proof.
  revert s2. induction s1 as [|c1 s1 IH]; intros [|c2 s2]; simpl; try lia.
  repeat case_decide; subst; try done; lia.
Qed.

Lemma le_str_trans s1 s2 s3 : le_str s1 s2 → le_str s2 s3 → le_str s1 s3.
Proof.
  unfold le_str. revert s2 s3.
  induction s1 as [|c1 s1 IH]; intros [|c2 s2] [|c3 s3]; simpl; try lia.
  repeat case_decide; subst; try done; try lia; eauto.
  intros H12 H23. exfalso.
  assert (nat_of_ascii c3 = nat_of_ascii c2) as Heq%nat_of_ascii_inj by lia. done.
Qed.

Lemma le_str_refl s : le_str s s.
Proof. unfold le_str. induction s; simpl; [done|]. by rewrite decide_True. Qed.

Lemma le_str_total s1 s2 : le_str s1 s2 ∨ le_str s2 s1.
Proof. unfold le_str. rewrite (strcmp_flip s1 s2). lia. Qed.

Lemma scan_spec w l1 :
  Forall (λ a, strcmp a.2 w < 0)%Z (scan w l1).1 ∧
  match (scan w l1).2 with
  | [] => True
  | a :: _ => le_str w a.2
  end.
Proof.
  induction l1 as [|a l1 [IH1 IH2]]; [done|]. simpl. case_decide as Hlt.
  - destruct (scan w l1) as [p r]. simpl in *. split; [by constructor|done].
  - simpl. split; [done|]. unfold le_str. rewrite strcmp_flip. lia.
Qed.

Lemma merge_lists_Permutation l2 : ∀ l1, merge_lists l1 l2 ≡ₚ l1 ++ l2.
Proof.
  induction l2 as [|b l2 IH]; intros l1; [by rewrite app_nil_r|].
  rewrite merge_lists_cons. rewrite <-(scan_app b.2 l1) at 3.
  destruct (scan b.2 l1).2 as [|a r]; [by rewrite app_nil_r|].
  rewrite IH, <-(assoc_L (++)). f_equiv. by rewrite <-Permutation_middle.
Qed.

Lemma merge_lists_sorted l2 : ∀ l1,
  StronglySorted le_elem l1 → StronglySorted le_elem l2 →
  StronglySorted le_elem (merge_lists l1 l2).
Proof.
  induction l2 as [|b l2 IH]; intros l1 H1 H2; [done|].
  rewrite merge_lists_cons. apply StronglySorted_cons in H2 as [Hb H2].
  rewrite Forall_forall in Hb.
  destruct (scan_spec b.2 l1) as [Hp Hr]. rewrite Forall_forall in Hp.
  rewrite <-(scan_app b.2 l1) in H1.
  apply StronglySorted_app in H1 as (Hcross & H1p & H1r).
  assert (∀ x, x ∈ (scan b.2 l1).1 → le_elem x b) as Hpb.
  { intros x Hx%Hp. unfold le_elem, le_str. lia. }
  destruct (scan b.2 l1).2 as [|a r] eqn:Hscan.
  - apply StronglySorted_app_2; [|done|by apply StronglySorted_cons; rewrite Forall_forall].
    intros x1 x2 Hx1 [->|Hx2]%elem_of_cons; [by apply Hpb|].
    eapply le_str_trans; [by apply Hpb|by apply Hb].
  - assert (∀ y, y ∈ merge_lists (a :: r) l2 → le_elem b y) as Hby.
    { intros y. rewrite merge_lists_Permutation. intros [Hy|Hy]%elem_of_app; [|by apply Hb].
      apply StronglySorted_cons in H1r as [Ha _]. rewrite Forall_forall in Ha.
      apply elem_of_cons in Hy as [->|Hy]; [done|].
      eapply le_str_trans; [exact Hr|by apply Ha]. }
    apply StronglySorted_app_2; [|done|].
    + intros x1 x2 Hx1 [->|Hx2]%elem_of_cons; [by apply Hpb|].
      eapply le_str_trans; [by apply Hpb|by apply Hby].
    + apply StronglySorted_cons. rewrite Forall_forall. split; [done|by apply IH].
Qed.

Lemma sorted_elems (vs : list (nat * string)) :
  StronglySorted le_str vs.*2 → StronglySorted le_elem vs.
Proof.
  induction vs as [|a vs IH]; [constructor|]. rewrite fmap_cons.
  intros [Ha Hs]%StronglySorted_cons. apply StronglySorted_cons. split; [|by apply IH].
  rewrite Forall_fmap in Ha. done.
Qed.

(** ** [q_sort] over a split that moves the nodes through the middle one *)

Lemma free_ok m p b : p ≠ NULL → m !! p = Some b → free p m = Ok (tt, delete p m).
Proof. intros Hp Hb. unfold free. rewrite decide_False by done. by rewrite Hb. Qed.

(** A local sentinel that came and went leaves the frame as it was. *)
Lemma relinked_local S (m m1 m5 : gmap nat block) h2 :
  m !! h2 = None → (∀ q, q ≠ h2 → m1 !! q = m !! q) →
  relinked (h2 :: S) m1 m5 → relinked S m (delete h2 m5).
Proof.
  intros Hnone Hag [Hout Hstrip]. split; intros q; destruct (decide (q = h2)) as [->|Hq].
  - by rewrite lookup_delete_eq.
  - intros Hin. rewrite lookup_delete_ne, Hout, Hag by set_solver. done.
  - by rewrite lookup_delete_eq, Hnone.
  - by rewrite lookup_delete_ne, Hstrip, Hag.
Qed.

Lemma halves_apart (h h2 x : nat) A B :
  NoDup (h :: A ++ x :: B) → h2 ∉ h :: A ++ x :: B →
  (∀ q, q ∈ h2 :: A ++ [x] → q ∉ h :: B) ∧
  (∀ q, q ∈ h :: B → q ∉ h2 :: A ++ [x]) ∧
  h :: B ⊆ h2 :: h :: A ++ x :: B ∧
  h2 :: A ++ [x] ⊆ h2 :: h :: A ++ x :: B ∧
  (h :: B) ++ h2 :: A ++ [x] ⊆ h2 :: h :: A ++ x :: B.
Proof.
  intros [Hh Hn]%NoDup_cons Hh2.
  rewrite (cons_middle x), (assoc_L (++)) in Hn. apply NoDup_app in Hn as (_ & Hd & _).
  set_solver.
Qed.

Lemma q_sort_spec cut : cuts_through cut → ∀ fuel m h vs,
  queue m h vs → length vs < fuel →
  ∃ m' vs', q_sort cut fuel h m = Ok (tt, m') ∧ queue m' h vs' ∧
            vs' ≡ₚ vs ∧ StronglySorted le_elem vs' ∧ relinked (h :: vs.*1) m m'.
Proof.
  intros Hcuts. induction fuel as [|fuel IH]; intros m h vs Hq Hfuel; [lia|].
  pose proof (queue_chain _ _ _ Hq) as Hc.
  assert (h ≠ NULL) as Hh by (eapply chain_not_null; [done|left]).
  simpl. rewrite decide_False by done.
  rewrite (list_empty_chain _ _ _ _ Hc).
  case_bool_decide as Hnil.
  { exists m, vs. apply fmap_nil_inv in Hnil as ->.
    split; [done|]. split; [done|]. split; [done|]. split; [constructor|apply relinked_refl]. }
  rewrite (list_is_singular_chain _ _ _ _ Hc).
  case_bool_decide as Hone.
  { exists m, vs. destruct vs as [|a [|]]; try done.
    split; [done|]. split; [done|]. split; [done|].
    split; [repeat constructor|apply relinked_refl]. }
  assert (2 ≤ length vs) as Hlen.
  { rewrite length_fmap in Hone. destruct vs as [|? [|]]; simpl in *; try done; lia. }
  destruct (LIST_HEAD_spec m) as (h2 & m1 & Hrun1 & Hfresh & Hring2 & Hag).
  rewrite (bind_ok _ _ _ _ _ Hrun1).
  assert (h2 ∉ h :: vs.*1) as Hh2.
  { intros Hin. eapply chain_live, live_lookup in Hin as [? ?]; [|done]. congruence. }
  assert (queue m1 h vs) as Hq1.
  { eapply queue_agree; [|done]. intros x Hx. apply Hag. by intros ->. }
  destruct (mid_split vs Hlen) as (VA & xv & VB & Hvs & Hx & HA & HB).
  pose proof (queue_chain _ _ _ Hq1) as Hc1.
  assert (vs.*1 !! ((length vs.*1 - 1) / 2) = Some xv.1) as Hx1.
  { by rewrite length_fmap, list_lookup_fmap, Hx. }
  destruct (q_get_mid_spec m1 h _ (S fuel) xv.1 Hc1 Hx1) as [_ Hmid].
  rewrite (bind_ok _ _ _ _ _ (Hmid ltac:(rewrite length_fmap; lia))).
  clear Hx Hx1 Hmid Hnil Hone HA. subst vs. rewrite length_app in *. simpl in HB, Hfuel, Hlen.
  rewrite fmap_app, fmap_cons in Hc1, Hh2, Hc |- *.
  destruct (Hcuts m1 h h2 VA.*1 xv.1 VB.*1 Hc1 Hring2 Hh2) as (m2 & Hcut & Hc2A & Hc2B & Hrel12).
  rewrite (bind_ok _ _ _ _ _ Hcut).
  destruct Hq1 as [_ Hpay1]. apply Forall_app in Hpay1 as [HpayA HpayB].
  apply Forall_cons in HpayB as [Hpayx HpayB].
  assert (queue m2 h VB) as Hq2B.
  { split; [done|]. by eapply payloads_relinked. }
  assert (queue m2 h2 (VA ++ [xv])) as Hq2A.
  { split; [by rewrite fmap_app|]. eapply payloads_relinked; [done|].
    apply Forall_app. split; [done|]. by constructor. }
  destruct (IH m2 h VB Hq2B) as (m3 & VB' & Hrun3 & Hq3B & HpB & HsB & Hrel23); [lia|].
  rewrite (bind_ok _ _ _ _ _ Hrun3).
  destruct (halves_apart h h2 xv.1 VA.*1 VB.*1 (chain_NoDup _ _ _ Hc) Hh2) as (Hsep1 & Hsep2 & Hsub1 & Hsub2 & Hsub3).
  assert (queue m3 h2 (VA ++ [xv])) as Hq3A.
  { eapply queue_agree; [|done]. intros q Hin. apply Hrel23.
    rewrite fmap_app in Hin. by apply Hsep1. }
  destruct (IH m3 h2 _ Hq3A) as (m4 & VA' & Hrun4 & Hq4A & HpA & HsA & Hrel34);
    [rewrite length_app; simpl; lia|].
  rewrite (bind_ok _ _ _ _ _ Hrun4).
  rewrite fmap_app in Hrel34. simpl in Hrel34.
  assert (queue m4 h VB') as Hq4B.
  { eapply queue_agree; [|done]. intros q Hin. apply Hrel34, Hsep2. by rewrite <-HpB. }
  destruct (merge_spec m4 h h2 VB' VA' (S fuel) Hq4B Hq4A) as (m5 & Hrun5 & Hq5 & Hq5' & Hrel45).
  { apply NoDup_app. split; [apply (chain_NoDup m4), Hq4B|].
    split; [|apply (chain_NoDup m4), Hq4A].
    intros q Hin. rewrite HpA, fmap_app. apply Hsep2. by rewrite <-HpB. }
  { rewrite HpA, HpB, length_app. simpl. lia. }
  rewrite (bind_ok _ _ _ _ _ Hrun5).
  assert (h2 ≠ NULL ∧ is_Some (m5 !! h2)) as [Hh2n [b2 Hb2]].
  { assert (live m5 h2) by (eapply chain_live; [apply Hq5'|left]).
    split; [by eapply live_not_null|by apply live_lookup]. }
  rewrite (free_ok _ _ _ Hh2n Hb2).
  assert (merge_lists VB' VA' ≡ₚ VA ++ xv :: VB) as Hperm.
  { rewrite merge_lists_Permutation, HpA, HpB.
    rewrite (Permutation_app_comm VB). by rewrite <-(assoc_L (++)). }
  exists (delete h2 m5), (merge_lists VB' VA').
  split; [done|]. split; [|split; [done|split]].
  - eapply queue_agree; [|done]. intros q Hin. apply lookup_delete_ne. intros ->.
    by rewrite Hperm, fmap_app in Hin.
  - by apply merge_lists_sorted.
  - apply (relinked_local _ m m1); [done..|].
    eapply relinked_trans; [done|]. eapply relinked_trans; [|eapply relinked_trans].
    + eapply relinked_weaken; [|done]. done.
    + eapply relinked_weaken; [|done]. done.
    + eapply relinked_weaken; [|done]. by rewrite HpA, HpB, fmap_app.
Qed.

(** ** More fuel changes no result *)

Lemma le_res_refl {A} (c : M A) : le_res c c.
Proof. by intros m r. Qed.

Lemma le_res_bind {A B} (c : M A) (k k' : A → M B) :
  (∀ a, le_res (k a) (k' a)) → le_res (bind c k) (bind c k').
Proof.
  intros Hk m r. unfold bind. destruct (c m) as [[a m1]| |]; [|done..]. apply Hk.
Qed.

Lemma le_res_seq {A B} (c c' : M A) (k k' : A → M B) :
  le_res c c' → (∀ a, le_res (k a) (k' a)) → le_res (bind c k) (bind c' k').
Proof.
  intros Hc Hk m r. unfold bind. destruct (c m) as [[a m1]| |] eqn:Hrun; [|done..].
  rewrite (Hc _ _ Hrun). apply Hk.
Qed.

Lemma q_swap_loop_mono h fuel : ∀ fuel' node1 node2,
  fuel ≤ fuel' → le_res (q_swap_loop fuel h node1 node2) (q_swap_loop fuel' h node1 node2).
Proof.
  induction fuel as [|fuel IH]; intros fuel' node1 node2 Hle; [by intros m r|].
  destruct fuel' as [|fuel']; [lia|]. simpl. case_decide; [|apply le_res_refl].
  repeat (apply le_res_bind; intros ?). apply IH. lia.
Qed.

Lemma q_reverse_loop_mono h fuel : ∀ fuel' n s,
  fuel ≤ fuel' → le_res (q_reverse_loop fuel h n s) (q_reverse_loop fuel' h n s).
Proof.
  induction fuel as [|fuel IH]; intros fuel' n s Hle; [by intros m r|].
  destruct fuel' as [|fuel']; [lia|]. simpl. case_decide; [apply le_res_refl|].
  repeat (apply le_res_bind; intros ?). apply IH. lia.
Qed.

Lemma q_delete_dup_loop_mono h fuel : ∀ fuel' e s,
  fuel ≤ fuel' → le_res (q_delete_dup_loop fuel h e s) (q_delete_dup_loop fuel' h e s).
Proof.
  induction fuel as [|fuel IH]; intros fuel' e s Hle; [by intros m r|].
  destruct fuel' as [|fuel']; [lia|]. simpl. case_decide; [apply le_res_refl|].
  repeat (apply le_res_bind; intros ?). apply IH. lia.
Qed.

Lemma q_swap_mono h fuel fuel' : fuel ≤ fuel' → le_res (q_swap fuel h) (q_swap fuel' h).
Proof.
  intros. unfold q_swap. repeat (apply le_res_bind; intros ?). by apply q_swap_loop_mono.
Qed.

Lemma q_reverse_mono h fuel fuel' : fuel ≤ fuel' → le_res (q_reverse fuel h) (q_reverse fuel' h).
Proof.
  intros. unfold q_reverse. case_decide; [apply le_res_refl|].
  apply le_res_bind. intros []; [apply le_res_refl|].
  do 2 (apply le_res_bind; intros ?).
  apply le_res_seq; [by apply q_reverse_loop_mono|]. intros _. apply le_res_refl.
Qed.

Lemma q_delete_dup_mono h fuel fuel' :
  fuel ≤ fuel' → le_res (q_delete_dup fuel h) (q_delete_dup fuel' h).
Proof.
  intros. unfold q_delete_dup. case_decide; [apply le_res_refl|].
  do 2 (apply le_res_bind; intros ?).
  apply le_res_seq; [by apply q_delete_dup_loop_mono|]. intros _. apply le_res_refl.
Qed.

(** ** The operations on queues, whatever the fuel *)

Lemma fmap_swap_pairs {A B} (f : A → B) (l : list A) :
  f <$> swap_pairs l = swap_pairs (f <$> l).
Proof.
  revert l. fix IH 1. intros [|a [|b l]]; [done..|].
  simpl. by rewrite IH.
Qed.

Lemma swap_pairs_Permutation {A} (l : list A) : swap_pairs l ≡ₚ l.
Proof.
  revert l. fix IH 1. intros [|a [|b l]]; [done..|].
  simpl. rewrite IH. apply Permutation_swap.
Qed.

Lemma q_swap_queue m h vs fuel m' :
  queue m h vs → q_swap fuel h m = Ok (tt, m') → queue m' h (swap_pairs vs).
Proof.
  intros [Hc Hp] Hrun.
  apply (q_swap_mono h fuel (fuel `max` S (length vs))) in Hrun; [|lia].
  destruct (q_swap_spec m h vs.*1 (fuel `max` S (length vs)) Hc) as (m'' & Hrun' & Hc' & Hrel).
  { rewrite length_fmap. lia. }
  assert (m'' = m') by congruence. subst. split.
  - by rewrite fmap_swap_pairs.
  - rewrite swap_pairs_Permutation. by eapply payloads_relinked.
Qed.

Lemma q_reverse_queue m h vs fuel m' :
  queue m h vs → q_reverse fuel h m = Ok (tt, m') → queue m' h (reverse vs).
Proof.
  intros [Hc Hp] Hrun.
  apply (q_reverse_mono h fuel (fuel `max` S (length vs))) in Hrun; [|lia].
  destruct (q_reverse_spec m h vs.*1 (fuel `max` S (length vs)) Hc) as (m'' & Hrun' & Hc' & Hrel).
  { rewrite length_fmap. lia. }
  assert (m'' = m') by congruence. subst. split.
  - by rewrite fmap_reverse.
  - rewrite reverse_Permutation. by eapply payloads_relinked.
Qed.

Lemma q_delete_dup_queue m h vs fuel b m' :
  queue m h vs → q_delete_dup fuel h m = Ok (b, m') → queue m' h (dedup vs).
Proof.
  intros Hq Hrun.
  apply (q_delete_dup_mono h fuel (fuel `max` S (length vs))) in Hrun; [|lia].
  destruct (q_delete_dup_spec m h vs (fuel `max` S (length vs)) Hq) as (m'' & Hrun' & Hq' & _);
    [lia|].
  assert (m'' = m') by congruence. by subst.
Qed.

Lemma q_delete_mid_queue m h vs fuel b m' :
  queue m h vs → q_delete_mid fuel h m = Ok (b, m') →
  queue m' h (delete ((length vs - 1) / 2) vs).
Proof.
  intros Hq Hrun. destruct vs as [|v vs].
  - assert (h ≠ NULL) by (eapply chain_not_null; [apply Hq|left]).
    unfold q_delete_mid in Hrun. rewrite decide_False in Hrun by done.
    rewrite (list_empty_chain _ _ _ _ (queue_chain _ _ _ Hq)) in Hrun.
    injection Hrun as <- <-. done.
  - destruct (q_delete_mid_spec m h (v :: vs) fuel Hq) as [[Hr|(m'' & Hr & Hq' & _)] _];
      [done|congruence|].
    assert (m'' = m') by congruence. by subst.
Qed.

Lemma q_get_mid_loop_mono fuel : ∀ fuel' f b,
  fuel ≤ fuel' → le_res (q_get_mid_loop fuel f b) (q_get_mid_loop fuel' f b).
Proof.
  induction fuel as [|fuel IH]; intros fuel' f b Hle; [by intros m r|].
  destruct fuel' as [|fuel']; [lia|]. simpl. case_decide; [apply le_res_refl|].
  apply le_res_bind. intros fn. case_decide; [apply le_res_refl|].
  repeat (apply le_res_bind; intros ?). apply IH. lia.
Qed.

Lemma q_get_mid_mono h fuel fuel' :
  fuel ≤ fuel' → le_res (q_get_mid fuel h) (q_get_mid fuel' h).
Proof.
  intros. unfold q_get_mid. apply le_res_bind. intros []; [apply le_res_refl|].
  repeat (apply le_res_bind; intros ?). by apply q_get_mid_loop_mono.
Qed.

Lemma merge_scan_mono H1 node2 fuel : ∀ fuel' node1,
  fuel ≤ fuel' → le_res (merge_scan fuel H1 node1 node2) (merge_scan fuel' H1 node1 node2).
Proof.
  induction fuel as [|fuel IH]; intros fuel' node1 Hle; [by intros m r|].
  destruct fuel' as [|fuel']; [lia|]. simpl. case_decide; [apply le_res_refl|].
  do 2 (apply le_res_bind; intros ?). case_decide; [|apply le_res_refl].
  apply le_res_bind. intros ?. apply IH. lia.
Qed.

Lemma merge_loop_mono H1 H2 fuel : ∀ fuel' node1 node2 next_node,
  fuel ≤ fuel' →
  le_res (merge_loop fuel H1 H2 node1 node2 next_node)
         (merge_loop fuel' H1 H2 node1 node2 next_node).
Proof.
  induction fuel as [|fuel IH]; intros fuel' node1 node2 next_node Hle; [by intros m r|].
  destruct fuel' as [|fuel']; [lia|].
  change (merge_loop (S fuel) H1 H2 node1 node2 next_node) with
    (let* e := list_empty H2 in
     if e then ret tt
     else
       let* node1 := merge_scan (S fuel) H1 node1 node2 in
       if decide (node1 = H1) then
         list_splice_tail_init H2 H1;;
         merge_loop fuel H1 H2 node1 next_node next_node
       else
         let* next_node := load_next node2 in
         list_del_init node2;;
         list_add_tail node2 node1;;
         merge_loop fuel H1 H2 node1 next_node next_node).
  change (merge_loop (S fuel') H1 H2 node1 node2 next_node) with
    (let* e := list_empty H2 in
     if e then ret tt
     else
       let* node1 := merge_scan (S fuel') H1 node1 node2 in
       if decide (node1 = H1) then
         list_splice_tail_init H2 H1;;
         merge_loop fuel' H1 H2 node1 next_node next_node
       else
         let* next_node := load_next node2 in
         list_del_init node2;;
         list_add_tail node2 node1;;
         merge_loop fuel' H1 H2 node1 next_node next_node).
  apply le_res_bind. intros []; [apply le_res_refl|].
  apply le_res_seq; [apply merge_scan_mono; lia|]. intros node1'.
  case_decide; repeat (apply le_res_bind; intros ?); apply IH; lia.
Qed.

Lemma merge_mono H1 H2 fuel fuel' :
  fuel ≤ fuel' → le_res (merge fuel H1 H2) (merge fuel' H1 H2).
Proof.
  intros. unfold merge. do 2 (apply le_res_bind; intros ?). by apply merge_loop_mono.
Qed.

Lemma q_sort_mono cut fuel : ∀ fuel' h,
  fuel ≤ fuel' → le_res (q_sort cut fuel h) (q_sort cut fuel' h).
Proof.
  induction fuel as [|fuel IH]; intros fuel' h Hle; [by intros m r|].
  destruct fuel' as [|fuel']; [lia|]. simpl. case_decide; [apply le_res_refl|].
  apply le_res_bind. intros []; [apply le_res_refl|].
  apply le_res_bind. intros []; [apply le_res_refl|].
  apply le_res_bind. intros head2.
  apply le_res_seq; [apply q_get_mid_mono; lia|]. intros mid.
  apply le_res_bind. intros _.
  apply le_res_seq; [apply IH; lia|]. intros _.
  apply le_res_seq; [apply IH; lia|]. intros _.
  apply le_res_seq; [apply merge_mono; lia|]. intros _. apply le_res_refl.
Qed.

Lemma q_sort_queue cut m h vs fuel m' :
  cuts_through cut → queue m h vs → q_sort cut fuel h m = Ok (tt, m') →
  ∃ vs', queue m' h vs' ∧ vs' ≡ₚ vs ∧ StronglySorted le_elem vs'.
Proof.
  intros Hcuts Hq Hrun.
  apply (q_sort_mono cut fuel (fuel `max` S (length vs))) in Hrun; [|lia].
  destruct (q_sort_spec cut Hcuts (fuel `max` S (length vs)) m h vs Hq)
    as (m'' & vs' & Hrun' & Hq' & Hp & Hs & _); [lia|].
  assert (m'' = m') by congruence. subst. eauto.
Qed.

Lemma q_insert_queue ok_elem ok_str m h vs s b m' :
  queue m h vs →
  q_insert_head ok_elem ok_str h s m = Ok (b, m') ∨
  q_insert_tail ok_elem ok_str h s m = Ok (b, m') →
  ∃ vs', queue m' h vs'.
Proof.
  intros Hq Hrun.
  destruct (decide (ok_elem = true ∧ ok_str = true)) as [[-> ->]|Hf]; last first.
  { assert (h = NULL ∨ ok_elem = false ∨ ok_str = false) as Hfail
      by (destruct ok_elem, ok_str; naive_solver).
    destruct (q_insert_fail _ _ h s m Hfail) as [H1 H2].
    exists vs. destruct Hrun as [Hrun|Hrun]; congruence. }
  destruct (q_insert_head_ok m h vs s Hq) as (p & m1 & H1 & Hq1 & _).
  destruct (q_insert_tail_ok m h vs s Hq) as (p' & m2 & H2 & Hq2 & _).
  destruct Hrun as [Hrun|Hrun]; [exists ((p, s) :: vs)|exists (vs ++ [(p', s)])]; congruence.
Qed.

Lemma q_remove_queue m h vs sp bufsize r m' :
  queue m h vs →
  q_remove_head h sp bufsize m = Ok (r, m') ∨ q_remove_tail h sp bufsize m = Ok (r, m') →
  ∃ vs', queue m' h vs'.
Proof.
  intros Hq Hrun. destruct vs as [|[x v] vs].
  { destruct (q_remove_empty m h sp bufsize Hq) as [H1 H2].
    exists []. destruct Hrun as [Hrun|Hrun]; congruence. }
  assert (∀ m1 y vs', queue m1 h vs' → (copy_out y sp bufsize;; ret y) m1 = Ok (r, m') →
                      queue m' h vs') as Hcopy.
  { intros m1 y vs' Hq1. unfold bind.
    destruct (copy_out y sp bufsize m1) as [[[] m2]| |] eqn:Hco; [|done..].
    intros [= <- <-]. eapply queue_buffers; [|done]. by eapply copy_out_frame. }
  destruct Hrun as [Hrun|Hrun].
  - destruct (q_remove_head_unlink m h x v vs sp bufsize Hq) as (m1 & Heq & Hq1 & _).
    rewrite Heq in Hrun. eauto.
  - destruct (exists_last (l:=(x, v) :: vs) ltac:(done)) as (vs0 & [y w] & Hsnoc).
    rewrite Hsnoc in Hq.
    destruct (q_remove_tail_unlink m h y w vs0 sp bufsize Hq) as (m1 & Heq & Hq1 & _).
    rewrite Heq in Hrun. eauto.
Qed.

(** ** Sequences of operations on one queue *)

Lemma bind_inv {A B} (c : M A) (k : A → M B) m r :
  bind c k m = Ok r → ∃ a m1, c m = Ok (a, m1) ∧ k a m1 = Ok r.
Proof. unfold bind. destruct (c m) as [[a m1]| |]; [eauto|done..]. Qed.

Lemma exec_queue cut h o m m' vs :
  cuts_through cut →
  queue m h vs → exec cut h o m = Ok (tt, m') → ∃ vs', queue m' h vs'.
Proof.
  intros Hcuts Hq Hrun. destruct o; simpl in Hrun.
  - apply bind_inv in Hrun as (b & m1 & Hrun & [= <-]). eapply q_insert_queue; eauto.
  - apply bind_inv in Hrun as (b & m1 & Hrun & [= <-]). eapply q_insert_queue; eauto.
  - apply bind_inv in Hrun as (b & m1 & Hrun & [= <-]). eapply q_remove_queue; eauto.
  - apply bind_inv in Hrun as (b & m1 & Hrun & [= <-]). eapply q_remove_queue; eauto.
  - apply bind_inv in Hrun as (b & m1 & Hrun & [= <-]). eexists. by eapply q_delete_mid_queue.
  - apply bind_inv in Hrun as (b & m1 & Hrun & [= <-]). eexists. by eapply q_delete_dup_queue.
  - eexists. by eapply q_swap_queue.
  - eexists. by eapply q_reverse_queue.
  - destruct (q_sort_queue _ _ _ _ _ _ Hcuts Hq Hrun) as (vs' & ? & _). eauto.
Qed.

Lemma run_queue cut h ops : cuts_through cut → ∀ m m' vs,
  queue m h vs → run cut h ops m = Ok (tt, m') → ∃ vs', queue m' h vs'.
Proof.
  intros Hcuts. induction ops as [|o ops IH]; intros m m' vs Hq Hrun; simpl in Hrun.
  - injection Hrun as <-. eauto.
  - apply bind_inv in Hrun as ([] & m1 & Hrun1 & Hrun).
    destruct (exec_queue _ _ _ _ _ _ Hcuts Hq Hrun1) as [vs1 Hq1]. eauto.
Qed.

Lemma follow_next_chain m h l k : ∀ i a,
  chain m h l → (h :: l ++ [h]) !! i = Some a → i + k ≤ S (length l) →
  follow (get_next m) k a = (h :: l ++ [h]) !! (i + k).
Proof.
  induction k as [|k IH]; intros i a Hc Ha Hk; simpl.
  - by rewrite Nat.add_0_r.
  - assert (is_Some ((h :: l ++ [h]) !! S i)) as [b Hb].
    { apply lookup_lt_is_Some. simpl. rewrite length_app. simpl. lia. }
    destruct (chain_lookup _ _ _ _ _ _ Hc Ha Hb) as [-> _]. simpl.
    rewrite (IH (S i) b); [|done..|lia]. f_equal. lia.
Qed.

Lemma follow_prev_chain m h l k : ∀ i a,
  chain m h l → (h :: l ++ [h]) !! i = Some a → k ≤ i →
  follow (get_prev m) k a = (h :: l ++ [h]) !! (i - k).
Proof.
  induction k as [|k IH]; intros i a Hc Ha Hk; simpl.
  - by rewrite Nat.sub_0_r.
  - destruct i as [|i]; [lia|].
    assert (is_Some ((h :: l ++ [h]) !! i)) as [b Hb].
    { apply lookup_lt_is_Some. apply lookup_lt_Some in Ha. lia. }
    destruct (chain_lookup _ _ _ _ _ _ Hc Hb Ha) as [_ ->]. simpl.
    rewrite (IH i b); [|done..|lia]. done.
Qed.

Lemma chain_inside m h l k :
  chain m h l → 0 < k ≤ length l → (h :: l ++ [h]) !! k ≠ Some h.
Proof.
  intros Hc Hk Hl. destruct k as [|k]; [lia|]. simpl in Hl.
  rewrite lookup_app_l in Hl by lia.
  eapply chain_ne; [done| |done]. by eapply list_elem_of_lookup_2.
Qed.

Lemma chain_circular m h l :
  chain m h l →
  follow (get_next m) (S (length l)) h = Some h ∧
  follow (get_prev m) (S (length l)) h = Some h ∧
  (∀ k, 0 < k ≤ length l →
        follow (get_next m) k h ≠ Some h ∧ follow (get_prev m) k h ≠ Some h) ∧
  (∀ n, n ∈ h :: l → ∃ n', get_next m n = Some n' ∧ get_prev m n' = Some n).
Proof.
  intros Hc.
  assert ((h :: l ++ [h]) !! S (length l) = Some h) as Hend.
  { simpl. rewrite lookup_app_r by lia. by rewrite Nat.sub_diag. }
  split; [|split; [|split]].
  - by rewrite (follow_next_chain m h l _ 0 h Hc).
  - rewrite (follow_prev_chain m h l _ (S (length l)) h Hc); [|done|lia].
    by rewrite Nat.sub_diag.
  - intros k Hk. split.
    + rewrite (follow_next_chain m h l _ 0 h Hc); [|done|lia]. by apply (chain_inside m).
    + rewrite (follow_prev_chain m h l _ (S (length l)) h Hc); [|done|lia].
      apply (chain_inside m); [done|lia].
  - intros n (i & Hi)%list_elem_of_lookup.
    assert ((h :: l ++ [h]) !! i = Some n) as Hi'.
    { rewrite app_comm_cons. by apply lookup_app_l_Some. }
    assert (is_Some ((h :: l ++ [h]) !! S i)) as [b Hb].
    { apply lookup_lt_is_Some. apply lookup_lt_Some in Hi. simpl in *. rewrite length_app. simpl. lia. }
    exists b. by eapply chain_lookup.
Qed.

(** ** Runs of equal strings *)

Lemma strcmp_eq s1 s2 : strcmp s1 s2 = 0%Z ↔ s1 = s2.
Proof.
  revert s2. induction s1 as [|c1 s1 IH]; intros [|c2 s2]; simpl; try (split; [lia|done]).
  - done.
  - case_decide as Hc.
    + subst. rewrite IH. split; [by intros ->|by intros [= ->]].
    + split; [|by intros [= -> ->]].
      intros Hz. exfalso. apply Hc.
      rewrite <-(ascii_nat_embedding c1), <-(ascii_nat_embedding c2). f_equal. lia.
Qed.

Lemma runs_head x rest : ∃ run others, runs (x :: rest) = (x :: run) :: others.
Proof.
  simpl. destruct (runs rest) as [|[|y run] others]; [by eauto..|].
  case_decide; eauto.
Qed.

Lemma runs_concat vs : concat (runs vs) = vs.
Proof.
  induction vs as [|x vs IH]; [done|]. simpl.
  destruct (runs vs) as [|[|y run] others] eqn:Hr.
  - simpl in *. by subst.
  - destruct vs as [|z vs]; [done|]. destruct (runs_head z vs) as (? & ? & Heq). congruence.
  - case_decide; simpl in *; by rewrite IH.
Qed.

Lemma runs_equal vs :
  Forall (λ run, run ≠ [] ∧ ∀ x y, x ∈ run → y ∈ run → x.2 = y.2) (runs vs).
Proof.
  induction vs as [|x vs IH]; [constructor|]. simpl.
  destruct (runs vs) as [|[|y run] others] eqn:Hr.
  - constructor; [|done]. split; [done|]. by intros a b ->%list_elem_of_singleton ->%list_elem_of_singleton.
  - constructor; [|done]. split; [done|]. by intros a b ->%list_elem_of_singleton ->%list_elem_of_singleton.
  - apply Forall_cons in IH as [[_ Hrun] IH]. case_decide as Hxy.
    + apply strcmp_eq in Hxy. constructor; [|done]. split; [done|].
      assert (∀ a, a ∈ x :: y :: run → a.2 = y.2) as Hall.
      { intros a [->|Ha]%elem_of_cons; [done|]. apply Hrun; [done|left]. }
      intros a b Ha Hb. by rewrite (Hall a), (Hall b).
    + constructor; [|constructor; [by split|done]].
      split; [done|]. by intros a b ->%list_elem_of_singleton ->%list_elem_of_singleton.
Qed.

(** Two runs that follow one another hold different strings. *)
Lemma runs_maximal vs i run1 run2 x y :
  runs vs !! i = Some run1 → runs vs !! S i = Some run2 →
  last run1 = Some x → head run2 = Some y → x.2 ≠ y.2.
Proof.
  revert i run1 run2 x y. induction vs as [|z vs IH]; intros i run1 run2 x y; [done|]. simpl.
  destruct (runs vs) as [|[|w run] others] eqn:Hr.
  - by destruct i.
  - by destruct i.
  - case_decide as Hzw.
    + destruct i as [|i]; simpl.
      * intros [= <-] H2 Hl Hh. apply (IH 0 (w :: run) run2 x y); [done|done| |done].
        by rewrite last_cons_cons in Hl.
      * apply (IH (S i)).
    + destruct i as [|i]; simpl.
      * intros [= <-] [= <-] [= <-] [= <-]. by rewrite <-strcmp_eq.
      * apply (IH i).
Qed.

Lemma dedup_runs vs : dedup vs = omap last (runs vs).
Proof.
  induction vs as [|x vs IH]; [done|]. destruct vs as [|y vs]; [done|].
  change (dedup (x :: y :: vs)) with
    (if decide (strcmp x.2 y.2 = 0%Z) then dedup (y :: vs) else x :: dedup (y :: vs)).
  rewrite IH. destruct (runs_head y vs) as (run & others & Hr).
  change (runs (x :: y :: vs)) with
    (match runs (y :: vs) with
     | (y :: run) :: others =>
         if decide (strcmp x.2 y.2 = 0%Z) then (x :: y :: run) :: others
         else [x] :: (y :: run) :: others
     | _ => [[x]]
     end).
  rewrite Hr. case_decide; [|done].
  change (omap last ((x :: y :: run) :: others)) with
    (match last (x :: y :: run) with Some a => a :: omap last others | None => omap last others end).
  by rewrite last_cons_cons.
Qed.

(** ** A read through a null pointer *)

Lemma load_next_null (m : gmap nat block) : load_next NULL m = Fault.
Proof. done. Qed.

(** ** [q_free] *)



(** * The properties of the design document *)

(** ** Concrete heaps, checked by evaluation *)

Ltac by_compute := refine (bool_decide_unpack _ _); vm_compute; exact I.
Ltac chain_compute :=
  split; [by_compute | simpl; repeat split; vm_compute; reflexivity].
Ltac queue_compute := split; [chain_compute | repeat constructor].

(** ** C1 *)

(** What [q_sort] does on "c", "a", "b" in the nodes 2, 3, 4 when the split
    step is [cut_through]: the chain at the sentinel is then 3, 4, 2, and
    no string has changed. *)
Example q_sort_cab :
  ∃ m', q_sort cut_through 4 1 heap_cab = Ok (tt, m') ∧
        queue m' 1 [(3, "a"%string); (4, "b"%string); (2, "c"%string)].
Proof. eexists. split; [vm_compute; reflexivity|queue_compute]. Qed.

(** C1.  [q_sort], run with a [list_cut_position] that moves the nodes up
    to and including the middle one to the second list, returns on every
    queue; after it the traversal from the sentinel yields the strings in
    non-decreasing order of [strcmp], and the elements are those of before,
    each with its string, so the multiset of values is unchanged. *)
Theorem q_sort_sorts cut m h vs fuel :
  cuts_through cut → queue m h vs → length vs < fuel →
  ∃ m' vs', q_sort cut fuel h m = Ok (tt, m') ∧ queue m' h vs' ∧
            StronglySorted le_str vs'.*2 ∧ vs' ≡ₚ vs ∧ vs'.*2 ≡ₚ vs.*2.
Proof.
  intros Hcuts Hq Hfuel.
  destruct (q_sort_spec cut Hcuts fuel m h vs Hq Hfuel) as (m' & vs' & Hrun & Hq' & Hp & Hs & _).
  exists m', vs'. split; [done|]. split; [done|]. split; [|split; [done|by rewrite Hp]].
  by apply (StronglySorted_fmap snd le_elem le_str).
Qed.

Lemma q_sort_sorts_witness :
  queue heap_ba 1 [(2, "b"%string); (3, "a"%string)] ∧
  ∃ m' vs', q_sort cut_through 3 1 heap_ba = Ok (tt, m') ∧ queue m' 1 vs' ∧
            StronglySorted le_str vs'.*2 ∧
            vs' ≡ₚ [(2, "b"%string); (3, "a"%string)] ∧ vs'.*2 ≡ₚ ["b"%string; "a"%string].
Proof.
  assert (queue heap_ba 1 [(2, "b"%string); (3, "a"%string)]) as Hq by queue_compute.
  split; [exact Hq|].
  apply (q_sort_sorts cut_through heap_ba 1 _ 3 cut_through_cuts Hq). simpl. lia.
Defined.

(** ** C2 *)

(** C2 as it is worded fails: with one element in the queue [q_size] is 1,
    and one step along [next] from the sentinel is at the element, not back
    at the sentinel. *)
Lemma size_steps_stop_short :
  ¬ (∀ m0 h m1 ops m fuel n,
       q_new true m0 = Ok (h, m1) → run cut_through h ops m1 = Ok (tt, m) →
       q_size fuel h m = Ok (n, m) →
       follow (get_next m) (Z.to_nat n) h = Some h).
Proof.
  intros H.
  specialize (H ∅ 1
    (list_to_map [(1, Sentinel {| next := 1; prev := 1 |})])
    [InsertTail true true "a"]
    (list_to_map [(1, Sentinel {| next := 2; prev := 2 |});
                  (2, Element (Some "a"%string) {| next := 1; prev := 1 |})])
    2 1%Z).
  assert (Some 2 = Some 1) as Habs; [|done].
  apply H; vm_compute; reflexivity.
Qed.

(** C2 (amended).  After any sequence of insertions, removals,
    delete-middle, delete-duplicates, swap, reverse and sort on a queue
    created empty, the chain at the sentinel is circular and doubly
    consistent: [q_size] counts its [length l] elements, [length l + 1]
    steps along [next] lead from the sentinel back to it and no fewer do,
    likewise along [prev], and [n->next->prev == n] for every node [n]. *)
Theorem circular_after_operations cut m0 h m1 ops m :
  cuts_through cut →
  q_new true m0 = Ok (h, m1) → run cut h ops m1 = Ok (tt, m) →
  ∃ l, chain m h l ∧
       (∀ fuel, length l < fuel → (Z.of_nat (length l) ≤ INT_MAX)%Z →
                q_size fuel h m = Ok (Z.of_nat (length l), m)) ∧
       follow (get_next m) (S (length l)) h = Some h ∧
       follow (get_prev m) (S (length l)) h = Some h ∧
       (∀ k, 0 < k ≤ length l →
             follow (get_next m) k h ≠ Some h ∧ follow (get_prev m) k h ≠ Some h) ∧
       (∀ n, n ∈ h :: l → ∃ n', get_next m n = Some n' ∧ get_prev m n' = Some n).
Proof.
  intros Hcuts Hnew Hrun.
  destruct (q_new_spec m0) as (h' & m1' & Hnew' & _ & _ & Hq & _).
  assert (h' = h ∧ m1' = m1) as [-> ->] by (split; congruence).
  destruct (run_queue _ _ _ Hcuts _ _ _ Hq Hrun) as [vs [Hc _]].
  exists vs.*1. split; [done|]. split.
  - intros fuel Hfuel Hmax. by apply q_size_spec.
  - by apply chain_circular.
Qed.

Lemma circular_after_operations_witness :
  ∃ m, run cut_through 1
         [InsertTail true true "d"; InsertHead true true "a"; InsertTail true false "x";
          InsertTail true true "c"; InsertTail true true "b"; Swap 5; Reverse 5;
          RemoveHead NULL 0; Sort 5; DeleteDup 4; DeleteMid 4]
         (list_to_map [(1, Sentinel {| next := 1; prev := 1 |})]) = Ok (tt, m) ∧
       ∃ l, chain m 1 l ∧
            (∀ fuel, length l < fuel → (Z.of_nat (length l) ≤ INT_MAX)%Z →
                     q_size fuel 1 m = Ok (Z.of_nat (length l), m)) ∧
            follow (get_next m) (S (length l)) 1 = Some 1 ∧
            follow (get_prev m) (S (length l)) 1 = Some 1 ∧
            (∀ k, 0 < k ≤ length l →
                  follow (get_next m) k 1 ≠ Some 1 ∧ follow (get_prev m) k 1 ≠ Some 1) ∧
            (∀ n, n ∈ 1 :: l → ∃ n', get_next m n = Some n' ∧ get_prev m n' = Some n).
Proof.
  eexists. split; [vm_compute; reflexivity|].
  apply (circular_after_operations cut_through ∅ 1
           (list_to_map [(1, Sentinel {| next := 1; prev := 1 |})])
           [InsertTail true true "d"; InsertHead true true "a"; InsertTail true false "x";
            InsertTail true true "c"; InsertTail true true "b"; Swap 5; Reverse 5;
            RemoveHead NULL 0; Sort 5; DeleteDup 4; DeleteMid 4] _ cut_through_cuts);
    vm_compute; reflexivity.
Defined.

(** ** C3 *)

(** C3 (the code against the claim).  The claim: every operation given a
    null handle is a no-op and never faults, the pairwise swap in
    particular.  [q_swap] has no test of its argument: its first statement
    reads [head->next], and with [head == NULL] that read is a fault.  (The
    other operations do test for [NULL].) *)
Theorem q_swap_null_faults fuel (m : gmap nat block) : q_swap fuel NULL m = Fault.
Proof. unfold q_swap, bind. by rewrite load_next_null. Qed.

(** ** C4 *)

(** C4 as it is worded fails: in the list of the two nodes 2 and 3 the node
    at index [2 / 2] is 3, and [q_get_mid] returns 2. *)
Lemma q_get_mid_not_upper_middle :
  ¬ (∀ m h l fuel x,
       chain m h l → l !! (length l / 2) = Some x → length l ≤ 2 * fuel →
       q_get_mid fuel h m = Ok (x, m)).
Proof.
  intros H.
  assert (chain heap_ba 1 [2; 3]) as Hc by chain_compute.
  specialize (H heap_ba 1 [2; 3] 1 3 Hc eq_refl ltac:(simpl; lia)).
  assert (q_get_mid 1 1 heap_ba = Ok (2, heap_ba)) as H' by (vm_compute; reflexivity).
  rewrite H' in H. by injection H.
Qed.

(** C4 (amended).  For a list of [n] elements, [n] not zero, [q_get_mid]
    returns the node at zero-based index [(n - 1) / 2] from the front: the
    middle node when [n] is odd, the earlier of the two middle nodes when
    [n] is even, and the only node of a list of one.  It changes nothing in
    memory. *)
Theorem q_get_mid_lower_middle m h l fuel x :
  chain m h l → l !! ((length l - 1) / 2) = Some x → length l ≤ 2 * fuel →
  q_get_mid fuel h m = Ok (x, m).
Proof. intros Hc Hx Hfuel. by apply (q_get_mid_spec m h l fuel x Hc Hx). Qed.

Lemma q_get_mid_lower_middle_witness :
  chain heap_abc 1 [2; 3; 4] ∧ q_get_mid 2 1 heap_abc = Ok (3, heap_abc).
Proof.
  assert (chain heap_abc 1 [2; 3; 4]) as Hc by chain_compute.
  split; [exact Hc|].
  apply (q_get_mid_lower_middle heap_abc 1 [2; 3; 4] 2 3 Hc); [reflexivity|simpl; lia].
Defined.

(** ** C5 *)

(** C5.  [q_delete_dup] on a queue leaves, of every maximal run of nodes
    with equal strings, the last node; the nodes before it in the run are
    unlinked and freed.  It returns true on any list, the empty one
    included, which it leaves as it is, and false on a null handle.  (The
    list need not be sorted for this.) *)
Theorem q_delete_dup_collapses_runs m h vs fuel :
  queue m h vs → length vs < fuel →
  q_delete_dup fuel NULL m = Ok (false, m) ∧
  ∃ m', q_delete_dup fuel h m = Ok (true, m') ∧
        queue m' h (omap last (runs vs)) ∧
        (∀ x, x ∈ vs → x ∉ omap last (runs vs) → m' !! x.1 = None) ∧
        (vs = [] → m' = m).
Proof.
  intros Hq Hfuel. split; [done|].
  destruct (q_delete_dup_spec m h vs fuel Hq Hfuel) as (m' & Hrun & Hq' & Hfree & Hframe).
  exists m'. rewrite <-dedup_runs. split; [done|]. split; [done|]. split; [done|].
  intros ->. destruct Hq as [Hc _].
  assert (h ≠ NULL) by (eapply chain_not_null; [done|left]).
  destruct (chain_head _ _ _ Hc) as [Hn _]. simpl in Hn.
  unfold q_delete_dup in Hrun. rewrite decide_False in Hrun by done.
  rewrite !(bind_load_next _ _ _ _ Hn) in Hrun.
  destruct fuel as [|fuel]; [lia|]. simpl in Hrun. rewrite decide_True in Hrun by done.
  by injection Hrun.
Qed.

Lemma q_delete_dup_collapses_runs_witness :
  queue heap_aab 1 [(2, "a"%string); (3, "a"%string); (4, "b"%string)] ∧
  omap last (runs [(2, "a"%string); (3, "a"%string); (4, "b"%string)])
    = [(3, "a"%string); (4, "b"%string)] ∧
  ∃ m', q_delete_dup 4 1 heap_aab = Ok (true, m') ∧
        queue m' 1 [(3, "a"%string); (4, "b"%string)] ∧ m' !! 2 = None.
Proof.
  assert (queue heap_aab 1 [(2, "a"%string); (3, "a"%string); (4, "b"%string)])
    as Hq by queue_compute.
  split; [exact Hq|]. split; [reflexivity|].
  destruct (q_delete_dup_collapses_runs heap_aab 1 _ 4 Hq ltac:(simpl; lia))
    as (_ & m' & Hrun & Hq' & Hfree & _).
  exists m'. split; [exact Hrun|]. split; [exact Hq'|].
  apply (Hfree (2, "a"%string)); by_compute.
Defined.

(** ** C6 *)

(** C6.  [merge] empties the second list into the first: the second ends
    empty and the first holds the elements of both.  The first list ends as
    [merge_lists] has it: a node of the second list goes before the first
    node of the first list that does not compare strictly less, so before
    one that compares equal, and once the scan reaches the sentinel what is
    left of the second list is appended whole.  (The lists need not be
    sorted for this.) *)
Theorem merge_consumes_second m H1 H2 l1 l2 fuel :
  queue m H1 l1 → queue m H2 l2 → NoDup ((H1 :: l1.*1) ++ H2 :: l2.*1) →
  length l1 + length l2 < fuel →
  (∃ m', merge fuel H1 H2 m = Ok (tt, m') ∧
         queue m' H1 (merge_lists l1 l2) ∧ queue m' H2 []) ∧
  merge_lists l1 l2 ≡ₚ l1 ++ l2 ∧
  (∀ a rest1 b rest2, strcmp a.2 b.2 = 0%Z →
     merge_lists (a :: rest1) (b :: rest2) = b :: merge_lists (a :: rest1) rest2) ∧
  (∀ passed b rest2, Forall (λ a, (strcmp a.2 b.2 < 0)%Z) passed →
     merge_lists passed (b :: rest2) = passed ++ b :: rest2).
Proof.
  intros Hq1 Hq2 Hn Hfuel. split; [|split; [|split]].
  - destruct (merge_spec m H1 H2 l1 l2 fuel Hq1 Hq2 Hn Hfuel) as (m' & ? & ? & ? & _). eauto.
  - apply merge_lists_Permutation.
  - intros a rest1 b rest2 Hcmp. rewrite merge_lists_cons. simpl.
    rewrite decide_False by lia. done.
  - intros passed b rest2 Hall. rewrite merge_lists_cons.
    assert (scan b.2 passed = (passed, [])) as ->; [|done].
    induction Hall as [|a passed Ha Hall IH]; [done|].
    simpl. rewrite decide_True by done. by rewrite IH.
Qed.

Lemma merge_consumes_second_witness :
  merge_lists [(2, "a"%string); (3, "c"%string)] [(5, "b"%string); (6, "c"%string)]
    = [(2, "a"%string); (5, "b"%string); (6, "c"%string); (3, "c"%string)] ∧
  ∃ m', merge 5 1 4 heap_two_queues = Ok (tt, m') ∧
        queue m' 1 (merge_lists [(2, "a"%string); (3, "c"%string)]
                                [(5, "b"%string); (6, "c"%string)]) ∧
        queue m' 4 [].
Proof.
  split; [reflexivity|].
  refine (proj1 (merge_consumes_second heap_two_queues 1 4
           [(2, "a"%string); (3, "c"%string)] [(5, "b"%string); (6, "c"%string)] 5 _ _ _ _)).
  - queue_compute.
  - queue_compute.
  - by_compute.
  - simpl. lia.
Defined.

(** ** C7 *)





(** ** C8 *)

(** C8.  An insertion that fails, for a null handle, for want of memory for
    the element or for want of memory for the copy of the string, returns
    false and the heap it leaves is the heap it was given: nothing linked,
    nothing left allocated. *)
Theorem q_insert_failure_changes_nothing ok_elem ok_str h s (m : gmap nat block) :
  h = NULL ∨ ok_elem = false ∨ ok_str = false →
  q_insert_head ok_elem ok_str h s m = Ok (false, m) ∧
  q_insert_tail ok_elem ok_str h s m = Ok (false, m).
Proof. apply q_insert_fail. Qed.

Lemma q_insert_failure_changes_nothing_witness :
  q_insert_head true false 1 "zz" heap_ba = Ok (false, heap_ba) ∧
  q_insert_tail true false 1 "zz" heap_ba = Ok (false, heap_ba).
Proof.
  apply (q_insert_failure_changes_nothing true false 1 "zz" heap_ba).
  right. right. reflexivity.
Defined.

(** ** C10 *)

(** The split step of [q_sort]: the local sentinel, the middle node, the
    cut. *)
Lemma q_sort_split cut m h l fuel :
  cuts_through cut → chain m h l → 2 ≤ length l → length l ≤ 2 * fuel →
  ∃ h2 m' l1 l2,
    (let* head2 := LIST_HEAD in
     let* mid := q_get_mid fuel h in
     cut head2 h mid;; ret head2) m = Ok (h2, m') ∧
    chain m' h2 l2 ∧ chain m' h l1 ∧ l2 ++ l1 = l ∧
    length l2 = S ((length l - 1) / 2) ∧ l1 ≠ [].
Proof.
  intros Hcuts Hc Hlen Hfuel.
  destruct (LIST_HEAD_spec m) as (h2 & m1 & Hrun1 & Hfresh & Hring2 & Hag).
  rewrite (bind_ok _ _ _ _ _ Hrun1).
  assert (h2 ∉ h :: l) as Hh2.
  { intros Hin. eapply chain_live, live_lookup in Hin as [? ?]; [|done]. congruence. }
  assert (chain m1 h l) as Hc1.
  { eapply ring_agree; [|done]. intros x Hx. apply Hag. by intros ->. }
  destruct (mid_split l Hlen) as (A & x & B & Hl & Hx & HA & HB).
  destruct (q_get_mid_spec m1 h l fuel x Hc1 Hx) as [_ Hmid].
  rewrite (bind_ok _ _ _ _ _ (Hmid Hfuel)). rewrite Hl in Hc1, Hh2.
  destruct (Hcuts m1 h h2 A x B Hc1 Hring2 Hh2) as (m2 & Hcut & Hc2A & Hc2B & _).
  rewrite (bind_ok _ _ _ _ _ Hcut).
  exists h2, m2, B, (A ++ [x]). split; [done|]. split; [done|]. split; [done|].
  split; [by rewrite Hl, <-(assoc_L (++))|]. split.
  - rewrite length_app, HA. simpl. lia.
  - intros ->. simpl in HB. lia.
Qed.

(** C10.  [q_sort], run with a [list_cut_position] that moves the nodes up
    to and including the middle one to the second list, returns on every
    queue, given fuel for the depth of its recursion.  On a list of two or
    more nodes the cut at the node [q_get_mid] returns leaves two lists that
    are not empty and are both shorter than the list they come from. *)
Theorem q_sort_terminates cut m h vs fuel :
  cuts_through cut → queue m h vs → length vs < fuel →
  (∃ m', q_sort cut fuel h m = Ok (tt, m')) ∧
  (2 ≤ length vs →
   ∃ h2 m' l1 l2,
     (let* head2 := LIST_HEAD in
      let* mid := q_get_mid fuel h in
      cut head2 h mid;; ret head2) m = Ok (h2, m') ∧
     chain m' h2 l2 ∧ chain m' h l1 ∧ l2 ++ l1 = vs.*1 ∧
     0 < length l1 < length vs ∧ 0 < length l2 < length vs).
Proof.
  intros Hcuts Hq Hfuel. split.
  - destruct (q_sort_spec cut Hcuts fuel m h vs Hq Hfuel) as (m' & _ & Hrun & _). eauto.
  - intros Hlen.
    destruct (q_sort_split cut m h vs.*1 fuel Hcuts (queue_chain _ _ _ Hq))
      as (h2 & m' & l1 & l2 & Hrun & Hc2 & Hc1 & Hl & Hl2 & Hl1); [rewrite length_fmap; lia..|].
    exists h2, m', l1, l2. split; [done|]. split; [done|]. split; [done|]. split; [done|].
    assert (length l2 + length l1 = length vs) as Hsum.
    { by rewrite <-length_app, Hl, length_fmap. }
    assert (length l1 ≠ 0) by (by destruct l1).
    rewrite length_fmap in Hl2. lia.
Qed.

Lemma q_sort_terminates_witness :
  queue heap_ba 1 [(2, "b"%string); (3, "a"%string)] ∧
  (∃ m', q_sort cut_through 3 1 heap_ba = Ok (tt, m')) ∧
  (2 ≤ 2 →
   ∃ h2 m' l1 l2,
     (let* head2 := LIST_HEAD in
      let* mid := q_get_mid 3 1 in
      cut_through head2 1 mid;; ret head2) heap_ba = Ok (h2, m') ∧
     chain m' h2 l2 ∧ chain m' 1 l1 ∧ l2 ++ l1 = [2; 3] ∧
     0 < length l1 < 2 ∧ 0 < length l2 < 2).
Proof.
  assert (queue heap_ba 1 [(2, "b"%string); (3, "a"%string)]) as Hq by queue_compute.
  split; [exact Hq|].
  apply (q_sort_terminates cut_through heap_ba 1 _ 3 cut_through_cuts Hq). simpl. lia.
Defined.

(** * Further properties of the operations *)

(** X1.  Given a null handle, every operation but [q_swap] returns at once,
    with false, [NULL] or 0 where it returns a value, and memory is as it
    was. *)
Theorem null_handle_returns (m : gmap nat block) fuel s sp bufsize ok_elem ok_str cut :
  q_free fuel NULL m = Ok (tt, m) ∧
  q_insert_head ok_elem ok_str NULL s m = Ok (false, m) ∧
  q_insert_tail ok_elem ok_str NULL s m = Ok (false, m) ∧
  q_remove_head NULL sp bufsize m = Ok (NULL, m) ∧
  q_remove_tail NULL sp bufsize m = Ok (NULL, m) ∧
  q_size fuel NULL m = Ok (0%Z, m) ∧
  q_delete_mid fuel NULL m = Ok (false, m) ∧
  q_delete_dup fuel NULL m = Ok (false, m) ∧
  q_reverse fuel NULL m = Ok (tt, m) ∧
  q_sort cut (S fuel) NULL m = Ok (tt, m).
Proof. done. Qed.



(** X3.  [q_reverse] turns the queue round: the same elements, each with
    its string, in the opposite order; it neither allocates nor frees. *)
Theorem q_reverse_reverses m h vs fuel :
  queue m h vs → length vs < fuel →
  ∃ m', q_reverse fuel h m = Ok (tt, m') ∧ queue m' h (reverse vs) ∧ dom m' = dom m.
Proof.
  intros [Hc Hp] Hfuel.
  destruct (q_reverse_spec m h vs.*1 fuel Hc) as (m' & Hrun & Hc' & Hrel);
    [by rewrite length_fmap|].
  exists m'. split; [done|]. split; [|by eapply relinked_dom]. split.
  - by rewrite fmap_reverse.
  - rewrite reverse_Permutation. by eapply payloads_relinked.
Qed.

Lemma q_reverse_reverses_witness :
  queue heap_cab 1 [(2, "c"%string); (3, "a"%string); (4, "b"%string)] ∧
  ∃ m', q_reverse 4 1 heap_cab = Ok (tt, m') ∧
        queue m' 1 [(4, "b"%string); (3, "a"%string); (2, "c"%string)] ∧
        dom m' = dom heap_cab.
Proof.
  assert (queue heap_cab 1 [(2, "c"%string); (3, "a"%string); (4, "b"%string)])
    as Hq by queue_compute.
  split; [exact Hq|]. apply (q_reverse_reverses heap_cab 1 _ 4 Hq). simpl. lia.
Defined.

(** X4.  [q_swap] exchanges the first element with the second, the third
    with the fourth and so on, and leaves the last one of an odd number in
    place; it neither allocates nor frees. *)
Theorem q_swap_swaps_pairs m h vs fuel :
  queue m h vs → length vs < 2 * fuel →
  ∃ m', q_swap fuel h m = Ok (tt, m') ∧ queue m' h (swap_pairs vs) ∧ dom m' = dom m.
Proof.
  intros [Hc Hp] Hfuel.
  destruct (q_swap_spec m h vs.*1 fuel Hc) as (m' & Hrun & Hc' & Hrel);
    [by rewrite length_fmap|].
  exists m'. split; [done|]. split; [|by eapply relinked_dom]. split.
  - by rewrite fmap_swap_pairs.
  - rewrite swap_pairs_Permutation. by eapply payloads_relinked.
Qed.

Lemma q_swap_swaps_pairs_witness :
  queue heap_cab 1 [(2, "c"%string); (3, "a"%string); (4, "b"%string)] ∧
  ∃ m', q_swap 2 1 heap_cab = Ok (tt, m') ∧
        queue m' 1 [(3, "a"%string); (2, "c"%string); (4, "b"%string)] ∧
        dom m' = dom heap_cab.
Proof.
  assert (queue heap_cab 1 [(2, "c"%string); (3, "a"%string); (4, "b"%string)])
    as Hq by queue_compute.
  split; [exact Hq|]. apply (q_swap_swaps_pairs heap_cab 1 _ 2 Hq). simpl. lia.
Defined.

(** X5.  [q_delete_mid] on a queue of [n] elements, [n] not zero, unlinks
    and frees the element at index [(n - 1) / 2] and returns true; on an
    empty queue it returns false and changes nothing. *)
Theorem q_delete_mid_deletes_lower_middle m h vs fuel :
  queue m h vs → length vs ≤ 2 * fuel →
  (vs = [] → q_delete_mid fuel h m = Ok (false, m)) ∧
  (vs ≠ [] →
   ∃ m', q_delete_mid fuel h m = Ok (true, m') ∧
         queue m' h (delete ((length vs - 1) / 2) vs) ∧
         (∀ x, vs.*1 !! ((length vs - 1) / 2) = Some x → m' !! x = None)).
Proof.
  intros Hq Hfuel. split.
  - intros ->. assert (h ≠ NULL) by (eapply chain_not_null; [apply Hq|left]).
    unfold q_delete_mid. rewrite decide_False by done.
    by rewrite (list_empty_chain _ _ _ _ (queue_chain _ _ _ Hq)).
  - intros Hne.
    destruct (q_delete_mid_spec m h vs fuel Hq Hne) as [[Hout|(m' & Hrun & Hq' & Hfree & _)] Hret].
    + by destruct (Hret Hfuel).
    + by exists m'.
Qed.

Lemma q_delete_mid_deletes_lower_middle_witness :
  queue heap_ba 1 [(2, "b"%string); (3, "a"%string)] ∧
  ∃ m', q_delete_mid 1 1 heap_ba = Ok (true, m') ∧ queue m' 1 [(3, "a"%string)] ∧
        m' !! 2 = None.
Proof.
  assert (queue heap_ba 1 [(2, "b"%string); (3, "a"%string)]) as Hq by queue_compute.
  split; [exact Hq|].
  destruct (q_delete_mid_deletes_lower_middle heap_ba 1 _ 1 Hq ltac:(simpl; lia)) as [_ H].
  destruct (H ltac:(done)) as (m' & Hrun & Hq' & Hfree).
  exists m'. split; [exact Hrun|]. split; [exact Hq'|]. by apply Hfree.
Defined.

(** X6.  [q_size] returns the number of elements of the queue, as long as
    that fits an [int], and changes nothing. *)
Theorem q_size_counts m h vs fuel :
  queue m h vs → length vs < fuel → (Z.of_nat (length vs) ≤ INT_MAX)%Z →
  q_size fuel h m = Ok (Z.of_nat (length vs), m).
Proof.
  intros [Hc _] Hfuel Hmax. rewrite <-(length_fmap fst vs).
  apply q_size_spec; [done|by rewrite length_fmap..].
Qed.

Lemma q_size_counts_witness :
  queue heap_aab 1 [(2, "a"%string); (3, "a"%string); (4, "b"%string)] ∧
  q_size 4 1 heap_aab = Ok (3%Z, heap_aab).
Proof.
  assert (queue heap_aab 1 [(2, "a"%string); (3, "a"%string); (4, "b"%string)])
    as Hq by queue_compute.
  split; [exact Hq|]. apply (q_size_counts heap_aab 1 _ 4 Hq); [simpl; lia|by_compute].
Defined.



(** X8.  [q_new] returns an empty queue at an address that was not in use
    and changes nothing else; when [malloc] fails it returns [NULL] and
    changes nothing. *)
Theorem q_new_is_empty (m : gmap nat block) :
  (∃ h m', q_new true m = Ok (h, m') ∧ h ≠ NULL ∧ m !! h = None ∧ queue m' h [] ∧
           (∀ q, q ≠ h → m' !! q = m !! q)) ∧
  q_new false m = Ok (NULL, m).
Proof. split; [apply q_new_spec|apply q_new_fail]. Qed.

(** X9.  [merge] of two queues that are in non-decreasing order leaves the
    first in non-decreasing order, with the elements of both. *)
Theorem merge_of_sorted_is_sorted m H1 H2 l1 l2 fuel :
  queue m H1 l1 → queue m H2 l2 → NoDup ((H1 :: l1.*1) ++ H2 :: l2.*1) →
  length l1 + length l2 < fuel →
  StronglySorted le_str l1.*2 → StronglySorted le_str l2.*2 →
  ∃ m' l, merge fuel H1 H2 m = Ok (tt, m') ∧ queue m' H1 l ∧ queue m' H2 [] ∧
          StronglySorted le_str l.*2 ∧ l ≡ₚ l1 ++ l2.
Proof.
  intros Hq1 Hq2 Hn Hfuel Hs1 Hs2.
  destruct (merge_spec m H1 H2 l1 l2 fuel Hq1 Hq2 Hn Hfuel) as (m' & Hrun & Hq & Hq' & _).
  exists m', (merge_lists l1 l2). split; [done|]. split; [done|]. split; [done|].
  split; [|apply merge_lists_Permutation].
  apply (StronglySorted_fmap snd le_elem le_str); [done|].
  apply merge_lists_sorted; by apply sorted_elems.
Qed.

Lemma merge_of_sorted_is_sorted_witness :
  ∃ m' l, merge 5 1 4 heap_two_queues = Ok (tt, m') ∧ queue m' 1 l ∧ queue m' 4 [] ∧
          StronglySorted le_str l.*2 ∧
          l ≡ₚ [(2, "a"%string); (3, "c"%string)] ++ [(5, "b"%string); (6, "c"%string)].
Proof.
  apply (merge_of_sorted_is_sorted heap_two_queues 1 4
           [(2, "a"%string); (3, "c"%string)] [(5, "b"%string); (6, "c"%string)] 5).
  - queue_compute.
  - queue_compute.
  - by_compute.
  - simpl. lia.
  - repeat constructor; by vm_compute.
  - repeat constructor; by vm_compute.
Defined.

(** X10.  Run with a split step of the shape of section 4.8 (the second
    list takes the nodes from the middle one on), [q_sort] has no result on
    a queue of two or more elements, whatever the fuel: the middle node of
    a list of two is the first, so the second list is the whole list
    again. *)
Theorem q_sort_cut_before_no_result cut m h vs fuel :
  cuts_before cut → queue m h vs → 2 ≤ length vs → q_sort cut fuel h m = OutOfFuel.
Proof.
  intros Hcuts [Hc _] Hlen.
  destruct (q_sort_cut_before cut fuel Hcuts m h vs.*1 Hc) as [_ H].
  apply H. by rewrite length_fmap.
Qed.

Lemma q_sort_cut_before_no_result_witness :
  queue heap_ba 1 [(2, "b"%string); (3, "a"%string)] ∧
  q_sort cut_before 1000 1 heap_ba = OutOfFuel.
Proof.
  assert (queue heap_ba 1 [(2, "b"%string); (3, "a"%string)]) as Hq by queue_compute.
  split; [exact Hq|].
  apply (q_sort_cut_before_no_result cut_before heap_ba 1 _ 1000 cut_before_cuts Hq).
  simpl. lia.
Defined.

(** ** Heaps that hold the same chain *)

Lemma block_eq b b' : strip b = strip b' → links b = links b' → b = b'.
Proof. destruct b, b'; simpl; congruence. Qed.

Lemma chain_links_agree m m' h l q :
  chain m h l → chain m' h l → q ∈ h :: l → get_links m' q = get_links m q.
Proof.
  intros Hc Hc' Hq.
  assert (get_next m' q = get_next m q ∧ get_prev m' q = get_prev m q) as [Hn Hp].
  { split.
    - apply list_elem_of_lookup in Hq as [i Hi].
      assert ((h :: l ++ [h]) !! i = Some q) as Hi'.
      { rewrite app_comm_cons. by apply lookup_app_l_Some. }
      assert (is_Some ((h :: l ++ [h]) !! S i)) as [b Hb].
      { apply lookup_lt_is_Some. apply lookup_lt_Some in Hi. simpl in *.
        rewrite length_app. simpl. lia. }
      destruct (chain_lookup _ _ _ _ _ _ Hc Hi' Hb) as [-> _].
      by destruct (chain_lookup _ _ _ _ _ _ Hc' Hi' Hb) as [-> _].
    - assert (q ∈ l ++ [h]) as [j Hj]%list_elem_of_lookup by set_solver.
      assert (is_Some ((h :: l ++ [h]) !! j)) as [a Ha].
      { apply lookup_lt_is_Some. apply lookup_lt_Some in Hj. simpl. lia. }
      destruct (chain_lookup _ _ _ j a q Hc Ha Hj) as [_ ->].
      by destruct (chain_lookup _ _ _ j a q Hc' Ha Hj) as [_ ->]. }
  unfold get_next, get_prev in Hn, Hp.
  destruct (get_links m' q) as [[n' p']|], (get_links m q) as [[n p]|]; simpl in *;
    congruence.
Qed.

(** The links of a chain are fixed by the list of its nodes: two heaps that
    hold the same chain and differ in link fields of its nodes at most are
    the same heap. *)
Lemma chain_heap_eq m m' h l :
  chain m h l → chain m' h l → relinked (h :: l) m m' → m' = m.
Proof.
  intros Hc Hc' [Hout Hstrip]. apply map_eq. intros q.
  destruct (decide (q ∈ h :: l)) as [Hq|Hq]; [|by apply Hout].
  pose proof (chain_links_agree _ _ _ _ _ Hc Hc' Hq) as Hl.
  assert (q ≠ NULL) as Hnull by (by eapply chain_not_null).
  unfold get_links in Hl. rewrite !decide_False in Hl by done.
  specialize (Hstrip q).
  destruct (m' !! q) as [b'|], (m !! q) as [b|]; simpl in *; try done.
  f_equal. apply block_eq; congruence.
Qed.

(** ** Round trips *)








Lemma swap_pairs_involutive {A} (l : list A) : swap_pairs (swap_pairs l) = l.
Proof.
  revert l. fix IH 1. intros [|a [|b l]]; [done..|].
  simpl. by rewrite IH.
Qed.

(** X12.  [q_reverse] twice, and [q_swap] twice, put every link back:
    memory after the second call is exactly memory before the first. *)
Theorem reverse_and_swap_undo_themselves m h vs fuel :
  queue m h vs → length vs < fuel →
  (∃ m1, q_reverse fuel h m = Ok (tt, m1) ∧ q_reverse fuel h m1 = Ok (tt, m)) ∧
  (∃ m1, q_swap fuel h m = Ok (tt, m1) ∧ q_swap fuel h m1 = Ok (tt, m)).
Proof.
  intros [Hc _] Hfuel. rewrite <-(length_fmap fst) in Hfuel. split.
  - destruct (q_reverse_spec m h vs.*1 fuel Hc Hfuel) as (m1 & Hrun1 & Hc1 & Hrel1).
    destruct (q_reverse_spec m1 h (reverse vs.*1) fuel Hc1) as (m2 & Hrun2 & Hc2 & Hrel2);
      [by rewrite length_reverse|].
    rewrite reverse_involutive in Hc2.
    exists m1. split; [done|]. rewrite Hrun2. do 2 f_equal.
    apply (chain_heap_eq m m2 h vs.*1); [done..|].
    eapply relinked_trans; [done|]. eapply relinked_weaken; [|done].
    intros q. rewrite !elem_of_cons, elem_of_reverse. done.
  - destruct (q_swap_spec m h vs.*1 fuel Hc) as (m1 & Hrun1 & Hc1 & Hrel1); [lia|].
    destruct (q_swap_spec m1 h (swap_pairs vs.*1) fuel Hc1) as (m2 & Hrun2 & Hc2 & Hrel2).
    { rewrite swap_pairs_Permutation. lia. }
    rewrite swap_pairs_involutive in Hc2.
    exists m1. split; [done|]. rewrite Hrun2. do 2 f_equal.
    apply (chain_heap_eq m m2 h vs.*1); [done..|].
    eapply relinked_trans; [done|]. eapply relinked_weaken; [|done].
    intros q. rewrite !elem_of_cons, swap_pairs_Permutation. done.
Qed.

Lemma reverse_and_swap_undo_themselves_witness :
  queue heap_cab 1 [(2, "c"%string); (3, "a"%string); (4, "b"%string)] ∧
  (∃ m1, q_reverse 4 1 heap_cab = Ok (tt, m1) ∧ q_reverse 4 1 m1 = Ok (tt, heap_cab)) ∧
  (∃ m1, q_swap 4 1 heap_cab = Ok (tt, m1) ∧ q_swap 4 1 m1 = Ok (tt, heap_cab)).
Proof.
  assert (queue heap_cab 1 [(2, "c"%string); (3, "a"%string); (4, "b"%string)])
    as Hq by queue_compute.
  split; [exact Hq|]. apply (reverse_and_swap_undo_themselves heap_cab 1 _ 4 Hq). simpl. lia.
Defined.

(** ** [q_sort] as a function on lists *)

Lemma sort_list_Permutation fuel : ∀ vs, sort_list fuel vs ≡ₚ vs.
Proof.
  induction fuel as [|fuel IH]; intros vs; [done|]. cbn [sort_list]. case_decide; [done|].
  rewrite merge_lists_Permutation, !IH, Permutation_app_comm. by rewrite take_drop.
Qed.

Lemma sort_list_sorted fuel : ∀ vs,
  length vs < fuel → StronglySorted le_elem (sort_list fuel vs).
Proof.
  induction fuel as [|fuel IH]; intros vs Hlen; [lia|]. cbn [sort_list]. case_decide as Hle.
  { destruct vs as [|a [|]]; simpl in *; try lia; repeat constructor. }
  assert (2 * ((length vs - 1) / 2) ≤ length vs - 1) as Hk by apply Nat.Div0.mul_div_le.
  apply merge_lists_sorted; apply IH.
  - rewrite length_drop. lia.
  - rewrite length_take. lia.
Qed.

Lemma q_sort_run cut : cuts_through cut → ∀ fuel m h vs,
  queue m h vs → length vs < fuel →
  ∃ m', q_sort cut fuel h m = Ok (tt, m') ∧ queue m' h (sort_list fuel vs) ∧
        relinked (h :: vs.*1) m m'.
Proof.
  intros Hcuts. induction fuel as [|fuel IH]; intros m h vs Hq Hfuel; [lia|].
  pose proof (queue_chain _ _ _ Hq) as Hc.
  assert (h ≠ NULL) as Hh by (eapply chain_not_null; [done|left]).
  simpl q_sort. rewrite decide_False by done.
  rewrite (list_empty_chain _ _ _ _ Hc).
  case_bool_decide as Hnil.
  { exists m. apply fmap_nil_inv in Hnil as ->. split; [done|]. split; [done|apply relinked_refl]. }
  rewrite (list_is_singular_chain _ _ _ _ Hc).
  case_bool_decide as Hone.
  { exists m. by destruct vs as [|a [|]]. }
  assert (2 ≤ length vs) as Hlen.
  { rewrite length_fmap in Hone. destruct vs as [|? [|]]; simpl in *; try done; lia. }
  cbn [sort_list]. rewrite decide_False by lia.
  destruct (LIST_HEAD_spec m) as (h2 & m1 & Hrun1 & Hfresh & Hring2 & Hag).
  rewrite (bind_ok _ _ _ _ _ Hrun1).
  assert (h2 ∉ h :: vs.*1) as Hh2.
  { intros Hin. eapply chain_live, live_lookup in Hin as [? ?]; [|done]. congruence. }
  assert (queue m1 h vs) as Hq1.
  { eapply queue_agree; [|done]. intros x Hx. apply Hag. by intros ->. }
  destruct (mid_split vs Hlen) as (VA & xv & VB & Hvs & Hx & HA & HB).
  pose proof (queue_chain _ _ _ Hq1) as Hc1.
  assert (vs.*1 !! ((length vs.*1 - 1) / 2) = Some xv.1) as Hx1.
  { by rewrite length_fmap, list_lookup_fmap, Hx. }
  destruct (q_get_mid_spec m1 h _ (S fuel) xv.1 Hc1 Hx1) as [_ Hmid].
  rewrite (bind_ok _ _ _ _ _ (Hmid ltac:(rewrite length_fmap; lia))).
  assert (take (S ((length vs - 1) / 2)) vs = VA ++ [xv] ∧
          drop (S ((length vs - 1) / 2)) vs = VB) as [-> ->].
  { rewrite <-HA, Hvs, (cons_middle xv), (assoc_L (++)).
    assert (S (length VA) = length (VA ++ [xv])) as -> by (rewrite length_app; simpl; lia).
    by rewrite take_app_length, drop_app_length. }
  clear Hx Hx1 Hmid Hnil Hone HA. subst vs. rewrite length_app in *. simpl in HB, Hfuel, Hlen.
  rewrite fmap_app, fmap_cons in Hc1, Hh2, Hc |- *.
  destruct (Hcuts m1 h h2 VA.*1 xv.1 VB.*1 Hc1 Hring2 Hh2) as (m2 & Hcut & Hc2A & Hc2B & Hrel12).
  rewrite (bind_ok _ _ _ _ _ Hcut).
  destruct Hq1 as [_ Hpay1]. apply Forall_app in Hpay1 as [HpayA HpayB].
  apply Forall_cons in HpayB as [Hpayx HpayB].
  assert (queue m2 h VB) as Hq2B.
  { split; [done|]. by eapply payloads_relinked. }
  assert (queue m2 h2 (VA ++ [xv])) as Hq2A.
  { split; [by rewrite fmap_app|]. eapply payloads_relinked; [done|].
    apply Forall_app. split; [done|]. by constructor. }
  destruct (IH m2 h VB Hq2B) as (m3 & Hrun3 & Hq3B & Hrel23); [lia|].
  rewrite (bind_ok _ _ _ _ _ Hrun3).
  set (VB' := sort_list fuel VB) in *. set (VA' := sort_list fuel (VA ++ [xv])) in *.
  assert (VB' ≡ₚ VB) as HpB by apply sort_list_Permutation.
  assert (VA' ≡ₚ VA ++ [xv]) as HpA by apply sort_list_Permutation.
  destruct (halves_apart h h2 xv.1 VA.*1 VB.*1 (chain_NoDup _ _ _ Hc) Hh2)
    as (Hsep1 & Hsep2 & Hsub1 & Hsub2 & Hsub3).
  assert (queue m3 h2 (VA ++ [xv])) as Hq3A.
  { eapply queue_agree; [|done]. intros q Hin. apply Hrel23.
    rewrite fmap_app in Hin. by apply Hsep1. }
  destruct (IH m3 h2 _ Hq3A) as (m4 & Hrun4 & Hq4A & Hrel34);
    [rewrite length_app; simpl; lia|].
  rewrite (bind_ok _ _ _ _ _ Hrun4). fold VA' in Hq4A.
  rewrite fmap_app in Hrel34. simpl in Hrel34.
  assert (queue m4 h VB') as Hq4B.
  { eapply queue_agree; [|done]. intros q Hin. apply Hrel34, Hsep2. by rewrite <-HpB. }
  destruct (merge_spec m4 h h2 VB' VA' (S fuel) Hq4B Hq4A) as (m5 & Hrun5 & Hq5 & Hq5' & Hrel45).
  { apply NoDup_app. split; [apply (chain_NoDup m4), Hq4B|].
    split; [|apply (chain_NoDup m4), Hq4A].
    intros q Hin. rewrite HpA, fmap_app. apply Hsep2. by rewrite <-HpB. }
  { rewrite HpA, HpB, length_app. simpl. lia. }
  rewrite (bind_ok _ _ _ _ _ Hrun5).
  assert (h2 ≠ NULL ∧ is_Some (m5 !! h2)) as [Hh2n [b2 Hb2]].
  { assert (live m5 h2) by (eapply chain_live; [apply Hq5'|left]).
    split; [by eapply live_not_null|by apply live_lookup]. }
  rewrite (free_ok _ _ _ Hh2n Hb2).
  assert (merge_lists VB' VA' ≡ₚ VA ++ xv :: VB) as Hperm.
  { rewrite merge_lists_Permutation, HpA, HpB.
    rewrite (Permutation_app_comm VB). by rewrite <-(assoc_L (++)). }
  exists (delete h2 m5). split; [done|]. split.
  - eapply queue_agree; [|done]. intros q Hin. apply lookup_delete_ne. intros ->.
    by rewrite Hperm, fmap_app in Hin.
  - apply (relinked_local _ m m1); [done..|].
    eapply relinked_trans; [done|]. eapply relinked_trans; [|eapply relinked_trans].
    + eapply relinked_weaken; [|done]. done.
    + eapply relinked_weaken; [|done]. done.
    + eapply relinked_weaken; [|done]. by rewrite HpA, HpB, fmap_app.
Qed.

Lemma strcmp_lt_le_trans s1 s2 s3 :
  (strcmp s1 s2 < 0)%Z → le_str s2 s3 → (strcmp s1 s3 < 0)%Z.
Proof.
  intros H12 H23. destruct (decide (strcmp s1 s3 < 0)%Z) as [|Hge]; [done|].
  assert (le_str s3 s1) as H31 by (unfold le_str; rewrite strcmp_flip; lia).
  pose proof (le_str_trans _ _ _ H23 H31) as H21. unfold le_str in H21.
  rewrite strcmp_flip in H21. lia.
Qed.

Lemma strcmp_lt_ne s1 s2 : (strcmp s1 s2 < 0)%Z → s1 ≠ s2.
Proof. intros Hlt <-. assert (strcmp s1 s1 = 0%Z) by (by apply strcmp_eq). lia. Qed.

(** Of two lists with every string of the first strictly before every string
    of the second, one at most has elements that hold [s]. *)
Lemma filter_apart (s : string) (p q : list (nat * string)) :
  (∀ x y, x ∈ p → y ∈ q → (strcmp x.2 y.2 < 0)%Z) →
  filter (λ a, a.2 = s) p ++ filter (λ a, a.2 = s) q =
  filter (λ a, a.2 = s) q ++ filter (λ a, a.2 = s) p.
Proof.
  intros Hpq.
  destruct (filter (λ a, a.2 = s) p) as [|x fp] eqn:Hp; [by rewrite app_nil_r|].
  destruct (filter (λ a, a.2 = s) q) as [|y fq] eqn:Hq; [by rewrite app_nil_r|].
  assert (x ∈ filter (λ a, a.2 = s) p) as [Hx Hxp]%list_elem_of_filter by (rewrite Hp; left).
  assert (y ∈ filter (λ a, a.2 = s) q) as [Hy Hyq]%list_elem_of_filter by (rewrite Hq; left).
  exfalso. apply (strcmp_lt_ne x.2 y.2); [by apply Hpq|congruence].
Qed.

Lemma merge_lists_stable s l2 : ∀ l1,
  StronglySorted le_elem l1 → StronglySorted le_elem l2 →
  filter (λ a, a.2 = s) (merge_lists l1 l2) =
  filter (λ a, a.2 = s) l2 ++ filter (λ a, a.2 = s) l1.
Proof.
  induction l2 as [|b l2 IH]; intros l1 H1 H2; [done|].
  rewrite merge_lists_cons. apply StronglySorted_cons in H2 as [Hb H2].
  rewrite Forall_forall in Hb.
  destruct (scan_spec b.2 l1) as [Hp Hr]. rewrite Forall_forall in Hp.
  replace (filter (λ a, a.2 = s) l1)
    with (filter (λ a, a.2 = s) ((scan b.2 l1).1 ++ (scan b.2 l1).2))
    by (by rewrite scan_app).
  rewrite <-(scan_app b.2 l1) in H1.
  apply StronglySorted_app in H1 as (Hcross & H1p & H1r).
  assert (∀ x y, x ∈ (scan b.2 l1).1 → y ∈ b :: l2 → (strcmp x.2 y.2 < 0)%Z) as Hlt.
  { intros x y Hx%Hp [->|Hy%Hb]%elem_of_cons; [done|]. by eapply strcmp_lt_le_trans. }
  destruct (scan b.2 l1).2 as [|a r] eqn:Hscan.
  - rewrite app_nil_r, filter_app. by apply filter_apart.
  - rewrite !filter_app, (filter_cons _ b (merge_lists _ _)), IH by done.
    rewrite (filter_cons _ b l2) in *.
    pose proof (filter_apart s _ _ Hlt) as Hswap. rewrite (filter_cons _ b l2) in Hswap.
    destruct (decide (b.2 = s)); simpl in *;
      rewrite ?(assoc_L (++)), ?app_comm_cons, ?(assoc_L (++)); by rewrite Hswap.
Qed.

Lemma sort_list_stable s fuel : ∀ vs,
  length vs < fuel →
  filter (λ a, a.2 = s) (sort_list fuel vs) = filter (λ a, a.2 = s) vs.
Proof.
  induction fuel as [|fuel IH]; intros vs Hlen; [lia|]. cbn [sort_list]. case_decide as Hle; [done|].
  assert (2 * ((length vs - 1) / 2) ≤ length vs - 1) as Hk by apply Nat.Div0.mul_div_le.
  assert (length (drop (S ((length vs - 1) / 2)) vs) < fuel) by (rewrite length_drop; lia).
  assert (length (take (S ((length vs - 1) / 2)) vs) < fuel) by (rewrite length_take; lia).
  rewrite merge_lists_stable by (by apply sort_list_sorted).
  rewrite !IH by done. by rewrite <-filter_app, take_drop.
Qed.

Lemma scan_none w l1 :
  (∀ a, a ∈ l1 → le_str w a.2) → scan w l1 = ([], l1).
Proof.
  destruct l1 as [|a l1]; [done|]. intros Hle. simpl.
  rewrite decide_False; [done|]. specialize (Hle a ltac:(left)).
  unfold le_str in Hle. rewrite strcmp_flip in Hle. lia.
Qed.

Lemma merge_lists_in_order l2 : ∀ l1,
  (∀ a b, a ∈ l1 → b ∈ l2 → le_elem b a) → merge_lists l1 l2 = l2 ++ l1.
Proof.
  induction l2 as [|b l2 IH]; intros l1 Hle; [done|].
  rewrite merge_lists_cons, scan_none; [|intros a Ha; apply (Hle a b Ha); left]. simpl.
  destruct l1 as [|a l1]; [by rewrite app_nil_r|].
  rewrite IH; [done|]. intros a' b' Ha' Hb'. apply Hle; [done|by right].
Qed.

Lemma sort_list_of_sorted fuel : ∀ vs,
  StronglySorted le_elem vs → sort_list fuel vs = vs.
Proof.
  induction fuel as [|fuel IH]; intros vs Hs; [done|]. cbn [sort_list]. case_decide; [done|].
  rewrite <-(take_drop (S ((length vs - 1) / 2)) vs) in Hs.
  apply StronglySorted_app in Hs as (Hcross & Hs1 & Hs2).
  rewrite !IH by done. rewrite merge_lists_in_order; [apply take_drop|].
  intros a b Ha Hb. by apply Hcross.
Qed.

(** X13.  [q_sort] is stable: the elements that hold one and the same
    string are, after the sort, in the order they were in before (with a
    [list_cut_position] that moves the nodes up to and including the middle
    one to the second list). *)
Theorem q_sort_is_stable cut m h vs fuel s :
  cuts_through cut → queue m h vs → length vs < fuel →
  ∃ m' vs', q_sort cut fuel h m = Ok (tt, m') ∧ queue m' h vs' ∧
            StronglySorted le_str vs'.*2 ∧
            filter (λ a, a.2 = s) vs' = filter (λ a, a.2 = s) vs.
Proof.
  intros Hcuts Hq Hfuel.
  destruct (q_sort_run cut Hcuts fuel m h vs Hq Hfuel) as (m' & Hrun & Hq' & _).
  exists m', (sort_list fuel vs). split; [done|]. split; [done|]. split.
  - apply (StronglySorted_fmap snd le_elem le_str); [done|]. by apply sort_list_sorted.
  - by apply sort_list_stable.
Qed.

Lemma q_sort_is_stable_witness :
  queue heap_bab 1 [(2, "b"%string); (3, "a"%string); (4, "b"%string)] ∧
  ∃ m' vs', q_sort cut_through 4 1 heap_bab = Ok (tt, m') ∧ queue m' 1 vs' ∧
            StronglySorted le_str vs'.*2 ∧
            filter (λ a, a.2 = "b"%string) vs' = [(2, "b"%string); (4, "b"%string)].
Proof.
  assert (queue heap_bab 1 [(2, "b"%string); (3, "a"%string); (4, "b"%string)])
    as Hq by queue_compute.
  split; [exact Hq|].
  apply (q_sort_is_stable cut_through heap_bab 1 _ 4 "b" cut_through_cuts Hq). simpl. lia.
Defined.

(** X14.  On a queue that is already in non-decreasing order [q_sort]
    changes nothing: memory after the call is memory before it (with a
    [list_cut_position] as in X13). *)
Theorem q_sort_of_sorted_changes_nothing cut m h vs fuel :
  cuts_through cut → queue m h vs → length vs < fuel →
  StronglySorted le_str vs.*2 → q_sort cut fuel h m = Ok (tt, m).
Proof.
  intros Hcuts Hq Hfuel Hs.
  destruct (q_sort_run cut Hcuts fuel m h vs Hq Hfuel) as (m' & Hrun & Hq' & Hrel).
  rewrite sort_list_of_sorted in Hq' by (by apply sorted_elems).
  rewrite Hrun. do 2 f_equal.
  apply (chain_heap_eq m m' h vs.*1); [apply Hq|apply Hq'|done].
Qed.

Lemma q_sort_of_sorted_changes_nothing_witness :
  queue heap_aab 1 [(2, "a"%string); (3, "a"%string); (4, "b"%string)] ∧
  q_sort cut_through 4 1 heap_aab = Ok (tt, heap_aab).
Proof.
  assert (queue heap_aab 1 [(2, "a"%string); (3, "a"%string); (4, "b"%string)])
    as Hq by queue_compute.
  split; [exact Hq|].
  apply (q_sort_of_sorted_changes_nothing cut_through heap_aab 1 _ 4 cut_through_cuts Hq).
  - simpl. lia.
  - repeat constructor; by vm_compute.
Defined.

(** ** [q_delete_dup] on a sorted queue *)

Lemma dedup_cons2 a b vs :
  dedup (a :: b :: vs) =
  if decide (strcmp a.2 b.2 = 0%Z) then dedup (b :: vs) else a :: dedup (b :: vs).
Proof. done. Qed.

Lemma dedup_values vs s : s ∈ (dedup vs).*2 ↔ s ∈ vs.*2.
Proof.
  induction vs as [|a vs IH]; [done|]. destruct vs as [|b vs]; [done|].
  rewrite dedup_cons2. case_decide as Heq.
  - apply strcmp_eq in Heq. rewrite IH, (fmap_cons snd a), !fmap_cons, !elem_of_cons.
    rewrite Heq. tauto.
  - rewrite (fmap_cons snd a (dedup _)), (fmap_cons snd a (b :: vs)), !elem_of_cons, IH. done.
Qed.

Lemma dedup_sublist vs : dedup vs `sublist_of` vs.
Proof.
  induction vs as [|a vs IH]; [done|]. destruct vs as [|b vs]; [done|].
  rewrite dedup_cons2. case_decide; [by apply sublist_cons|by apply sublist_skip].
Qed.

Lemma dedup_strict vs :
  StronglySorted le_elem vs → StronglySorted (λ a b, lt_str a.2 b.2) (dedup vs).
Proof.
  induction vs as [|a vs IH]; [constructor|]. intros [Ha Hs]%StronglySorted_cons.
  destruct vs as [|b vs]; [repeat constructor|].
  rewrite dedup_cons2. case_decide as Hne; [by apply IH|].
  apply StronglySorted_cons. split; [|by apply IH].
  rewrite Forall_forall in Ha |- *. intros z Hz%dedup_subset.
  assert (lt_str a.2 b.2) as Hab.
  { specialize (Ha b ltac:(left)). unfold le_elem, le_str, lt_str in *. lia. }
  apply elem_of_cons in Hz as [->|Hz]; [done|].
  apply StronglySorted_cons in Hs as [Hb _]. rewrite Forall_forall in Hb.
  eapply strcmp_lt_le_trans; [done|]. by apply Hb.
Qed.

Lemma strictly_sorted_NoDup (l : list string) : StronglySorted lt_str l → NoDup l.
Proof.
  induction 1 as [|a l Hs IH Ha]; [constructor|]. constructor; [|done].
  intros Hin. rewrite Forall_forall in Ha. exact (strcmp_lt_ne a a (Ha a Hin) eq_refl).
Qed.

Lemma dedup_head y r : ∃ z r', dedup (y :: r) = z :: r' ∧ z.2 = y.2.
Proof.
  revert y. induction r as [|b r IH]; intros y; [by exists y, []|].
  rewrite dedup_cons2. case_decide as Heq; [|by eexists _, _].
  apply strcmp_eq in Heq. destruct (IH b) as (z & r' & -> & Hz).
  exists z, r'. split; [done|congruence].
Qed.

Lemma dedup_idemp vs : dedup (dedup vs) = dedup vs.
Proof.
  induction vs as [|a vs IH]; [done|]. destruct vs as [|b vs]; [done|].
  rewrite dedup_cons2. case_decide as Hne; [done|].
  destruct (dedup_head b vs) as (z & r' & Hd & Hz). rewrite Hd in IH |- *.
  rewrite dedup_cons2, decide_False by (by rewrite Hz). by rewrite IH.
Qed.

(** X15.  On a queue in non-decreasing order [q_delete_dup] leaves the
    strings strictly increasing: each string of the queue is left exactly
    once, on elements that keep their order. *)
Theorem q_delete_dup_leaves_distinct m h vs fuel :
  queue m h vs → length vs < fuel → StronglySorted le_str vs.*2 →
  ∃ m' vs', q_delete_dup fuel h m = Ok (true, m') ∧ queue m' h vs' ∧
            StronglySorted lt_str vs'.*2 ∧ NoDup vs'.*2 ∧
            (∀ s, s ∈ vs'.*2 ↔ s ∈ vs.*2) ∧ vs' `sublist_of` vs.
Proof.
  intros Hq Hfuel Hs.
  destruct (q_delete_dup_spec m h vs fuel Hq Hfuel) as (m' & Hrun & Hq' & _).
  assert (StronglySorted lt_str (dedup vs).*2) as Hstrict.
  { apply (StronglySorted_fmap snd (λ a b, lt_str a.2 b.2) lt_str); [done|].
    by apply dedup_strict, sorted_elems. }
  exists m', (dedup vs). split; [done|]. split; [done|]. split; [done|].
  split; [by apply strictly_sorted_NoDup|]. split; [apply dedup_values|apply dedup_sublist].
Qed.

Lemma q_delete_dup_leaves_distinct_witness :
  queue heap_aab 1 [(2, "a"%string); (3, "a"%string); (4, "b"%string)] ∧
  ∃ m' vs', q_delete_dup 4 1 heap_aab = Ok (true, m') ∧ queue m' 1 vs' ∧
            StronglySorted lt_str vs'.*2 ∧ NoDup vs'.*2 ∧
            (∀ s, s ∈ vs'.*2 ↔ s ∈ ["a"%string; "a"%string; "b"%string]) ∧
            vs' `sublist_of` [(2, "a"%string); (3, "a"%string); (4, "b"%string)].
Proof.
  assert (queue heap_aab 1 [(2, "a"%string); (3, "a"%string); (4, "b"%string)])
    as Hq by queue_compute.
  split; [exact Hq|].
  apply (q_delete_dup_leaves_distinct heap_aab 1 _ 4 Hq); [simpl; lia|].
  repeat constructor; by vm_compute.
Defined.

(** X16.  A second [q_delete_dup] finds nothing to delete, whatever the
    queue was: it returns true, the queue is the one the first call left
    and no block of memory is freed. *)
Theorem q_delete_dup_twice m h vs fuel :
  queue m h vs → length vs < fuel →
  ∃ m1 m2 vs', q_delete_dup fuel h m = Ok (true, m1) ∧ queue m1 h vs' ∧
               q_delete_dup fuel h m1 = Ok (true, m2) ∧ queue m2 h vs' ∧
               dom m2 = dom m1.
Proof.
  intros Hq Hfuel.
  destruct (q_delete_dup_spec m h vs fuel Hq Hfuel) as (m1 & Hrun1 & Hq1 & _).
  assert (length (dedup vs) < fuel) as Hfuel1.
  { pose proof (sublist_length _ _ (dedup_sublist vs)). lia. }
  destruct (q_delete_dup_spec m1 h (dedup vs) fuel Hq1 Hfuel1) as (m2 & Hrun2 & Hq2 & _ & Hout).
  rewrite dedup_idemp in Hq2.
  exists m1, m2, (dedup vs). split; [done|]. split; [done|]. split; [done|]. split; [done|].
  apply set_eq. intros q. rewrite !elem_of_dom.
  destruct (decide (q ∈ h :: (dedup vs).*1)) as [Hin|Hnin]; [|by rewrite Hout].
  split; intros _; apply live_lookup; eapply chain_live; try done; [apply Hq1|apply Hq2].
Qed.

Lemma q_delete_dup_twice_witness :
  queue heap_aab 1 [(2, "a"%string); (3, "a"%string); (4, "b"%string)] ∧
  ∃ m1 m2 vs', q_delete_dup 4 1 heap_aab = Ok (true, m1) ∧ queue m1 1 vs' ∧
               q_delete_dup 4 1 m1 = Ok (true, m2) ∧ queue m2 1 vs' ∧ dom m2 = dom m1.
Proof.
  assert (queue heap_aab 1 [(2, "a"%string); (3, "a"%string); (4, "b"%string)])
    as Hq by queue_compute.
  split; [exact Hq|]. apply (q_delete_dup_twice heap_aab 1 _ 4 Hq). simpl. lia.
Defined.

(** ** The caller's buffer *)

Lemma copied_exact v bufsize bs :
  (1 ≤ bufsize ≤ Z.of_nat (length bs))%Z →
  copied v bufsize bs =
  take (Z.to_nat (bufsize - 1))
       (list_ascii_of_string v ++ replicate (Z.to_nat (bufsize - 1)) NUL)
    ++ NUL :: drop (S (Z.to_nat (bufsize - 1))) bs.
Proof.
  intros Hb. unfold copied. set (n := Z.to_nat (bufsize - 1)).
  assert (n < length bs) as Hn by lia.
  destruct (lookup_lt_is_Some_2 bs n Hn) as [c Hc].
  rewrite (drop_S bs c n Hc).
  rewrite <-(Nat.add_0_r n) at 1. rewrite <-(length_strncpy_bytes v n) at 1.
  by rewrite insert_app_r.
Qed.

Lemma buffer_relinked S (m m1 : gmap nat block) sp bs :
  relinked S m m1 → (∀ q, q ∈ S → live m q) → m !! sp = Some (Buffer bs) →
  m1 !! sp = Some (Buffer bs).
Proof.
  intros [Hrel _] Hlive Hbs. rewrite Hrel; [done|].
  intros Hin. by eapply live_not_buffer; [apply Hlive|].
Qed.

(** X17.  Given a buffer of at least [bufsize] bytes, [bufsize] not zero,
    [q_remove_head] and [q_remove_tail] leave in it the first [bufsize - 1]
    characters of the string of the element they return, filled up with
    zero bytes when the string is shorter, then a zero byte at index
    [bufsize - 1]; the bytes of the buffer from index [bufsize] on are as
    they were. *)
Theorem q_remove_fills_buffer m h vs sp bufsize bs x v :
  queue m h vs → sp ≠ NULL → m !! sp = Some (Buffer bs) →
  (1 ≤ bufsize ≤ SIZE_MAX)%Z → (bufsize ≤ Z.of_nat (length bs))%Z →
  let n := Z.to_nat (bufsize - 1) in
  let bs' := take n (list_ascii_of_string v ++ replicate n NUL) ++ NUL :: drop (S n) bs in
  (∀ rest, vs = (x, v) :: rest →
     ∃ m', q_remove_head h sp bufsize m = Ok (x, m') ∧ m' !! sp = Some (Buffer bs')) ∧
  (∀ rest, vs = rest ++ [(x, v)] →
     ∃ m', q_remove_tail h sp bufsize m = Ok (x, m') ∧ m' !! sp = Some (Buffer bs')).
Proof.
  intros Hq Hsp Hbs Hb1 Hb2 n bs'.
  assert (∀ q, q ∈ h :: vs.*1 → live m q) as Hlive.
  { intros q Hin. eapply chain_live; [apply Hq|done]. }
  split; intros rest ->.
  - destruct (q_remove_head_unlink m h x v rest sp bufsize Hq) as (m1 & -> & _ & Hv & _ & Hrel).
    pose proof (buffer_relinked _ _ _ _ _ Hrel Hlive Hbs) as Hbs1.
    rewrite (bind_ok _ _ _ _ _ (copy_out_ok m1 x v sp bufsize bs Hsp Hv Hbs1 Hb1 Hb2)).
    eexists. split; [done|]. rewrite lookup_insert_eq. by rewrite copied_exact by lia.
  - destruct (q_remove_tail_unlink m h x v rest sp bufsize Hq) as (m1 & -> & _ & Hv & _ & Hrel).
    assert (m1 !! sp = Some (Buffer bs)) as Hbs1.
    { eapply buffer_relinked; [done| |done]. intros q Hin. apply Hlive.
      by rewrite fmap_app. }
    rewrite (bind_ok _ _ _ _ _ (copy_out_ok m1 x v sp bufsize bs Hsp Hv Hbs1 Hb1 Hb2)).
    eexists. split; [done|]. rewrite lookup_insert_eq. by rewrite copied_exact by lia.
Qed.

Lemma q_remove_fills_buffer_witness :
  queue heap_buffer 1 [(2, "hello"%string); (3, "b"%string)] ∧
  (∃ m', q_remove_head 1 4 3 heap_buffer = Ok (2, m') ∧
         m' !! 4 = Some (Buffer ["h"; "e"; NUL; "x"]%char)) ∧
  (∃ m', q_remove_tail 1 4 3 heap_buffer = Ok (3, m') ∧
         m' !! 4 = Some (Buffer ["b"; NUL; NUL; "x"]%char)).
Proof.
  assert (queue heap_buffer 1 [(2, "hello"%string); (3, "b"%string)]) as Hq by queue_compute.
  split; [exact Hq|]. split.
  - refine (proj1 (q_remove_fills_buffer heap_buffer 1 _ 4 3 ["x"; "x"; "x"; "x"]%char
                     2 "hello" Hq _ _ _ _) [(3, "b"%string)] eq_refl);
      [done|reflexivity|by vm_compute|by vm_compute].
  - refine (proj2 (q_remove_fills_buffer heap_buffer 1 _ 4 3 ["x"; "x"; "x"; "x"]%char
                     3 "b" Hq _ _ _ _) [(2, "hello"%string)] eq_refl);
      [done|reflexivity|by vm_compute|by vm_compute].
Defined.

(** X18.  With a buffer and [bufsize] zero, or [bufsize] more than the
    bytes the buffer has, [q_remove_head] and [q_remove_tail] on a queue
    that is not empty write past the end of the buffer: [bufsize - 1] wraps
    to [SIZE_MAX] in the first case, and the terminator goes to index
    [bufsize - 1] in the second. *)
Theorem q_remove_overruns_buffer m h vs sp bufsize bs :
  queue m h vs → vs ≠ [] → sp ≠ NULL → m !! sp = Some (Buffer bs) →
  (Z.of_nat (length bs) < SIZE_MAX)%Z →
  bufsize = 0%Z ∨ (Z.of_nat (length bs) < bufsize ≤ SIZE_MAX)%Z →
  q_remove_head h sp bufsize m = Fault ∧ q_remove_tail h sp bufsize m = Fault.
Proof.
  intros Hq Hne Hsp Hbs Hlen Hsize.
  assert (∀ q, q ∈ h :: vs.*1 → live m q) as Hlive.
  { intros q Hin. eapply chain_live; [apply Hq|done]. }
  assert (∀ m1 x v, payload m1 x = Some v → m1 !! sp = Some (Buffer bs) →
                    (copy_out x sp bufsize;; ret x) m1 = Fault) as Hcopy.
  { intros m1 x v Hv Hbs1. unfold bind at 1, copy_out. rewrite decide_False by done.
    rewrite (load_string_ok _ _ _ _ Hv). unfold bind at 1, strncpy.
    rewrite decide_False by done. rewrite Hbs1. unfold size_sub1.
    destruct Hsize as [->|Hsize].
    - rewrite decide_False; [done|]. change ((0 - 1) `mod` (SIZE_MAX + 1))%Z with SIZE_MAX. lia.
    - rewrite Z.mod_small by lia. case_decide; [|done].
      unfold store_byte. rewrite decide_False by done. rewrite lookup_insert_eq.
      rewrite decide_False; [done|].
      rewrite length_app, length_strncpy_bytes, length_drop. lia. }
  split.
  - destruct vs as [|[x v] rest]; [done|].
    destruct (q_remove_head_unlink m h x v rest sp bufsize Hq) as (m1 & -> & _ & Hv & _ & Hrel).
    apply (Hcopy m1 x v Hv). by eapply buffer_relinked.
  - destruct (exists_last Hne) as (rest & [x v] & ->).
    destruct (q_remove_tail_unlink m h x v rest sp bufsize Hq) as (m1 & -> & _ & Hv & _ & Hrel).
    apply (Hcopy m1 x v Hv). eapply buffer_relinked; [done| |done].
    intros q Hin. apply Hlive. by rewrite fmap_app.
Qed.

Lemma q_remove_overruns_buffer_witness :
  queue heap_buffer 1 [(2, "hello"%string); (3, "b"%string)] ∧
  q_remove_head 1 4 0 heap_buffer = Fault ∧ q_remove_tail 1 4 5 heap_buffer = Fault.
Proof.
  assert (queue heap_buffer 1 [(2, "hello"%string); (3, "b"%string)]) as Hq by queue_compute.
  split; [exact Hq|]. split.
  - refine (proj1 (q_remove_overruns_buffer heap_buffer 1 _ 4 0 ["x"; "x"; "x"; "x"]%char
                     Hq _ _ _ _ _)); [done|done|reflexivity|by vm_compute|by left].
  - refine (proj2 (q_remove_overruns_buffer heap_buffer 1 _ 4 5 ["x"; "x"; "x"; "x"]%char
                     Hq _ _ _ _ _)); [done|done|reflexivity|by vm_compute|].
    right. by vm_compute.
Defined.

(** ** What the queue holds of the heap *)








(** ** No operation faults *)

Lemma buffers_kept_frame (m0 m m' : gmap nat block) (N : list nat) :
  buffers_kept m0 m → (∀ q, q ∉ N → m' !! q = m !! q) →
  (∀ q bs, q ∈ N → m !! q ≠ Some (Buffer bs)) → buffers_kept m0 m'.
Proof.
  intros Hk Hframe HN sp bs Hbs. destruct (Hk sp bs Hbs) as (bs' & Hbs' & Hlen).
  exists bs'. split; [|done]. rewrite Hframe; [done|]. intros Hin. by eapply HN.
Qed.

Lemma buffers_kept_relinked (m0 m m' : gmap nat block) h vs (S : list nat) :
  buffers_kept m0 m → queue m h vs → S ⊆ h :: vs.*1 → relinked S m m' →
  buffers_kept m0 m'.
Proof.
  intros Hk Hq HS [Hrel _]. apply (buffers_kept_frame m0 m m' S); [done..|].
  intros q bs Hin. apply live_not_buffer. eapply chain_live; [apply Hq|by apply HS].
Qed.

Lemma buffer_for_kept m0 m sp bufsize :
  buffers_kept m0 m → buffer_for m0 sp bufsize → buffer_for m sp bufsize.
Proof.
  intros Hk [->|(Hsp & bs & Hbs & Hb1 & Hb2)]; [by left|].
  destruct (Hk sp bs Hbs) as (bs' & Hbs' & Hlen).
  right. split; [done|]. exists bs'. split; [done|]. split; [done|]. by rewrite Hlen.
Qed.

Lemma copy_out_returns (m0 m m1 : gmap nat block) h vs x v sp bufsize (S : list nat) :
  buffers_kept m0 m → buffer_for m sp bufsize → queue m h vs → S ⊆ h :: vs.*1 →
  relinked S m m1 → payload m1 x = Some v →
  ∃ m', copy_out x sp bufsize m1 = Ok (tt, m') ∧ buffers_kept m0 m' ∧
        ∀ h' vs', queue m1 h' vs' → queue m' h' vs'.
Proof.
  intros Hk Hbuf Hq HS Hrel Hv.
  pose proof (buffers_kept_relinked _ _ _ _ _ _ Hk Hq HS Hrel) as Hk1.
  destruct Hbuf as [->|(Hsp & bs & Hbs & Hb1 & Hb2)].
  { exists m1. by rewrite copy_out_null. }
  assert (m1 !! sp = Some (Buffer bs)) as Hbs1.
  { eapply buffer_relinked; [done| |done]. intros q Hin. eapply chain_live; [apply Hq|auto]. }
  pose proof (copy_out_ok m1 x v sp bufsize bs Hsp Hv Hbs1 Hb1 Hb2) as Hrun.
  eexists. split; [done|]. split.
  - intros sp' bs0 Hbs0. destruct (Hk1 sp' bs0 Hbs0) as (bs' & Hbs' & Hlen).
    destruct (decide (sp' = sp)) as [->|Hne].
    + rewrite lookup_insert_eq. eexists. split; [done|].
      destruct (copied_content v bufsize bs ltac:(lia)) as (_ & _ & ->). congruence.
    + rewrite lookup_insert_ne by done. eauto.
  - intros h' vs'. apply queue_buffers. by eapply copy_out_frame.
Qed.

Lemma exec_returns cut m0 h o m vs F :
  cuts_through cut → queue m h vs → length vs < F → op_ok F m0 o → buffers_kept m0 m →
  ∃ m' vs', exec cut h o m = Ok (tt, m') ∧ queue m' h vs' ∧
            length vs' ≤ S (length vs) ∧ buffers_kept m0 m'.
Proof.
  intros Hcuts Hq HF Hok Hk.
  assert (∀ q bs, q ∈ h :: vs.*1 → m !! q ≠ Some (Buffer bs)) as Hnodes.
  { intros q bs Hin. apply live_not_buffer. eapply chain_live; [apply Hq|done]. }
  destruct o as [oe os s|oe os s|sp bufsize|sp bufsize|fuel|fuel|fuel|fuel|fuel];
    simpl in Hok |- *.
  - destruct (decide (oe = true ∧ os = true)) as [[-> ->]|Hf].
    + destruct (q_insert_head_ok m h vs s Hq) as (p & m1 & H1 & Hq1 & Hnone & Hframe).
      exists m1, ((p, s) :: vs). rewrite (bind_ok _ _ _ _ _ H1).
      split; [done|]. split; [done|]. split; [simpl; lia|].
      apply (buffers_kept_frame m0 m m1 (p :: h :: vs.*1)); [done..|].
      intros q bs [->|Hin]%elem_of_cons; [congruence|by apply Hnodes].
    + assert (h = NULL ∨ oe = false ∨ os = false) as Hfail
        by (destruct oe, os; naive_solver).
      destruct (q_insert_fail _ _ h s m Hfail) as [H1 _].
      exists m, vs. rewrite (bind_ok _ _ _ _ _ H1). split; [done|]. split; [done|].
      split; [lia|done].
  - destruct (decide (oe = true ∧ os = true)) as [[-> ->]|Hf].
    + destruct (q_insert_tail_ok m h vs s Hq) as (p & m1 & H1 & Hq1 & Hnone & Hframe).
      exists m1, (vs ++ [(p, s)]). rewrite (bind_ok _ _ _ _ _ H1).
      split; [done|]. split; [done|]. split; [rewrite length_app; simpl; lia|].
      apply (buffers_kept_frame m0 m m1 (p :: h :: vs.*1)); [done..|].
      intros q bs [->|Hin]%elem_of_cons; [congruence|by apply Hnodes].
    + assert (h = NULL ∨ oe = false ∨ os = false) as Hfail
        by (destruct oe, os; naive_solver).
      destruct (q_insert_fail _ _ h s m Hfail) as [_ H1].
      exists m, vs. rewrite (bind_ok _ _ _ _ _ H1). split; [done|]. split; [done|].
      split; [lia|done].
  - pose proof (buffer_for_kept _ _ _ _ Hk Hok) as Hbuf.
    destruct vs as [|[x v] rest].
    { destruct (q_remove_empty m h sp bufsize Hq) as [H1 _].
      exists m, []. rewrite (bind_ok _ _ _ _ _ H1). split; [done|]. split; [done|].
      split; [simpl; lia|done]. }
    destruct (q_remove_head_unlink m h x v rest sp bufsize Hq) as (m1 & H1 & Hq1 & Hv & _ & Hrel).
    destruct (copy_out_returns m0 m m1 h _ x v sp bufsize _ Hk Hbuf Hq ltac:(done) Hrel Hv)
      as (m' & Hcopy & Hk' & Hq').
    exists m', rest. split.
    { unfold bind at 1. rewrite H1. unfold bind at 1. by rewrite Hcopy. }
    split; [by apply Hq'|]. split; [simpl; lia|done].
  - pose proof (buffer_for_kept _ _ _ _ Hk Hok) as Hbuf.
    destruct (decide (vs = [])) as [->|Hne].
    { destruct (q_remove_empty m h sp bufsize Hq) as [_ H1].
      exists m, []. rewrite (bind_ok _ _ _ _ _ H1). split; [done|]. split; [done|].
      split; [simpl; lia|done]. }
    destruct (exists_last Hne) as (rest & [x v] & ->).
    destruct (q_remove_tail_unlink m h x v rest sp bufsize Hq) as (m1 & H1 & Hq1 & Hv & _ & Hrel).
    destruct (copy_out_returns m0 m m1 h _ x v sp bufsize _ Hk Hbuf Hq
                ltac:(by rewrite fmap_app) Hrel Hv) as (m' & Hcopy & Hk' & Hq').
    exists m', rest. split.
    { unfold bind at 1. rewrite H1. unfold bind at 1. by rewrite Hcopy. }
    split; [by apply Hq'|]. split; [rewrite length_app; simpl; lia|done].
  - destruct (decide (vs = [])) as [->|Hne].
    { assert (h ≠ NULL) by (eapply chain_not_null; [apply Hq|left]).
      exists m, []. unfold q_delete_mid. rewrite decide_False by done.
      unfold bind at 1. rewrite (list_empty_chain _ _ _ _ (queue_chain _ _ _ Hq)).
      split; [done|]. split; [done|]. split; [simpl; lia|done]. }
    destruct (q_delete_mid_spec m h vs fuel Hq Hne)
      as [[Hr|(m1 & Hr & Hq1 & _ & Hframe)] Hret]; [by destruct Hret; [lia|]|].
    exists m1, (delete ((length vs - 1) / 2) vs). rewrite (bind_ok _ _ _ _ _ Hr).
    split; [done|]. split; [done|].
    split; [pose proof (sublist_length _ _ (sublist_delete vs ((length vs - 1) / 2))); lia|].
    by apply (buffers_kept_frame m0 m m1 (h :: vs.*1)).
  - destruct (q_delete_dup_spec m h vs fuel Hq) as (m1 & Hr & Hq1 & _ & Hframe); [lia|].
    exists m1, (dedup vs). rewrite (bind_ok _ _ _ _ _ Hr). split; [done|]. split; [done|].
    split; [pose proof (sublist_length _ _ (dedup_sublist vs)); lia|].
    by apply (buffers_kept_frame m0 m m1 (h :: vs.*1)).
  - destruct (q_swap_spec m h vs.*1 fuel (queue_chain _ _ _ Hq)) as (m1 & Hr & Hc1 & Hrel);
      [rewrite length_fmap; lia|].
    exists m1, (swap_pairs vs). split; [done|]. split; [by eapply q_swap_queue|].
    split; [rewrite swap_pairs_Permutation; lia|]. by eapply buffers_kept_relinked.
  - destruct (q_reverse_spec m h vs.*1 fuel (queue_chain _ _ _ Hq)) as (m1 & Hr & Hc1 & Hrel);
      [rewrite length_fmap; lia|].
    exists m1, (reverse vs). split; [done|]. split; [by eapply q_reverse_queue|].
    split; [rewrite length_reverse; lia|]. by eapply buffers_kept_relinked.
  - destruct (q_sort_spec cut Hcuts fuel m h vs Hq) as (m1 & vs' & Hr & Hq1 & Hp & _ & Hrel);
      [lia|].
    exists m1, vs'. split; [done|]. split; [done|]. split; [rewrite Hp; lia|].
    by eapply buffers_kept_relinked.
Qed.

Lemma run_returns cut m0 h F : cuts_through cut → ∀ ops m vs,
  queue m h vs → length vs + length ops < F → Forall (op_ok F m0) ops →
  buffers_kept m0 m →
  ∃ m' vs', run cut h ops m = Ok (tt, m') ∧ queue m' h vs'.
Proof.
  intros Hcuts. induction ops as [|o ops IH]; intros m vs Hq HF Hops Hk; simpl.
  - by exists m, vs.
  - apply Forall_cons in Hops as [Ho Hops]. simpl in HF.
    destruct (exec_returns cut m0 h o m vs F Hcuts Hq ltac:(lia) Ho Hk)
      as (m1 & vs1 & Hrun1 & Hq1 & Hlen & Hk1).
    rewrite (bind_ok _ _ _ _ _ Hrun1). apply (IH m1 vs1); [done|lia|done..].
Qed.

(** X20.  No operation faults on a queue that [q_new] made and the
    operations work on, in whatever order they are called: every call
    returns, given fuel for its loops and, for a removal, no buffer or a
    buffer of [bufsize] bytes, [bufsize] not zero.  (Sort is run with a
    [list_cut_position] as in X13.) *)
Theorem operations_never_fault cut m0 ops F :
  cuts_through cut → length ops < F → Forall (op_ok F m0) ops →
  ∃ h m1 m vs, q_new true m0 = Ok (h, m1) ∧ run cut h ops m1 = Ok (tt, m) ∧ queue m h vs.
Proof.
  intros Hcuts HF Hops.
  destruct (q_new_spec m0) as (h & m1 & Hnew & _ & Hnone & Hq1 & Hframe).
  destruct (run_returns cut m0 h F Hcuts ops m1 [] Hq1 ltac:(simpl; lia) Hops)
    as (m & vs & Hrun & Hq).
  { intros sp bs Hbs. exists bs. split; [|done]. rewrite Hframe; [done|]. congruence. }
  by exists h, m1, m, vs.
Qed.

Lemma operations_never_fault_witness :
  ∃ h m1 m vs,
    q_new true (list_to_map [(7, Buffer ["x"; "x"; "x"]%char)]) = Ok (h, m1) ∧
    run cut_through h
      [InsertTail true true "d"; InsertHead false true "a"; RemoveTail 7 3;
       RemoveHead NULL 0; InsertHead true true "b"; Sort 8; DeleteMid 8]
      m1 = Ok (tt, m) ∧
    queue m h vs.
Proof.
  apply (operations_never_fault cut_through (list_to_map [(7, Buffer ["x"; "x"; "x"]%char)])
           [InsertTail true true "d"; InsertHead false true "a"; RemoveTail 7 3;
            RemoveHead NULL 0; InsertHead true true "b"; Sort 8; DeleteMid 8]
           8 cut_through_cuts).
  - simpl. lia.
  - repeat (apply Forall_cons; split); try apply Forall_nil; simpl; try done.
    + right. split; [done|]. eexists. split; [reflexivity|]. by vm_compute.
    + by left.
Defined.

(** ** Operations one after the other *)

(** X21.  [q_sort] and then [q_delete_dup], the order of calls the comment
    of [q_delete_dup] asks for, leave the strings of the queue strictly
    increasing: every string that was in the queue is in it exactly once.
    (Sort is run with a [list_cut_position] as in X13.) *)
Theorem sort_then_delete_dup cut m h vs fuel :
  cuts_through cut → queue m h vs → length vs < fuel →
  ∃ m1 m2 vs', q_sort cut fuel h m = Ok (tt, m1) ∧
               q_delete_dup fuel h m1 = Ok (true, m2) ∧ queue m2 h vs' ∧
               StronglySorted lt_str vs'.*2 ∧ NoDup vs'.*2 ∧
               (∀ s, s ∈ vs'.*2 ↔ s ∈ vs.*2) ∧ vs'.*1 ⊆ vs.*1.
Proof.
  intros Hcuts Hq Hfuel.
  destruct (q_sort_spec cut Hcuts fuel m h vs Hq Hfuel) as (m1 & vs1 & Hrun1 & Hq1 & Hp & Hs & _).
  destruct (q_delete_dup_spec m1 h vs1 fuel Hq1) as (m2 & Hrun2 & Hq2 & _); [by rewrite Hp|].
  assert (StronglySorted lt_str (dedup vs1).*2) as Hstrict.
  { apply (StronglySorted_fmap snd (λ a b, lt_str a.2 b.2) lt_str); [done|].
    by apply dedup_strict. }
  exists m1, m2, (dedup vs1). split; [done|]. split; [done|]. split; [done|].
  split; [done|]. split; [by apply strictly_sorted_NoDup|]. split.
  - intros s. by rewrite dedup_values, Hp.
  - rewrite <-Hp. apply sublist_subseteq, fmap_sublist, dedup_sublist.
Qed.

Lemma sort_then_delete_dup_witness :
  queue heap_bab 1 [(2, "b"%string); (3, "a"%string); (4, "b"%string)] ∧
  ∃ m1 m2 vs', q_sort cut_through 4 1 heap_bab = Ok (tt, m1) ∧
               q_delete_dup 4 1 m1 = Ok (true, m2) ∧ queue m2 1 vs' ∧
               StronglySorted lt_str vs'.*2 ∧ NoDup vs'.*2 ∧
               (∀ s, s ∈ vs'.*2 ↔ s ∈ ["b"%string; "a"%string; "b"%string]) ∧
               vs'.*1 ⊆ [2; 3; 4].
Proof.
  assert (queue heap_bab 1 [(2, "b"%string); (3, "a"%string); (4, "b"%string)])
    as Hq by queue_compute.
  split; [exact Hq|].
  apply (sort_then_delete_dup cut_through heap_bab 1 _ 4 cut_through_cuts Hq). simpl. lia.
Defined.


